(** * Ant colony optimisation for the travelling salesman problem

    A shallow embedding of [main.go]: cities and Euclidean distances, ants
    with their tour and visited map, the colony with its pheromone and
    distance matrices, and the colony's methods [InitializeAnts],
    [NextCity], [AntsMove], [UpdatePheromones] and [TourLength].

    - [float64] is Rocq's primitive binary64 float ([PrimFloat]). Every
      arithmetic operation is rounded on its own (no fused multiply-add,
      as the gc compiler does on amd64); a division by zero yields an
      infinity or NaN and never panics. [math.Sqrt] is the correctly
      rounded square root; [math.Pow] is a parameter.
    - [int] is [Z]; slices are lists; [map[int]bool] is a [gmap Z bool]
      whose missing keys read as [false].
    - A run-time panic of Go (index out of range, nil dereference,
      [rand.Intn] of a non-positive bound, [make] of a negative length or
      of a length beyond the runtime's limit) is the result [Panic].
    - The methods have a pointer receiver and use the process-wide random
      source, so they are computations over a [World] holding the colony
      and the random source.
    - The one unbounded loop, the inner loop of [AntsMove], runs on fuel;
      [OutOfFuel] is the result of a loop that used it up, which
      [AntsMove_fuel] shows never happens. *)

From Stdlib Require Import ZArith Floats.
From stdpp Require Import base strings option list gmap.

Open Scope Z_scope.

(** ** Results and the [Go] monad *)

Inductive result (A : Type) : Type :=
| Ok (a : A)
| Panic (msg : string)
| OutOfFuel.
Arguments Ok {A} a.
Arguments Panic {A} msg.
Arguments OutOfFuel {A}.

Definition result_bind {A B} (f : A → result B) (r : result A) : result B :=
  match r with
  | Ok a => f a
  | Panic msg => Panic msg
  | OutOfFuel => OutOfFuel
  end.

#[global] Instance result_ret : MRet result := @Ok.
#[global] Instance result_mbind : MBind result := @result_bind.

(** [l[i]] with Go's bounds check. *)
Definition index {A} (l : list A) (i : Z) : result A :=
  if decide (0 ≤ i < Z.of_nat (length l)) then
    match l !! Z.to_nat i with
    | Some x => Ok x
    | None => Panic "index out of range"
    end
  else Panic "index out of range".

(** [l[i] = x] with Go's bounds check. *)
Definition store {A} (l : list A) (i : Z) (x : A) : result (list A) :=
  if decide (0 ≤ i < Z.of_nat (length l)) then Ok (<[Z.to_nat i := x]> l)
  else Panic "index out of range".

Definition len {A} (l : list A) : Z := Z.of_nat (length l).

(** [for i := range l]: the indices [0 .. len l - 1]. *)
Definition range {A} (l : list A) : list Z := seqZ 0 (len l).

Fixpoint foldR {A S} (f : S → A → result S) (l : list A) (s : S) : result S :=
  match l with
  | [] => Ok s
  | a :: l' => s' ← f s a; foldR f l' s'
  end.

(** ** Cities *)

Record City := mkCity { X : float; Y : float }.

Definition Distance (c other : City) : float :=
  let dx := (X c - X other)%float in
  let dy := (Y c - Y other)%float in
  sqrt (dx * dx + dy * dy)%float.

(** ** Ants and the colony *)

Record Ant := mkAnt { Tour : list Z; Visited : gmap Z bool }.

(** [ant.Visited[i]]: a key that is absent reads as [false]. *)
Definition visited (ant : Ant) (i : Z) : bool := default false (Visited ant !! i).

(** [Cities] is a slice of pointers: [None] is a nil pointer. *)
Record AntColony := mkAntColony {
  NumAnts : Z;
  Alpha : float;
  Beta : float;
  Rho : float;
  Q : float;
  Cities : list (option City);
  Pheromones : list (list float);
  DistanceMatrix : list (list float)
}.

(** [*p]. *)
Definition deref (p : option City) : result City :=
  match p with
  | Some c => Ok c
  | None => Panic "nil pointer dereference"
  end.

(** One row of the distance matrix: [cities[i].Distance(cities[j])] for
    every [j]. *)
Definition distance_row (cities : list (option City)) (pi : option City) : result (list float) :=
  foldR (λ row pj, ci ← deref pi; cj ← deref pj; Ok (row ++ [Distance ci cj])) cities [].

Definition NewAntColony (numAnts : Z) (alpha beta rho q : float)
    (cities : list (option City)) : result AntColony :=
  let n := length cities in
  let pheromones := replicate n (replicate n 0%float) in
  distanceMatrix ← foldR (λ m pi, row ← distance_row cities pi; Ok (m ++ [row])) cities [];
  Ok (mkAntColony numAnts alpha beta rho q cities pheromones distanceMatrix).

(** ** The random source

    [math/rand] is not part of the repository.  The process-wide source is
    a tape of outcomes read at a cursor: [Intn n] reduces the next integer
    outcome into [[0, n)] and panics for [n <= 0], [Float64] yields the
    next float outcome when it lies in [[0, 1)] and [0] otherwise, so every
    draw is in the documented range and every value of the range can be
    drawn. *)

Record Rand := mkRand { ints : nat → Z; floats : nat → float; cursor : nat }.

Definition advance (g : Rand) : Rand := mkRand (ints g) (floats g) (S (cursor g)).

Definition unit_interval (f : float) : float :=
  if ((0 <=? f) && (f <? 1))%float then f else 0%float.

(** ** The world the methods run in *)

Record World := mkWorld { colony : AntColony; rand : Rand }.

Definition Go (A : Type) : Type := World → result (A * World).

#[global] Instance Go_ret : MRet Go := λ A a w, Ok (a, w).
#[global] Instance Go_bind : MBind Go := λ A B f m w,
  match m w with
  | Ok (a, w') => f a w'
  | Panic msg => Panic msg
  | OutOfFuel => OutOfFuel
  end.

(** Reading the receiver [ac]. *)
Definition getColony : Go AntColony := λ w, Ok (colony w, w).

(** [ac.Pheromones = p]: the only write to the colony. *)
Definition setPheromones (p : list (list float)) : Go unit := λ w,
  let ac := colony w in
  Ok (tt, mkWorld (mkAntColony (NumAnts ac) (Alpha ac) (Beta ac) (Rho ac) (Q ac)
                     (Cities ac) p (DistanceMatrix ac)) (rand w)).

(** A step that touches neither the colony nor the random source. *)
Definition lift {A} (r : result A) : Go A := λ w,
  match r with
  | Ok a => Ok (a, w)
  | Panic msg => Panic msg
  | OutOfFuel => OutOfFuel
  end.

Definition Intn (n : Z) : Go Z := λ w,
  if decide (n ≤ 0) then Panic "invalid argument to Intn"
  else Ok (ints (rand w) (cursor (rand w)) `mod` n, mkWorld (colony w) (advance (rand w))).

Definition Float64 : Go float := λ w,
  Ok (unit_interval (floats (rand w) (cursor (rand w))), mkWorld (colony w) (advance (rand w))).

(** [for _, a := range l { ... }] collecting the results. *)
Fixpoint forM {A B} (f : A → Go B) (l : list A) : Go (list B) :=
  match l with
  | [] => mret []
  | a :: l' => b ← f a; bs ← forM f l'; mret (b :: bs)
  end.

(** ** InitializeAnts *)

(** The body of the loop: a tour of [len(ac.Cities)] zeros whose first
    entry is then overwritten with the start city. *)
Definition newAnt : Go Ant :=
  ac ← getColony;
  let tour := replicate (length (Cities ac)) 0 in
  startCity ← Intn (len (Cities ac));
  tour' ← lift (store tour 0 startCity);
  mret (mkAnt tour' (<[startCity := true]> ∅)).

(** [make([]*Ant, ac.NumAnts)]: the runtime's [makeslice] rejects a
    negative length, and a length whose elements (pointers of 8 bytes)
    take more than [maxAlloc] bytes, the most the runtime allocates at
    all: 2^48 bytes with the gc runtime on amd64. Both panic with the same
    message. Running out of memory below that bound is a fatal error of
    the runtime and no panic, and the model leaves it out. The other
    allocations of the program take their length from an existing slice
    of cities; the model takes them to succeed. *)
Definition maxAlloc : Z := 2 ^ 48.

Definition InitializeAnts : Go (list Ant) :=
  ac ← getColony;
  if decide (NumAnts ac < 0 ∨ maxAlloc < 8 * NumAnts ac)
  then lift (Panic "makeslice: len out of range")
  else forM (λ _ : unit, newAnt) (replicate (Z.to_nat (NumAnts ac)) tt).

(** ** TourLength *)

(** The loop of [TourLength], with [length] as accumulator. *)
Fixpoint tour_length (d : list (list float)) (tour : list Z) (length : float) : result float :=
  match tour with
  | fromCity :: ((toCity :: _) as rest) =>
      row ← index d fromCity;
      x ← index row toCity;
      tour_length d rest (length + x)%float
  | _ => Ok length
  end.

Definition TourLength (tour : list Z) : Go float :=
  ac ← getColony;
  lift (tour_length (DistanceMatrix ac) tour 0%float).

(** ** UpdatePheromones *)

(** [p[i][j] += x]. *)
Definition add_at (p : list (list float)) (i j : Z) (x : float) : result (list (list float)) :=
  row ← index p i;
  y ← index row j;
  row' ← store row j (y + x)%float;
  store p i row'.

(** The evaporation loops: every entry is multiplied by [1 - rho]. *)
Definition evaporate (rho : float) (p : list (list float)) : list (list float) :=
  map (map (λ x, x * (1 - rho))%float) p.

(** The inner deposit loop: for every two consecutive cities of the tour,
    [p[from][to] += amount] and then [p[to][from] += amount]. *)
Fixpoint deposit (amount : float) (p : list (list float)) (tour : list Z) : result (list (list float)) :=
  match tour with
  | fromCity :: ((toCity :: _) as rest) =>
      p1 ← add_at p fromCity toCity amount;
      p2 ← add_at p1 toCity fromCity amount;
      deposit amount p2 rest
  | _ => Ok p
  end.

(** The body of the deposit loop, for one ant. *)
Definition depositAnt (ant : Ant) : Go unit :=
  tourLength ← TourLength (Tour ant);
  ac ← getColony;
  p ← lift (deposit (Q ac / tourLength)%float (Pheromones ac) (Tour ant));
  setPheromones p.

Definition UpdatePheromones (ants : list Ant) : Go unit :=
  ac ← getColony;
  _ ← setPheromones (evaporate (Rho ac) (Pheromones ac));
  _ ← forM depositAnt ants;
  mret tt.

(** ** NextCity and AntsMove, for any implementation of [math.Pow] *)

Section Selection.

Variable Pow : float → float → float.

(** First loop: [heuristic] and [sum] after one more city [i]. *)
Definition weigh (ac : AntColony) (ant : Ant) (currentCity : Z) (pheromones : list float)
    (st : list float * float) (i : Z) : result (list float * float) :=
  let '(heuristic, sum) := st in
  if visited ant i then Ok (heuristic, sum)
  else
    row ← index (DistanceMatrix ac) currentCity;
    d ← index row i;
    heuristic' ← store heuristic i (1 / d)%float;
    p ← index pheromones i;
    h ← index heuristic' i;
    Ok (heuristic', (sum + Pow p (Alpha ac) * Pow h (Beta ac))%float).

(** Second loop: the first unvisited city at which the cumulative weight
    reaches the roulette value, and [-1] when none does. *)
Fixpoint spin (ac : AntColony) (ant : Ant) (pheromones heuristic : list float)
    (roulette : float) (idx : list Z) (cumulativeProbability : float) : result Z :=
  match idx with
  | [] => Ok (-1)
  | i :: rest =>
      if visited ant i then spin ac ant pheromones heuristic roulette rest cumulativeProbability
      else
        p ← index pheromones i;
        h ← index heuristic i;
        let c := (cumulativeProbability + Pow p (Alpha ac) * Pow h (Beta ac))%float in
        if (roulette <=? c)%float then Ok i
        else spin ac ant pheromones heuristic roulette rest c
  end.

(** The first loop of [NextCity]: the heuristic array and the weight sum. *)
Definition weighAll (ac : AntColony) (ant : Ant) (currentCity : Z) (pheromones : list float)
    : result (list float * float) :=
  let heuristic := replicate (length (Cities ac)) 0%float in
  foldR (weigh ac ant currentCity pheromones) (range (Cities ac)) (heuristic, 0%float).

Definition NextCity (ant : Ant) : Go Z :=
  ac ← getColony;
  currentCity ← lift (index (Tour ant) (len (Tour ant) - 1));
  pheromones ← lift (index (Pheromones ac) currentCity);
  '(heuristic, sum) ← lift (weighAll ac ant currentCity pheromones);
  r ← Float64;
  let roulette := (r * sum)%float in
  lift (spin ac ant pheromones heuristic roulette (range (Cities ac)) 0%float).

(** The inner loop of [AntsMove] for one ant. *)
Fixpoint extend (fuel : nat) (ant : Ant) : Go Ant :=
  ac ← getColony;
  if decide (len (Tour ant) < len (Cities ac)) then
    match fuel with
    | O => lift OutOfFuel
    | S fuel' =>
        nextCity ← NextCity ant;
        extend fuel' (mkAnt (Tour ant ++ [nextCity]) (<[nextCity := true]> (Visited ant)))
    end
  else mret ant.

(** The ants are pointers and are updated in place: the model returns the
    updated ants, in order. The ants of [InitializeAnts] are freshly
    allocated, so no two entries of the slice alias. Every pass of the
    inner loop makes the tour one longer, so [len(ac.Cities)] passes are
    enough fuel. *)
Definition AntsMove (ants : list Ant) : Go (list Ant) :=
  ac ← getColony;
  forM (extend (length (Cities ac))) ants.

End Selection.

(** ** The loop of [main] *)

Section Loop.

Variable Pow : float → float → float.

(** One pass of the loop of [main]. *)
Definition iteration : Go unit :=
  ants ← InitializeAnts;
  ants ← AntsMove Pow ants;
  UpdatePheromones ants.

(** [for i := 0; i < iterations; i++ { ... }]. *)
Fixpoint iterations (n : nat) : Go unit :=
  match n with
  | O => mret tt
  | S n' => _ ← iteration; iterations n'
  end.

End Loop.

(** [p[i][j]] as an option. *)
Definition entry (p : list (list float)) (i j : nat) : option float :=
  p !! i ≫= (.!! j).

(** ** The selection of [NextCity] as functions

    The weight of city [i] for an ant at [currentCity], the weight sum of
    the first loop and the city the second loop returns, read off the
    matrices directly; [NextCity_run] shows that this is what [NextCity]
    computes on a colony with N x N matrices. *)

Section SelectionFunctions.

Variable Pow : float → float → float.

Definition distance_to (ac : AntColony) (currentCity i : Z) : float :=
  default 0%float (entry (DistanceMatrix ac) (Z.to_nat currentCity) (Z.to_nat i)).

Definition weight (ac : AntColony) (pheromones : list float) (currentCity i : Z) : float :=
  (Pow (default 0 (pheromones !! Z.to_nat i)) (Alpha ac)
   * Pow (1 / distance_to ac currentCity i) (Beta ac))%float.

Definition weightSum (ac : AntColony) (ant : Ant) (pheromones : list float)
    (currentCity : Z) : float :=
  foldl (λ sum i, if visited ant i then sum
                  else (sum + weight ac pheromones currentCity i)%float)
    0%float (range (Cities ac)).

Fixpoint pick (ac : AntColony) (ant : Ant) (pheromones : list float) (currentCity : Z)
    (roulette : float) (idx : list Z) (cumulativeProbability : float) : Z :=
  match idx with
  | [] => -1
  | i :: rest =>
      if visited ant i then pick ac ant pheromones currentCity roulette rest cumulativeProbability
      else
        let c := (cumulativeProbability + weight ac pheromones currentCity i)%float in
        if (roulette <=? c)%float then i
        else pick ac ant pheromones currentCity roulette rest c
  end.

End SelectionFunctions.

(** The least city index the ant has not visited. *)
Definition first_unvisited (ac : AntColony) (ant : Ant) (i : Z) : Prop :=
  0 ≤ i < len (Cities ac) ∧ visited ant i = false ∧ ∀ j, 0 ≤ j < i → visited ant j = true.

(** ** Well-formed colonies and tours *)

Definition square (n : nat) (p : list (list float)) : Prop :=
  length p = n ∧ Forall (λ row, length row = n) p.

Definition symmetric (p : list (list float)) : Prop :=
  ∀ i j, entry p i j = entry p j i.

(** Both matrices are N x N, as [NewAntColony] allocates them. *)
Definition wf_colony (ac : AntColony) : Prop :=
  square (length (Cities ac)) (Pheromones ac) ∧
  square (length (Cities ac)) (DistanceMatrix ac).

(** A tour whose entries are all city indices. *)
Definition valid_tour (ac : AntColony) (tour : list Z) : Prop :=
  Forall (λ c, 0 ≤ c < len (Cities ac)) tour.

(** The distance matrix [NewAntColony] computes for non-nil cities. *)
Definition distances (cs : list City) : list (list float) :=
  map (λ ci, map (Distance ci) cs) cs.

(** The start city the next [rand.Intn(len(ac.Cities))] draws. *)
Definition start_of (w : World) : Z :=
  ints (rand w) (cursor (rand w)) `mod` len (Cities (colony w)).

(** The ant one pass of the loop of [InitializeAnts] builds. *)
Definition started (n : nat) (startCity : Z) : Ant :=
  mkAnt (<[0%nat := startCity]> (replicate n 0)) (<[startCity := true]> ∅).

(** A computation that leaves the colony as it found it. *)
Definition preserves_colony {A} (m : Go A) : Prop :=
  ∀ w a w', m w = Ok (a, w') → colony w' = colony w.

(** A computation that writes at most the [Pheromones] field. *)
Definition writes_pheromones_only {A} (m : Go A) : Prop :=
  ∀ w a w', m w = Ok (a, w') →
    NumAnts (colony w') = NumAnts (colony w) ∧
    Alpha (colony w') = Alpha (colony w) ∧
    Beta (colony w') = Beta (colony w) ∧
    Rho (colony w') = Rho (colony w) ∧
    Q (colony w') = Q (colony w) ∧
    Cities (colony w') = Cities (colony w) ∧
    DistanceMatrix (colony w') = DistanceMatrix (colony w).

(** What [UpdatePheromones] maintains from call to call, for a colony over
    the cities [cs]. *)
Definition symmetric_world (cs : list (option City)) (w : World) : Prop :=
  Cities (colony w) = cs ∧ wf_colony (colony w) ∧ symmetric (Pheromones (colony w)).

(** Symmetry under Go's [==]: [p[i][j] == p[j][i]] for all [i], [j]. A
    NaN is not [==] to itself, so a matrix with a NaN entry on the
    diagonal is not symmetric in this sense. *)
Definition symmetric_eq (p : list (list float)) : Prop :=
  ∀ i j x y, entry p i j = Some x → entry p j i = Some y → (x =? y)%float = true.

(** [x == y], or both are NaN. *)
Definition eq_or_nan (x y : float) : Prop :=
  (x =? y)%float = true ∨ (is_nan x = true ∧ is_nan y = true).

(** [p[i][j] == p[j][i]] or both are NaN, for all [i], [j]. *)
Definition symmetric_up_to_nan (p : list (list float)) : Prop :=
  ∀ i j x y, entry p i j = Some x → entry p j i = Some y → eq_or_nan x y.

Definition up_to_nan_world (cs : list (option City)) (w : World) : Prop :=
  Cities (colony w) = cs ∧ wf_colony (colony w)
  ∧ symmetric_up_to_nan (Pheromones (colony w)).

(** The lengths [TourLength] adds up, in tour order: [d[a][b]] for every
    two consecutive cities [a], [b]. *)
Fixpoint edges (d : list (list float)) (tour : list Z) : list float :=
  match tour with
  | fromCity :: ((toCity :: _) as rest) =>
      default 0%float (entry d (Z.to_nat fromCity) (Z.to_nat toCity)) :: edges d rest
  | _ => []
  end.

(** A computation that does not stop for lack of fuel. *)
Definition fuelled {A} (m : Go A) : Prop := ∀ w, m w ≠ OutOfFuel.

(** ** Signs of float64 values *)

(** The value has sign bit [s] and is no NaN. *)
Definition SF_signed (s : bool) (x : spec_float) : Prop :=
  match x with
  | S754_zero s' | S754_infinity s' | S754_finite s' _ _ => s' = s
  | S754_nan => False
  end.

(** [0 <= x]: zero of either sign, positive, or [+Inf]. *)
Definition nonneg (x : float) : Prop := (0 <=? x)%float = true.

Definition SF_nonneg (x : spec_float) : Prop :=
  match x with
  | S754_zero _ | S754_finite false _ _ | S754_infinity false => True
  | _ => False
  end.

(** [x] has the sign bit clear and is no NaN: [+0], positive or [+Inf]. *)
Definition sign_clear (x : float) : Prop := SF_signed false (Prim2SF x).

(** Every entry of the matrix satisfies [P]. *)
Definition all_entries (P : float → Prop) (p : list (list float)) : Prop :=
  Forall (Forall P) p.

(** What the deposit loop of [UpdatePheromones] maintains: non-negative
    pheromone entries, over non-negative distances and a positive finite
    [Q]. *)
Definition nonneg_world (w : World) : Prop :=
  all_entries nonneg (Pheromones (colony w))
  ∧ all_entries nonneg (DistanceMatrix (colony w))
  ∧ (0 <? Q (colony w))%float = true ∧ (Q (colony w) <? infinity)%float = true.

(** ** Concrete inputs *)

(** [math.Pow] on the first three special cases its documentation lists,
    [Pow(x, ±0) = 1], [Pow(1, y) = 1] and [Pow(x, 1) = x]; the evaluations
    below use the exponents 0 and 1 only, other arguments are not
    modelled. *)
Definition PowSpecial (x y : float) : float :=
  if (y =? 0)%float then 1%float
  else if (x =? 1)%float then 1%float
  else if (y =? 1)%float then x
  else nan.

(** A random source whose every integer outcome is [k] and whose every
    float outcome is [f]. *)
Definition constant_source (k : Z) (f : float) : Rand := mkRand (λ _, k) (λ _, f) 0.

Definition world_of (r : result AntColony) (g : Rand) : World :=
  match r with
  | Ok ac => mkWorld ac g
  | _ => mkWorld (mkAntColony 0 0 0 0 0 [] [] []) g
  end.

(** Two cities and one ant, with [alpha = beta = 1], [rho = 0.5] and
    [Q = 100]. *)
Definition two_cities : list (option City) := [Some (mkCity 0 0); Some (mkCity 1 1)].
Definition world2 : World :=
  world_of (NewAntColony 1 1 1 0.5 100 two_cities) (constant_source 0 0.5).

(** Four cities on a line, at -2^53, 0, 1 and 2. *)
Definition four_cities : list (option City) :=
  [Some (mkCity (-9007199254740992) 0); Some (mkCity 0 0); Some (mkCity 1 0); Some (mkCity 2 0)].
Definition world4 : World :=
  world_of (NewAntColony 1 1 1 0.5 100 four_cities) (constant_source 0 0.5).

(** The cities and parameters of [main], and a random source whose every
    start city is city 0. *)
Definition main_cities : list (option City) :=
  [Some (mkCity 0 0); Some (mkCity 1 1); Some (mkCity 2 2); Some (mkCity 3 3);
   Some (mkCity 4 4)].
Definition world_main : World :=
  world_of (NewAntColony 10 1 2 0.5 100 main_cities) (constant_source 0 0.5).

(** Two cities at the same point, and an ant that stands at city 0 and
    has city 1 left to visit. *)
Definition coincident_cities : list (option City) := [Some (mkCity 0 0); Some (mkCity 0 0)].
Definition world_coincident : World :=
  world_of (NewAntColony 1 1 1 0.5 100 coincident_cities) (constant_source 0 0.5).
Definition ant_at_0 : Ant := mkAnt [0] {[0 := true]}.

(** The cities of [main] with [rho = 1], and a random source whose every
    start city is city 0. *)
Definition world_rho1 : World :=
  world_of (NewAntColony 10 1 2 1 100 main_cities) (constant_source 0 0.5).

(** ** Ants in a consistent state *)

(** The tour has no repeat and holds city indices only, and the visited
    map marks exactly the cities of the tour. *)
Definition consistent (ac : AntColony) (ant : Ant) : Prop :=
  NoDup (Tour ant) ∧ valid_tour ac (Tour ant)
  ∧ ∀ i, visited ant i = true ↔ i ∈ Tour ant.

(** The steps of a tour: every two consecutive cities. *)
Fixpoint steps (tour : list Z) : list (Z * Z) :=
  match tour with
  | fromCity :: ((toCity :: _) as rest) => (fromCity, toCity) :: steps rest
  | _ => []
  end.

(** No ant steps between the cities [i] and [j], in either direction. *)
Definition off_tours (ants : list Ant) (i j : Z) : Prop :=
  Forall (λ ant, ¬ ((i, j) ∈ steps (Tour ant) ∨ (j, i) ∈ steps (Tour ant))) ants.

(** A result that is a value or the index panic, and nothing else. *)
Definition index_panic_or_Ok {A} (r : result A) : Prop :=
  (∃ a, r = Ok a) ∨ r = Panic "index out of range".

(** ** The program [main] *)

(** The random source after [n] further draws. *)
Definition drawn (n : nat) (g : Rand) : Rand :=
  mkRand (ints g) (floats g) (cursor g + n).

(** [copy(dst, src)]: the first [min(len(dst), len(src))] entries of
    [dst] are overwritten with those of [src]. *)
Definition copy (dst src : list Z) : list Z :=
  take (length dst) src ++ drop (length src) dst.

(** [for _, a := range l { ... }] over a loop state. *)
Fixpoint foldG {A S} (f : S → A → Go S) (l : list A) (s : S) : Go S :=
  match l with
  | [] => mret s
  | a :: l' => s' ← f s a; foldG f l' s'
  end.

(** The body of the best-tour loop of [main], on the pair
    [(bestTour, bestTourLength)]. *)
Definition best (st : list Z * float) (ant : Ant) : Go (list Z * float) :=
  tourLength ← TourLength (Tour ant);
  if (tourLength <? st.2)%float then mret (copy st.1 (Tour ant), tourLength)
  else mret st.

Section Main.

Variable Pow : float → float → float.

(** [main], from the seeded random source [g]. The result is what the two
    calls of [Println] print: the best tour and its length. *)
Definition main (g : Rand) : result (list Z * float) :=
  let cities := main_cities in
  colony ← NewAntColony 10 1 2 0.5 100 cities;
  out ← (_ ← iterations Pow 100;
         ants ← InitializeAnts;
         foldG best ants (replicate (length cities) 0, infinity)) (mkWorld colony g);
  Ok out.1.

End Main.

(** The cities of [main] as values, and the distance from city [s] to
    city 0. *)
Definition main_points : list City :=
  [mkCity 0 0; mkCity 1 1; mkCity 2 2; mkCity 3 3; mkCity 4 4].

Definition start_length (s : Z) : float :=
  Distance (default (mkCity 0 0) (main_points !! Z.to_nat s)) (mkCity 0 0).

(** ** The running sum of the roulette

    The weight sum of the loops of [NextCity] from the accumulator [cum]
    over the indices [l]: [weightSum] is this sum from 0 over all cities,
    and the cumulative weight of the second loop runs through it. *)
Definition weightFrom (Pow : float → float → float) (ac : AntColony) (ant : Ant)
    (pheromones : list float) (currentCity : Z) (cum : float) (l : list Z) : float :=
  foldl (λ sum i, if visited ant i then sum
                  else (sum + weight Pow ac pheromones currentCity i)%float) cum l.

(** ** Further concrete inputs *)

(** Three cities at the same point. *)
Definition three_coincident : list (option City) :=
  [Some (mkCity 0 0); Some (mkCity 0 0); Some (mkCity 0 0)].
Definition world_three_coincident : World :=
  world_of (NewAntColony 1 1 1 0.5 100 three_coincident) (constant_source 0 0.5).

(** [w] with a pheromone of 1 between the cities 0 and 1. *)
Definition with_trail (w : World) : World :=
  let ac := colony w in
  mkWorld (mkAntColony (NumAnts ac) (Alpha ac) (Beta ac) (Rho ac) (Q ac) (Cities ac)
             [[0; 1]; [1; 0]]%float (DistanceMatrix ac)) (rand w).

(** An ant that has drawn the sentinel [-1] after city 1. *)
Definition ant_lost : Ant := mkAnt [1; -1] (<[-1 := true]> {[1 := true]}).

(** * Properties *)

(** ** Running the monad *)

Lemma bind_Ok {A B} (m : Go A) (f : A → Go B) w b w' :
  (m ≫= f) w = Ok (b, w') ↔ ∃ a w1, m w = Ok (a, w1) ∧ f a w1 = Ok (b, w').
Proof.
  unfold mbind, Go_bind. split.
  - destruct (m w) as [[a w1]| |]; [eauto | discriminate..].
  - intros (a & w1 & -> & ?). done.
Qed.

Lemma bind_run {A B} (m : Go A) (f : A → Go B) w a w1 :
  m w = Ok (a, w1) → (m ≫= f) w = f a w1.
Proof. unfold mbind, Go_bind. by intros ->. Qed.

Lemma lift_Ok {A} (r : result A) w a w' : lift r w = Ok (a, w') ↔ r = Ok a ∧ w' = w.
Proof. destruct r; simpl; split; intros; destruct_and?; simplify_eq; done. Qed.

Lemma index_Ok {A} (l : list A) i x :
  index l i = Ok x ↔ 0 ≤ i < len l ∧ l !! Z.to_nat i = Some x.
Proof.
  unfold index, len. case_decide.
  - destruct (l !! Z.to_nat i) eqn:E.
    + split; [intros [= ->]; done | intros [_ [= ->]]; done].
    + apply lookup_ge_None in E. lia.
  - split; [done | intros [? _]; lia].
Qed.

Lemma store_Ok {A} (l l' : list A) i x :
  store l i x = Ok l' ↔ 0 ≤ i < len l ∧ l' = <[Z.to_nat i := x]> l.
Proof.
  unfold store, len. case_decide; split; try done.
  - intros [= <-]. done.
  - intros [_ ->]. done.
  - intros [? _]. lia.
Qed.

Lemma forM_Forall {A B} (f : A → Go B) (P : B → Prop) (I : World → Prop) l :
  (∀ a w b w', I w → f a w = Ok (b, w') → P b ∧ I w') →
  ∀ w bs w', I w → forM f l w = Ok (bs, w') →
    Forall P bs ∧ I w' ∧ length bs = length l.
Proof.
  intros Hf. induction l as [|a l IH]; simpl; intros w bs w' Hw Hrun.
  - injection Hrun as <- <-. auto.
  - apply bind_Ok in Hrun as (b & w1 & Hb & Hrun).
    apply bind_Ok in Hrun as (bs' & w2 & Hbs & Hrun).
    injection Hrun as <- <-.
    destruct (Hf _ _ _ _ Hw Hb) as [HP Hw1].
    destruct (IH _ _ _ Hw1 Hbs) as (? & ? & ?).
    simpl. auto.
Qed.

Lemma forM_total {A B} (f : A → Go B) (I : World → Prop) l :
  (∀ a w, I w → ∃ b w', f a w = Ok (b, w') ∧ I w') →
  ∀ w, I w → ∃ bs w', forM f l w = Ok (bs, w') ∧ I w'.
Proof.
  intros Hf. induction l as [|a l IH]; simpl; intros w Hw.
  - eexists _, _. split; [reflexivity | done].
  - destruct (Hf a w Hw) as (b & w1 & Hb & Hw1).
    destruct (IH w1 Hw1) as (bs & w2 & Hbs & Hw2).
    exists (b :: bs), w2. split; [|done].
    rewrite (bind_run _ _ _ _ _ Hb), (bind_run _ _ _ _ _ Hbs). done.
Qed.

Lemma forM_id {A} (f : A → Go A) l w :
  Forall (λ a, f a w = Ok (a, w)) l → forM f l w = Ok (l, w).
Proof.
  induction 1 as [|a l Ha _ IH]; simpl; [done|].
  rewrite (bind_run _ _ _ _ _ Ha), (bind_run _ _ _ _ _ IH). done.
Qed.

(** ** NewAntColony *)

Lemma distance_row_run (cs : list City) (ci : City) :
  distance_row (Some <$> cs) (Some ci) = Ok (map (Distance ci) cs).
Proof.
  unfold distance_row.
  enough (∀ l acc, foldR (λ row pj, ci ← deref (Some ci); cj ← deref pj; Ok (row ++ [Distance ci cj]))
            (Some <$> l) acc = Ok (acc ++ map (Distance ci) l)) as H by apply (H cs []).
  induction l as [|cj l IH]; intros acc; simpl.
  - by rewrite app_nil_r.
  - rewrite IH, <- app_assoc. done.
Qed.

Lemma NewAntColony_run numAnts alpha beta rho q (cs : list City) :
  NewAntColony numAnts alpha beta rho q (Some <$> cs) =
  Ok (mkAntColony numAnts alpha beta rho q (Some <$> cs)
        (replicate (length cs) (replicate (length cs) 0%float)) (distances cs)).
Proof.
  unfold NewAntColony.
  enough (∀ l acc, foldR (λ m pi, row ← distance_row (Some <$> cs) pi; Ok (m ++ [row]))
            (Some <$> l) acc = Ok (acc ++ map (λ ci, map (Distance ci) cs) l)) as H.
  { rewrite (H cs []). simpl. by rewrite length_fmap. }
  induction l as [|ci l IH]; intros acc; simpl.
  - by rewrite app_nil_r.
  - rewrite distance_row_run. simpl. rewrite IH, <- app_assoc. done.
Qed.

(** ** InitializeAnts *)

Lemma newAnt_run w :
  0 < len (Cities (colony w)) →
  newAnt w = Ok (started (length (Cities (colony w))) (start_of w),
                 mkWorld (colony w) (advance (rand w))).
Proof.
  intros HN. unfold newAnt, getColony, Intn, mbind, Go_bind, start_of.
  case_decide; [lia|]. simpl.
  unfold store. rewrite length_replicate. unfold len in HN.
  case_decide; [|lia]. done.
Qed.

Lemma newAnt_Ok w ant w' :
  newAnt w = Ok (ant, w') →
  0 < len (Cities (colony w)) ∧ ant = started (length (Cities (colony w))) (start_of w)
  ∧ colony w' = colony w.
Proof.
  destruct (decide (0 < len (Cities (colony w)))) as [HN|HN].
  - rewrite (newAnt_run _ HN). intros [= <- <-]. done.
  - unfold newAnt, getColony, Intn, mbind, Go_bind.
    case_decide; [discriminate | lia].
Qed.

Lemma start_of_range w : 0 < len (Cities (colony w)) → 0 ≤ start_of w < len (Cities (colony w)).
Proof. intros. unfold start_of. by apply Z.mod_pos_bound. Qed.

(** What [InitializeAnts] returns: [NumAnts] ants, each with a tour of
    [len(ac.Cities)] entries - the start city followed by zeros - and a
    visited map holding the start city alone. *)
Lemma InitializeAnts_Ok w ants w' :
  InitializeAnts w = Ok (ants, w') →
  colony w' = colony w ∧
  len ants = NumAnts (colony w) ∧
  Forall (λ ant, ∃ s, 0 ≤ s < len (Cities (colony w)) ∧
                      ant = started (length (Cities (colony w))) s) ants.
Proof.
  unfold InitializeAnts. intros H.
  apply bind_Ok in H as (ac & w1 & [= <- <-] & H).
  case_decide as Hn; [discriminate|].
  apply (forM_Forall _
           (λ ant, ∃ s, 0 ≤ s < len (Cities (colony w)) ∧
                        ant = started (length (Cities (colony w))) s)
           (λ w1, colony w1 = colony w)) in H as (HF & Hc & Hlen); [|..|done].
  - split_and!; [done| |done].
    unfold len. rewrite Hlen, length_replicate. lia.
  - intros _ w1 ant w2 Hw1 Hant.
    apply newAnt_Ok in Hant as (HN & -> & Hc). rewrite Hw1 in *.
    split; [|done]. exists (start_of w1). split; [|done].
    pose proof (start_of_range w1) as Hr. rewrite Hw1 in Hr. auto.
Qed.

Lemma InitializeAnts_total w :
  0 ≤ NumAnts (colony w) → 8 * NumAnts (colony w) ≤ maxAlloc →
  0 < len (Cities (colony w)) →
  ∃ ants w', InitializeAnts w = Ok (ants, w').
Proof.
  intros Hn Hmax HN. unfold InitializeAnts.
  rewrite (bind_run _ _ w (colony w) w) by done.
  case_decide; [lia|].
  destruct (forM_total (λ _ : unit, newAnt) (λ w1, colony w1 = colony w)
              (replicate (Z.to_nat (NumAnts (colony w))) tt)) with (w := w)
    as (ants & w' & Hrun & _); [|done|eauto].
  intros _ w1 Hw1. rewrite newAnt_run by (by rewrite Hw1).
  eexists _, _. split; [done|]. done.
Qed.

(** ** AntsMove *)

Section Moves.

Variable Pow : float → float → float.

(** A tour that already has [len(ac.Cities)] entries is left alone: the
    loop condition fails at once. *)
Lemma extend_full fuel ant w :
  len (Cities (colony w)) ≤ len (Tour ant) → extend Pow fuel ant w = Ok (ant, w).
Proof.
  intros Hlen. destruct fuel; simpl;
    rewrite (bind_run _ _ w (colony w) w) by done; case_decide; done || lia.
Qed.

Lemma started_length n s : len (Tour (started n s)) = Z.of_nat n.
Proof. unfold started, len. simpl. by rewrite length_insert, length_replicate. Qed.

(** The ants of [InitializeAnts] come back from [AntsMove] untouched, and
    no random number is drawn. *)
Lemma AntsMove_InitializeAnts w ants w1 :
  InitializeAnts w = Ok (ants, w1) → AntsMove Pow ants w1 = Ok (ants, w1).
Proof.
  intros H. apply InitializeAnts_Ok in H as (Hc & _ & Hants).
  unfold AntsMove. rewrite (bind_run _ _ w1 (colony w1) w1) by done.
  apply forM_id. eapply Forall_impl; [exact Hants|].
  intros ant (s & _ & ->). apply extend_full.
  rewrite started_length, Hc. done.
Qed.

End Moves.

Lemma started_tour n s : Tour (started (S n) s) = s :: replicate n 0.
Proof. done. Qed.

Lemma started_visited n s i : visited (started n s) i = bool_decide (i = s).
Proof.
  unfold visited, started. simpl. case_bool_decide as Hi.
  - subst. by rewrite lookup_insert_eq.
  - by rewrite lookup_insert_ne, lookup_empty.
Qed.

(** With three cities or more, the tour of an ant of [InitializeAnts] holds
    city 0 at least twice, so it has a repeat. *)
Lemma started_not_NoDup n s : (3 ≤ n)%nat → ¬ NoDup (Tour (started n s)).
Proof.
  intros Hn. destruct n as [|[|[|n]]]; [lia..|].
  rewrite started_tour. simpl. intros Hnd.
  apply NoDup_cons in Hnd as [_ Hnd]. apply NoDup_cons in Hnd as [Hnd _].
  apply Hnd. left.
Qed.

(** C2: at two cities, the ant [InitializeAnts] returns starts with a tour
    of two entries, the start city 0 followed by a zero, and not with a
    single-element tour; its visited map holds the start city alone. *)
Theorem InitializeAnts_tour_has_all_slots :
  ∃ ant w', InitializeAnts world2 = Ok ([ant], w')
            ∧ Tour ant = [0; 0] ∧ length (Tour ant) ≠ 1%nat
            ∧ Visited ant = {[0 := true]}.
Proof. eexists _, _. split; [vm_compute; reflexivity | done]. Qed.

(** C1: at two cities, after [InitializeAnts] and [AntsMove] the tour of
    the ant is [0; 0], which is no permutation of the city indices 0, 1. *)
Theorem AntsMove_tour_not_permutation :
  ∃ ant w', (InitializeAnts ≫= AntsMove PowSpecial) world2 = Ok ([ant], w')
            ∧ Tour ant = [0; 0] ∧ ¬ Tour ant ≡ₚ seqZ 0 2.
Proof.
  eexists _, _. split; [vm_compute; reflexivity|]. split; [done|].
  simpl. intros Hp.
  assert (1 ∈ [0; 0]) as Hin.
  { rewrite Hp. apply list_elem_of_In. vm_compute. auto. }
  rewrite !elem_of_cons, elem_of_nil in Hin. lia.
Qed.

(** ** NewAntColony never rejects its input *)



(** ** What the methods write *)

Lemma preserves_ret {A} (a : A) : preserves_colony (mret a : Go A).
Proof. intros w a' w' [= <- <-]. done. Qed.

Lemma preserves_bind {A B} (m : Go A) (f : A → Go B) :
  preserves_colony m → (∀ a, preserves_colony (f a)) → preserves_colony (m ≫= f).
Proof.
  intros Hm Hf w b w' H. apply bind_Ok in H as (a & w1 & H1 & H2).
  rewrite (Hf _ _ _ _ H2). eauto.
Qed.

Lemma preserves_lift {A} (r : result A) : preserves_colony (lift r).
Proof. intros w a w' H. apply lift_Ok in H as [_ ->]. done. Qed.

Lemma preserves_getColony : preserves_colony getColony.
Proof. intros w a w' [= <- <-]. done. Qed.

Lemma preserves_Intn n : preserves_colony (Intn n).
Proof. intros w a w'. unfold Intn. case_decide; [done|]. intros [= <- <-]. done. Qed.

Lemma preserves_Float64 : preserves_colony Float64.
Proof. intros w a w' [= <- <-]. done. Qed.

Lemma preserves_forM {A B} (f : A → Go B) l :
  (∀ a, preserves_colony (f a)) → preserves_colony (forM f l).
Proof.
  intros Hf. induction l as [|a l IH]; simpl.
  - apply preserves_ret.
  - apply preserves_bind; [done|]. intros b.
    apply preserves_bind; [done|]. intros bs. apply preserves_ret.
Qed.

Create HintDb frame.
#[local] Hint Resolve preserves_ret preserves_lift preserves_getColony preserves_Intn
  preserves_Float64 : frame.

Ltac frame_step :=
  first [ apply preserves_bind; [|intros ?] | apply preserves_forM; intros ?
        | solve [auto with frame] | case_decide | case_match ].

Lemma preserves_InitializeAnts : preserves_colony InitializeAnts.
Proof. unfold InitializeAnts, newAnt. repeat frame_step. Qed.

Lemma preserves_TourLength tour : preserves_colony (TourLength tour).
Proof. unfold TourLength. repeat frame_step. Qed.

Lemma preserves_NextCity Pow ant : preserves_colony (NextCity Pow ant).
Proof. unfold NextCity. repeat frame_step. Qed.

Lemma preserves_extend Pow fuel ant : preserves_colony (extend Pow fuel ant).
Proof.
  revert ant. induction fuel as [|fuel IH]; intros ant; simpl.
  - repeat frame_step.
  - apply preserves_bind; [auto with frame|]. intros ac. case_decide; [|auto with frame].
    apply preserves_bind; [apply preserves_NextCity|]. intros. apply IH.
Qed.

Lemma preserves_AntsMove Pow ants : preserves_colony (AntsMove Pow ants).
Proof.
  unfold AntsMove. apply preserves_bind; [auto with frame|]. intros ac.
  apply preserves_forM. intros ant. apply preserves_extend.
Qed.

Lemma writes_of_preserves {A} (m : Go A) : preserves_colony m → writes_pheromones_only m.
Proof. intros H w a w' Hrun. rewrite (H _ _ _ Hrun). done. Qed.

Lemma writes_bind {A B} (m : Go A) (f : A → Go B) :
  writes_pheromones_only m → (∀ a, writes_pheromones_only (f a)) →
  writes_pheromones_only (m ≫= f).
Proof.
  intros Hm Hf w b w' H. apply bind_Ok in H as (a & w1 & H1 & H2).
  specialize (Hm _ _ _ H1). specialize (Hf _ _ _ _ H2).
  destruct_and!. split_and!; congruence.
Qed.

Lemma writes_setPheromones p : writes_pheromones_only (setPheromones p).
Proof. intros w a w' [= <- <-]. done. Qed.

Lemma writes_forM {A B} (f : A → Go B) l :
  (∀ a, writes_pheromones_only (f a)) → writes_pheromones_only (forM f l).
Proof.
  intros Hf. induction l as [|a l IH]; simpl.
  - apply writes_of_preserves, preserves_ret.
  - apply writes_bind; [done|]. intros b.
    apply writes_bind; [done|]. intros bs. apply writes_of_preserves, preserves_ret.
Qed.

Lemma writes_depositAnt ant : writes_pheromones_only (depositAnt ant).
Proof.
  unfold depositAnt.
  apply writes_bind; [apply writes_of_preserves, preserves_TourLength|]. intros L.
  apply writes_bind; [apply writes_of_preserves, preserves_getColony|]. intros ac.
  apply writes_bind; [apply writes_of_preserves, preserves_lift|]. intros p.
  apply writes_setPheromones.
Qed.

Lemma writes_UpdatePheromones ants : writes_pheromones_only (UpdatePheromones ants).
Proof.
  unfold UpdatePheromones.
  apply writes_bind; [apply writes_of_preserves, preserves_getColony|]. intros ac.
  apply writes_bind; [apply writes_setPheromones|]. intros _.
  apply writes_bind; [apply writes_forM, writes_depositAnt|]. intros _.
  apply writes_of_preserves, preserves_ret.
Qed.

(** C10: [InitializeAnts], [NextCity], [AntsMove] and [TourLength] return
    with the colony exactly as they found it, the pheromone matrix
    included; [UpdatePheromones] returns with every field other than
    [Pheromones] as it found it. *)
Theorem only_UpdatePheromones_writes Pow ant ants tour :
  preserves_colony InitializeAnts
  ∧ preserves_colony (NextCity Pow ant)
  ∧ preserves_colony (AntsMove Pow ants)
  ∧ preserves_colony (TourLength tour)
  ∧ writes_pheromones_only (UpdatePheromones ants).
Proof.
  split_and!; auto using preserves_InitializeAnts, preserves_NextCity, preserves_AntsMove,
    preserves_TourLength, writes_UpdatePheromones.
Qed.

(** ** Matrices *)

Lemma forM_total_in {A B} (f : A → Go B) (I : World → Prop) l :
  Forall (λ a, ∀ w, I w → ∃ b w', f a w = Ok (b, w') ∧ I w') l →
  ∀ w, I w → ∃ bs w', forM f l w = Ok (bs, w') ∧ I w'.
Proof.
  induction 1 as [|a l Ha _ IH]; simpl; intros w Hw.
  - eexists _, _. split; [reflexivity | done].
  - destruct (Ha w Hw) as (b & w1 & Hb & Hw1).
    destruct (IH w1 Hw1) as (bs & w2 & Hbs & Hw2).
    exists (b :: bs), w2. split; [|done].
    rewrite (bind_run _ _ _ _ _ Hb), (bind_run _ _ _ _ _ Hbs). done.
Qed.

Lemma entry_is_Some n p i j : square n p → (i < n)%nat → (j < n)%nat → is_Some (entry p i j).
Proof.
  intros [Hlen Hrows] Hi Hj. unfold entry.
  destruct (lookup_lt_is_Some_2 p i) as [row Hrow]; [lia|]. rewrite Hrow. simpl.
  apply lookup_lt_is_Some_2. rewrite Forall_lookup in Hrows. by rewrite (Hrows _ _ Hrow).
Qed.

Lemma entry_evaporate rho p i j :
  entry (evaporate rho p) i j = (λ x, x * (1 - rho))%float <$> entry p i j.
Proof.
  unfold entry, evaporate. rewrite list_lookup_fmap.
  destruct (p !! i) as [row|]; simpl; [|done]. by rewrite list_lookup_fmap.
Qed.

Lemma square_evaporate n rho p : square n p → square n (evaporate rho p).
Proof.
  intros [Hlen Hrows]. unfold evaporate. split; [by rewrite length_map|].
  apply Forall_fmap. eapply Forall_impl; [done|]. intros row Hrow. simpl.
  by rewrite length_map.
Qed.

Lemma symmetric_evaporate rho p : symmetric p → symmetric (evaporate rho p).
Proof. intros Hs i j. by rewrite !entry_evaporate, Hs. Qed.

(** [p[i][j] += x] inside an N x N matrix: it succeeds, the matrix stays
    N x N, and the entry at [i], [j] alone changes. *)
Lemma add_at_square n p i j x :
  square n p → 0 ≤ i < Z.of_nat n → 0 ≤ j < Z.of_nat n →
  ∃ p', add_at p i j x = Ok p' ∧ square n p' ∧
        ∀ a b, entry p' a b =
               if decide (a = Z.to_nat i ∧ b = Z.to_nat j)
               then (λ y, y + x)%float <$> entry p a b else entry p a b.
Proof.
  intros [Hlen Hrows] Hi Hj. unfold add_at.
  destruct (lookup_lt_is_Some_2 p (Z.to_nat i)) as [row Hrow]; [lia|].
  assert (length row = n) as Hlrow by (rewrite Forall_lookup in Hrows; eauto).
  destruct (lookup_lt_is_Some_2 row (Z.to_nat j)) as [y Hy]; [lia|].
  assert (index p i = Ok row) as -> by (apply index_Ok; unfold len; split; [lia|done]).
  simpl. assert (index row j = Ok y) as -> by (apply index_Ok; unfold len; split; [lia|done]).
  simpl. unfold store. case_decide; [|lia]. simpl. case_decide; [|lia].
  eexists. split; [done|]. split.
  - split; [by rewrite length_insert|].
    apply Forall_insert; [done|]. by rewrite length_insert.
  - intros a b. unfold entry. case_decide as Hab.
    + destruct Hab as [-> ->]. rewrite list_lookup_insert_eq by lia. simpl.
      rewrite list_lookup_insert_eq by lia. by rewrite Hrow; simpl; rewrite Hy.
    + destruct (decide (a = Z.to_nat i)) as [->|Ha].
      * rewrite list_lookup_insert_eq by lia. rewrite Hrow. simpl.
        apply list_lookup_insert_ne. intros Hb. apply Hab. by rewrite Hb.
      * by rewrite list_lookup_insert_ne.
Qed.

(** The two writes of one deposit, [p[i][j] += x] and [p[j][i] += x], keep
    a symmetric matrix symmetric, also when [i = j]. *)
Lemma add_at_pair_symmetric n p i j x :
  square n p → symmetric p → 0 ≤ i < Z.of_nat n → 0 ≤ j < Z.of_nat n →
  ∃ p1 p2, add_at p i j x = Ok p1 ∧ add_at p1 j i x = Ok p2 ∧ square n p2 ∧ symmetric p2.
Proof.
  intros Hsq Hsym Hi Hj.
  destruct (add_at_square n p i j x) as (p1 & Hp1 & Hsq1 & He1); [done..|].
  destruct (add_at_square n p1 j i x) as (p2 & Hp2 & Hsq2 & He2); [done..|].
  exists p1, p2. split_and!; [done..|].
  intros a b. rewrite !He2, !He1, (Hsym a b).
  repeat case_decide; try done; exfalso; intuition congruence.
Qed.

Lemma deposit_symmetric n amount tour : ∀ p,
  square n p → symmetric p → Forall (λ c, 0 ≤ c < Z.of_nat n) tour →
  ∃ p', deposit amount p tour = Ok p' ∧ square n p' ∧ symmetric p'.
Proof.
  induction tour as [|a [|b rest] IH]; intros p Hsq Hsym Hv; simpl; [eauto..|].
  apply Forall_cons in Hv as [Ha Hv]. pose proof Hv as Hv'.
  apply Forall_cons in Hv' as [Hb _].
  destruct (add_at_pair_symmetric n p a b amount) as (p1 & p2 & -> & Hp2 & Hsq2 & Hsym2);
    [done..|].
  simpl. rewrite Hp2. simpl. by apply IH.
Qed.

Lemma tour_length_total n d tour : ∀ acc,
  square n d → Forall (λ c, 0 ≤ c < Z.of_nat n) tour → ∃ L, tour_length d tour acc = Ok L.
Proof.
  induction tour as [|a [|b rest] IH]; intros acc Hsq Hv; simpl; [eauto..|].
  apply Forall_cons in Hv as [Ha Hv]. pose proof Hv as Hv'.
  apply Forall_cons in Hv' as [Hb _].
  destruct (entry_is_Some n d (Z.to_nat a) (Z.to_nat b)) as [x Hx]; [done|lia..|].
  unfold entry in Hx. destruct (d !! Z.to_nat a) as [row|] eqn:Hrow; [|done]. simpl in Hx.
  destruct Hsq as [Hlen Hrows].
  assert (index d a = Ok row) as -> by (apply index_Ok; unfold len; split; [lia|done]).
  simpl.
  assert (index row b = Ok x) as ->.
  { apply index_Ok. split; [|done]. apply lookup_lt_Some in Hx. unfold len. lia. }
  simpl. apply IH; [done|done].
Qed.

(** ** UpdatePheromones keeps the pheromone matrix symmetric *)

Lemma depositAnt_symmetric cs ant w :
  symmetric_world cs w → Forall (λ c, 0 ≤ c < len cs) (Tour ant) →
  ∃ w', depositAnt ant w = Ok (tt, w') ∧ symmetric_world cs w'.
Proof.
  intros (Hcs & [HP HD] & Hsym) Hv. unfold len in Hv. rewrite <- Hcs in Hv.
  destruct (tour_length_total _ _ (Tour ant) 0%float HD Hv) as [L HL].
  destruct (deposit_symmetric _ (Q (colony w) / L)%float (Tour ant) _ HP Hsym Hv)
    as (p' & Hp' & Hsq' & Hsym').
  unfold depositAnt, TourLength, getColony, setPheromones, mbind, Go_bind.
  rewrite HL. simpl. rewrite Hp'. simpl.
  eexists. split; [done|]. split_and!; simpl; done.
Qed.

Lemma UpdatePheromones_symmetric_world cs ants w :
  symmetric_world cs w → Forall (λ ant, Forall (λ c, 0 ≤ c < len cs) (Tour ant)) ants →
  ∃ w', UpdatePheromones ants w = Ok (tt, w') ∧ symmetric_world cs w'.
Proof.
  intros (Hcs & [HP HD] & Hsym) Hv. unfold UpdatePheromones.
  rewrite (bind_run _ _ w (colony w) w) by done.
  set (w1 := mkWorld (mkAntColony (NumAnts (colony w)) (Alpha (colony w)) (Beta (colony w))
                        (Rho (colony w)) (Q (colony w)) (Cities (colony w))
                        (evaporate (Rho (colony w)) (Pheromones (colony w)))
                        (DistanceMatrix (colony w))) (rand w)).
  rewrite (bind_run _ _ w tt w1) by done.
  assert (symmetric_world cs w1) as Hw1.
  { split_and!; simpl; [done| |by apply symmetric_evaporate].
    split; simpl; [by apply square_evaporate | done]. }
  destruct (forM_total_in depositAnt (symmetric_world cs) ants) with (w := w1)
    as (us & w' & Hrun & Hw'); [|done|].
  - eapply Forall_impl; [exact Hv|]. intros ant Hant w2 Hw2.
    destruct (depositAnt_symmetric cs ant w2 Hw2 Hant) as (w3 & ? & ?). eauto.
  - rewrite (bind_run _ _ _ _ _ Hrun). eauto.
Qed.

Lemma square_replicate n (x : float) : square n (replicate n (replicate n x)).
Proof.
  split; [by rewrite length_replicate|].
  apply Forall_replicate. by rewrite length_replicate.
Qed.

Lemma entry_replicate n (x : float) i j :
  entry (replicate n (replicate n x)) i j =
  if decide (i < n ∧ j < n)%nat then Some x else None.
Proof.
  unfold entry. destruct (decide (i < n)%nat) as [Hi|Hi].
  - rewrite lookup_replicate_2 by done. simpl. case_decide as Hij.
    + apply lookup_replicate_2. lia.
    + apply lookup_replicate_None. lia.
  - assert (replicate n (replicate n x) !! i = None) as ->
      by (apply lookup_replicate_None; lia).
    simpl. case_decide; [lia | done].
Qed.

Lemma symmetric_replicate n (x : float) : symmetric (replicate n (replicate n x)).
Proof.
  intros i j. rewrite !entry_replicate. repeat case_decide; done || lia.
Qed.

Lemma square_distances cs : square (length cs) (distances cs).
Proof.
  unfold distances. split; [by rewrite length_map|].
  apply Forall_fmap, Forall_forall. intros ci _. simpl. by rewrite length_map.
Qed.

(** The colony [NewAntColony] builds has two N x N matrices, and its
    all-zero pheromone matrix is symmetric. *)
Lemma NewAntColony_symmetric_world numAnts alpha beta rho q (cs : list City) g :
  symmetric_world (Some <$> cs)
    (world_of (NewAntColony numAnts alpha beta rho q (Some <$> cs)) g).
Proof.
  rewrite NewAntColony_run. simpl. split_and!; simpl; [done| |].
  - split; simpl; rewrite length_fmap; [apply square_replicate | apply square_distances].
  - apply symmetric_replicate.
Qed.

(** ** float64 arithmetic

    Facts of binary64 arithmetic read off its specification [SpecFloat]. *)

Lemma SF_zero : Prim2SF 0 = S754_zero false.
Proof. reflexivity. Qed.

Lemma SF_one : Prim2SF 1 = S754_finite false 4503599627370496 (-52).
Proof. reflexivity. Qed.

Lemma SF_infinity : Prim2SF infinity = S754_infinity false.
Proof. reflexivity. Qed.

Lemma SFadd_comm x y : SF64add x y = SF64add y x.
Proof.
  destruct x as [sx|sx| |sx mx ex], y as [sy|sy| |sy my ey]; simpl;
    try destruct sx; try destruct sy; try reflexivity;
    unfold SF64add, SFadd; rewrite Z.min_comm; f_equal; apply Z.add_comm.
Qed.

Lemma float_add_comm (x y : float) : (x + y)%float = (y + x)%float.
Proof. apply Prim2SF_inj. rewrite !add_spec. apply SFadd_comm. Qed.

(** [0 + x] is [x], except that [0 + -0] is [+0]. *)
Lemma SF_zero_add x :
  Prim2SF (0 + x) = match Prim2SF x with S754_zero _ => S754_zero false | sx => sx end.
Proof. rewrite add_spec, SF_zero. destruct (Prim2SF x) as [[]|[]| |]; reflexivity. Qed.

(** An accumulator started at [0.0] cannot tell in which order it
    received its first two summands. *)
Lemma float_add_swap (x y : float) : (0 + x + y)%float = (0 + y + x)%float.
Proof.
  apply Prim2SF_inj. rewrite !(add_spec (0 + _)), !SF_zero_add.
  destruct (Prim2SF x) as [sx|sx| |sx mx ex], (Prim2SF y) as [sy|sy| |sy my ey];
    try destruct sx; try destruct sy; try reflexivity; apply SFadd_comm.
Qed.

Lemma float_eqb_zero x : (x =? 0)%float = true → ∃ s, Prim2SF x = S754_zero s.
Proof.
  rewrite FloatAxioms.eqb_spec, SF_zero. destruct (Prim2SF x) as [s|[]| |[] m e]; try discriminate.
  eauto.
Qed.

Lemma float_zero_add_zero x : (x =? 0)%float = true → (0 + x)%float = 0%float.
Proof.
  intros [s Hs]%float_eqb_zero. apply Prim2SF_inj. by rewrite SF_zero_add, Hs.
Qed.

(** A draw of [rand.Float64] times a zero sum is a zero. *)
Lemma unit_interval_mul_zero f : ∃ s, Prim2SF (unit_interval f * 0) = S754_zero s.
Proof.
  unfold unit_interval. destruct ((0 <=? f)%float && (f <? 1)%float) eqn:E.
  - apply andb_prop in E as [H0 H1]. rewrite FloatAxioms.leb_spec, SF_zero in H0.
    rewrite FloatAxioms.ltb_spec, SF_one in H1. rewrite mul_spec, SF_zero.
    destruct (Prim2SF f) as [s|[]| |[] m e]; try discriminate; simpl; eauto.
  - exists false. reflexivity.
Qed.

Lemma float_leb_zeros x y s :
  Prim2SF x = S754_zero s → y = 0%float → (x <=? y)%float = true.
Proof. intros Hx ->. by rewrite FloatAxioms.leb_spec, Hx, SF_zero. Qed.

Lemma float_pos_cases q :
  (0 <? q)%float = true →
  (∃ m e, Prim2SF q = S754_finite false m e) ∨ Prim2SF q = S754_infinity false.
Proof.
  rewrite FloatAxioms.ltb_spec, SF_zero. destruct (Prim2SF q) as [s|[]| |[] m e]; try discriminate; eauto.
Qed.

(** [q / 0] is [+Inf] for every positive [q]: there is no panic. *)
Lemma float_div_zero q : (0 <? q)%float = true → (q / 0)%float = infinity.
Proof.
  intros Hq. apply Prim2SF_inj. rewrite div_spec, SF_zero, SF_infinity.
  destruct (float_pos_cases q Hq) as [(m & e & ->)| ->]; reflexivity.
Qed.

Lemma is_finite_SF x :
  is_finite x = match Prim2SF x with S754_nan | S754_infinity _ => false | _ => true end.
Proof.
  unfold is_finite, is_nan, is_infinity. rewrite !FloatAxioms.eqb_spec, abs_spec, SF_infinity.
  destruct (Prim2SF x) as [s|s| |s m e]; try destruct s; try reflexivity;
    unfold SFeqb, SFcompare; simpl; rewrite Z.compare_refl, Pos.compare_cont_refl; reflexivity.
Qed.

(** Whatever is multiplied by an infinity is an infinity or NaN. *)
Lemma float_mul_infinity x : is_finite (x * infinity) = false.
Proof.
  rewrite is_finite_SF, mul_spec, SF_infinity. destruct (Prim2SF x) as [| | |]; reflexivity.
Qed.

(** A sum with an infinity or NaN among its summands is an infinity or
    NaN. *)
Lemma float_add_not_finite_l x y : is_finite x = false → is_finite (x + y) = false.
Proof.
  rewrite !is_finite_SF, add_spec.
  destruct (Prim2SF x) as [| | |], (Prim2SF y) as [| | |]; try discriminate;
    try reflexivity; simpl; repeat case_match; done.
Qed.

Lemma float_add_not_finite_r x y : is_finite y = false → is_finite (x + y) = false.
Proof. rewrite float_add_comm. apply float_add_not_finite_l. Qed.

(** ** TourLength of a tour and of its reverse *)

Lemma entry_index d a b x :
  0 ≤ a → 0 ≤ b → entry d (Z.to_nat a) (Z.to_nat b) = Some x →
  ∃ row, index d a = Ok row ∧ index row b = Ok x.
Proof.
  intros Ha Hb. unfold entry. destruct (d !! Z.to_nat a) as [row|] eqn:Hrow; [|done].
  simpl. intros Hx. exists row. split; apply index_Ok; (split; [|done]); unfold len.
  - apply lookup_lt_Some in Hrow. lia.
  - apply lookup_lt_Some in Hx. lia.
Qed.

Lemma tour_length_step d a b rest acc x :
  0 ≤ a → 0 ≤ b → entry d (Z.to_nat a) (Z.to_nat b) = Some x →
  tour_length d (a :: b :: rest) acc = tour_length d (b :: rest) (acc + x)%float.
Proof.
  intros Ha Hb Hx. destruct (entry_index d a b x Ha Hb Hx) as (row & Hrow & Hidx).
  simpl. rewrite Hrow. simpl. rewrite Hidx. done.
Qed.

(** [TourLength] is the left-to-right sum of the edge lengths. *)
Lemma tour_length_edges n d tour : ∀ acc,
  square n d → Forall (λ c, 0 ≤ c < Z.of_nat n) tour →
  tour_length d tour acc = Ok (foldl add acc (edges d tour)).
Proof.
  induction tour as [|a [|b rest] IH]; intros acc Hsq Hv; [done..|].
  apply Forall_cons in Hv as [Ha Hv]. pose proof Hv as Hv'.
  apply Forall_cons in Hv' as [Hb _].
  destruct (entry_is_Some n d (Z.to_nat a) (Z.to_nat b)) as [x Hx]; [done|lia..|].
  rewrite (tour_length_step d a b rest acc x) by (done || lia).
  rewrite IH by done. simpl. by rewrite Hx.
Qed.

Lemma edges_snoc d tour b a :
  edges d (tour ++ [b; a]) =
  edges d (tour ++ [b]) ++ [default 0%float (entry d (Z.to_nat b) (Z.to_nat a))].
Proof.
  induction tour as [|c [|c' tour] IH]; [done..|].
  change (edges d ((c :: c' :: tour) ++ [b; a]))
    with (default 0%float (entry d (Z.to_nat c) (Z.to_nat c')) :: edges d ((c' :: tour) ++ [b; a])).
  rewrite IH. done.
Qed.

(** Over a symmetric matrix the reversed tour has the same edge lengths,
    in the opposite order. *)
Lemma edges_reverse d tour : symmetric d → edges d (reverse tour) = reverse (edges d tour).
Proof.
  intros Hsym. induction tour as [|a [|b rest] IH]; [done..|].
  rewrite reverse_cons, (reverse_cons _ b), <- app_assoc. simpl app.
  rewrite edges_snoc, <- reverse_cons, IH.
  change (edges d (a :: b :: rest))
    with (default 0%float (entry d (Z.to_nat a) (Z.to_nat b)) :: edges d (b :: rest)).
  by rewrite (reverse_cons _ (default _ _)), Hsym.
Qed.

Lemma TourLength_run n w tour :
  square n (DistanceMatrix (colony w)) → Forall (λ c, 0 ≤ c < Z.of_nat n) tour →
  TourLength tour w = Ok (foldl add 0%float (edges (DistanceMatrix (colony w)) tour), w).
Proof.
  intros Hsq Hv. unfold TourLength. rewrite (bind_run _ _ w (colony w) w) by done.
  by rewrite (tour_length_edges n).
Qed.

(** C9, as the code has it: over a symmetric N x N distance matrix,
    [TourLength] of a tour of city indices adds the edge lengths from left
    to right and [TourLength] of its reverse adds the same lengths from
    right to left; the two float64 sums are equal when the tour has at most
    three cities. *)
Theorem TourLength_reverse w tour :
  wf_colony (colony w) → symmetric (DistanceMatrix (colony w)) →
  valid_tour (colony w) tour →
  ∃ l l', TourLength tour w = Ok (l, w) ∧ TourLength (reverse tour) w = Ok (l', w)
          ∧ l = foldl add 0%float (edges (DistanceMatrix (colony w)) tour)
          ∧ l' = foldl add 0%float (reverse (edges (DistanceMatrix (colony w)) tour))
          ∧ ((length tour ≤ 3)%nat → l' = l).
Proof.
  intros [_ HD] Hsym Hv. unfold valid_tour, len in Hv.
  eexists _, _. split; [by apply (TourLength_run _ _ _ HD)|].
  split; [by apply (TourLength_run _ _ _ HD), Forall_reverse|].
  split; [done|]. split; [by rewrite edges_reverse|].
  rewrite edges_reverse by done.
  destruct tour as [|a [|b [|c [|]]]]; simpl; intros Hlen; try done; [|lia].
  apply float_add_swap.
Qed.

(** C9 as stated fails: on the line of cities -2^53, 0, 1, 2 the tour
    0, 1, 2, 3 has length 2^53 (each added 1 is rounded away) and its
    reverse has length 2^53 + 2. *)
Lemma TourLength_reverse_differs :
  ∃ l l', TourLength [0; 1; 2; 3] world4 = Ok (l, world4)
          ∧ TourLength (reverse [0; 1; 2; 3]) world4 = Ok (l', world4)
          ∧ l = 9007199254740992%float ∧ l' = 9007199254740994%float
          ∧ (l =? l')%float = false
          ∧ symmetric (DistanceMatrix (colony world4)).
Proof.
  eexists _, _. split; [vm_compute; reflexivity|]. split; [vm_compute; reflexivity|].
  split; [done|]. split; [done|]. split; [vm_compute; reflexivity|].
  intros i j. destruct i as [|[|[|[|i]]]], j as [|[|[|[|j]]]]; vm_compute; reflexivity.
Qed.

(** ** A tour of length zero *)

(** C7, as the code has it: the division by the tour length is not
    guarded. In [depositAnt], the body of the deposit loop of
    [UpdatePheromones], when the tour length is 0 and [Q] is positive the
    amount [Q / tourLength] is [+Inf], and that is what is added at
    [from][to] and [to][from] for every consecutive pair of the tour; no
    panic occurs on the division. *)
Theorem depositAnt_zero_length w ant :
  TourLength (Tour ant) w = Ok (0%float, w) → (0 <? Q (colony w))%float = true →
  depositAnt ant w =
  (lift (deposit infinity (Pheromones (colony w)) (Tour ant)) ≫= setPheromones) w.
Proof.
  intros HL HQ. unfold depositAnt.
  rewrite (bind_run _ _ _ _ _ HL), (bind_run _ _ w (colony w) w) by done.
  by rewrite float_div_zero.
Qed.

(** C7 as stated fails: with the cities and parameters of [main], the ants
    that start at city 0 carry the tour 0, 0, 0, 0, 0 of length 0, and
    [UpdatePheromones] deposits [100 / 0 = +Inf] at [Pheromones[0][0]]. *)
Lemma UpdatePheromones_divides_by_zero :
  ∃ ants w1 w2,
    InitializeAnts world_main = Ok (ants, w1)
    ∧ Forall (λ ant, Tour ant = [0; 0; 0; 0; 0]) ants
    ∧ TourLength [0; 0; 0; 0; 0] w1 = Ok (0%float, w1)
    ∧ UpdatePheromones ants w1 = Ok (tt, w2)
    ∧ entry (Pheromones (colony w2)) 0 0 = Some infinity.
Proof.
  eexists _, _, _. split; [vm_compute; reflexivity|].
  split; [repeat constructor|]. split; [vm_compute; reflexivity|].
  split; vm_compute; reflexivity.
Qed.

(** ** NextCity on a well-formed colony *)

Section SelectionFacts.

Variable Pow : float → float → float.
Variables (ac : AntColony) (ant : Ant) (n : nat) (c : Z) (pher : list float).
Hypothesis HD : square n (DistanceMatrix ac).
Hypothesis Hc : 0 ≤ c < Z.of_nat n.
Hypothesis Hpher : length pher = n.

Lemma weigh_run heur sum i :
  length heur = n → 0 ≤ i < Z.of_nat n →
  weigh Pow ac ant c pher (heur, sum) i =
  Ok (if visited ant i then (heur, sum)
      else (<[Z.to_nat i := (1 / distance_to ac c i)%float]> heur,
            (sum + weight Pow ac pher c i)%float)).
Proof.
  intros Hheur Hi. unfold weigh. destruct (visited ant i); [done|].
  destruct (entry_is_Some n (DistanceMatrix ac) (Z.to_nat c) (Z.to_nat i)) as [d Hd];
    [done|lia..|].
  destruct (entry_index (DistanceMatrix ac) c i d) as (row & -> & Hrow); [lia..|done|].
  simpl. rewrite Hrow. simpl. unfold store. case_decide; [|lia]. simpl.
  destruct (lookup_lt_is_Some_2 pher (Z.to_nat i)) as [p Hp]; [lia|].
  assert (index pher i = Ok p) as -> by (apply index_Ok; unfold len; split; [lia|done]).
  simpl.
  assert (index (<[Z.to_nat i := (1 / d)%float]> heur) i = Ok (1 / d)%float) as ->.
  { apply index_Ok. unfold len. rewrite length_insert. split; [lia|].
    apply list_lookup_insert_eq. lia. }
  simpl. unfold weight, distance_to. by rewrite Hd, Hp.
Qed.

(** The first loop over the indices [l]: the sum it returns, and the
    heuristic entries it leaves for the unvisited cities. *)
Lemma weigh_fold l : ∀ heur sum,
  length heur = n → Forall (λ i, 0 ≤ i < Z.of_nat n) l →
  ∃ heur',
    foldR (weigh Pow ac ant c pher) l (heur, sum) =
    Ok (heur', foldl (λ s i, if visited ant i then s
                             else (s + weight Pow ac pher c i)%float) sum l)
    ∧ length heur' = n
    ∧ ∀ i, 0 ≤ i → visited ant i = false →
           i ∈ l ∨ heur !! Z.to_nat i = Some (1 / distance_to ac c i)%float →
           heur' !! Z.to_nat i = Some (1 / distance_to ac c i)%float.
Proof.
  induction l as [|a l IH]; intros heur sum Hheur Hl.
  - exists heur. split_and!; [done..|]. intros i _ _ [Hi|Hi]; [|done].
    by apply elem_of_nil in Hi.
  - apply Forall_cons in Hl as [Ha Hl].
    change (foldR (weigh Pow ac ant c pher) (a :: l) (heur, sum))
      with (weigh Pow ac ant c pher (heur, sum) a ≫= foldR (weigh Pow ac ant c pher) l).
    rewrite weigh_run by done. simpl.
    destruct (visited ant a) eqn:Hva.
    + destruct (IH heur sum Hheur Hl) as (heur' & -> & Hlen & Hh).
      exists heur'. split_and!; [done..|]. intros i Hi Hvi [Hin|Hin]; [|by auto].
      apply elem_of_cons in Hin as [->|Hin]; [congruence | by auto].
    + destruct (IH (<[Z.to_nat a := (1 / distance_to ac c a)%float]> heur)
                  (sum + weight Pow ac pher c a)%float) as (heur' & -> & Hlen & Hh);
        [by rewrite length_insert | done |].
      exists heur'. split_and!; [done..|]. intros i Hi Hvi Hin. apply Hh; [done..|].
      destruct (decide (i = a)) as [->|Hne].
      * right. apply list_lookup_insert_eq. lia.
      * destruct Hin as [Hin|Hin].
        -- apply elem_of_cons in Hin as [->|Hin]; [done | by left].
        -- right. rewrite list_lookup_insert_ne by lia. done.
Qed.

Lemma spin_run heur roulette l : ∀ cum,
  Forall (λ i, 0 ≤ i < Z.of_nat n) l →
  (∀ i, i ∈ l → visited ant i = false →
        heur !! Z.to_nat i = Some (1 / distance_to ac c i)%float) →
  spin Pow ac ant pher heur roulette l cum = Ok (pick Pow ac ant pher c roulette l cum).
Proof.
  induction l as [|a l IH]; intros cum Hl Hh; simpl; [done|].
  apply Forall_cons in Hl as [Ha Hl].
  assert (∀ i, i ∈ l → visited ant i = false →
               heur !! Z.to_nat i = Some (1 / distance_to ac c i)%float) as Hh'.
  { intros i Hi. apply Hh. by right. }
  destruct (visited ant a) eqn:Hva; [by apply IH|].
  destruct (lookup_lt_is_Some_2 pher (Z.to_nat a)) as [p Hp]; [lia|].
  assert (index pher a = Ok p) as -> by (apply index_Ok; unfold len; split; [lia|done]).
  simpl. assert (a ∈ a :: l) as Hin by left. specialize (Hh a Hin Hva).
  assert (index heur a = Ok (1 / distance_to ac c a)%float) as ->.
  { apply index_Ok. split; [|done]. apply lookup_lt_Some in Hh. unfold len. lia. }
  simpl.
  assert (weight Pow ac pher c a
          = (Pow p (Alpha ac) * Pow (1 / distance_to ac c a) (Beta ac))%float) as ->
    by (unfold weight; by rewrite Hp).
  destruct (_ <=? _)%float; [done|]. by apply IH.
Qed.

End SelectionFacts.

Lemma range_Forall {A} (l : list A) : Forall (λ i, 0 ≤ i < Z.of_nat (length l)) (range l).
Proof. apply Forall_forall. intros i Hi. unfold range, len in Hi. apply elem_of_seqZ in Hi. lia. Qed.

Lemma row_of_square n p c :
  square n p → 0 ≤ c < Z.of_nat n → ∃ row, index p c = Ok row ∧ length row = n.
Proof.
  intros [Hlen Hrows] Hc. destruct (lookup_lt_is_Some_2 p (Z.to_nat c)) as [row Hrow]; [lia|].
  exists row. split; [apply index_Ok; unfold len; split; [lia|done]|].
  rewrite Forall_lookup in Hrows. eauto.
Qed.

Lemma weighAll_run Pow ac ant c pher :
  square (length (Cities ac)) (DistanceMatrix ac) → 0 ≤ c < len (Cities ac) →
  length pher = length (Cities ac) →
  ∃ heur, weighAll Pow ac ant c pher = Ok (heur, weightSum Pow ac ant pher c)
          ∧ ∀ i, 0 ≤ i < len (Cities ac) → visited ant i = false →
                 heur !! Z.to_nat i = Some (1 / distance_to ac c i)%float.
Proof.
  intros HD Hc Hpher. unfold weighAll, weightSum.
  destruct (weigh_fold Pow ac ant _ c pher HD Hc Hpher (range (Cities ac))
              (replicate (length (Cities ac)) 0%float) 0%float)
    as (heur & Hrun & _ & Hh); [by rewrite length_replicate | apply range_Forall |].
  exists heur. split; [done|]. intros i Hi Hvi. apply Hh; [lia|done|]. left.
  unfold range. apply elem_of_seqZ. lia.
Qed.

(** What [NextCity] computes on a colony with N x N matrices, for an ant
    whose current city [c] is a city index: it draws one float and returns
    the city [pick] selects against the roulette value. *)
Lemma NextCity_run Pow w ant c :
  wf_colony (colony w) → index (Tour ant) (len (Tour ant) - 1) = Ok c →
  0 ≤ c < len (Cities (colony w)) →
  ∃ pher, index (Pheromones (colony w)) c = Ok pher ∧
    NextCity Pow ant w =
    Ok (pick Pow (colony w) ant pher c
          (unit_interval (floats (rand w) (cursor (rand w)))
           * weightSum Pow (colony w) ant pher c)
          (range (Cities (colony w))) 0%float,
        mkWorld (colony w) (advance (rand w))).
Proof.
  intros [HP HD] Hcur Hc. unfold len in Hc.
  destruct (row_of_square _ _ c HP Hc) as (pher & Hrow & Hpher).
  exists pher. split; [done|].
  destruct (weighAll_run Pow (colony w) ant c pher HD Hc Hpher) as (heur & Hsum & Hh).
  unfold NextCity. rewrite (bind_run _ _ w (colony w) w) by done.
  rewrite Hcur. simpl. rewrite (bind_run _ _ w c w) by done.
  rewrite Hrow. rewrite (bind_run _ _ w pher w) by done.
  rewrite Hsum. rewrite (bind_run _ _ w (heur, weightSum Pow (colony w) ant pher c) w) by done.
  simpl. unfold mbind, Go_bind, Float64. simpl.
  rewrite (spin_run Pow (colony w) ant (length (Cities (colony w))) c pher Hpher).
  - done.
  - apply range_Forall.
  - intros i Hi Hvi. apply Hh; [|done]. unfold range in Hi. apply elem_of_seqZ in Hi.
    unfold len in *. lia.
Qed.

(** ** NextCity when every weight is zero *)

Lemma split_first (P : Z → bool) l :
  (∃ i, i ∈ l ∧ P i = false) →
  ∃ l1 i l2, l = l1 ++ i :: l2 ∧ Forall (λ j, P j = true) l1 ∧ P i = false.
Proof.
  induction l as [|a l IH]; intros (i & Hi & HP).
  - by apply elem_of_nil in Hi.
  - destruct (P a) eqn:Ha.
    + destruct IH as (l1 & i' & l2 & -> & Hl1 & Hi').
      { apply elem_of_cons in Hi as [->|Hi]; [congruence | eauto]. }
      exists (a :: l1), i', l2. split_and!; [done| |done]. by constructor.
    + exists [], a, l. split_and!; [done| constructor |done].
Qed.

(** When a city is unvisited there is a least such city. *)
Lemma first_unvisited_exists ac ant :
  (∃ i, 0 ≤ i < len (Cities ac) ∧ visited ant i = false) →
  ∃ l1 i l2, range (Cities ac) = l1 ++ i :: l2
             ∧ Forall (λ j, visited ant j = true) l1 ∧ first_unvisited ac ant i.
Proof.
  intros (i0 & Hi0 & Hv0).
  destruct (split_first (visited ant) (range (Cities ac))) as (l1 & i & l2 & Hl & Hl1 & Hi).
  { exists i0. split; [|done]. unfold range. apply elem_of_seqZ. lia. }
  exists l1, i, l2. split_and!; [done..|].
  assert (i = Z.of_nat (length l1) ∧ 0 ≤ i < len (Cities ac)) as [Hlen Hr].
  { assert (range (Cities ac) !! length l1 = Some i) as Hlook
      by (rewrite Hl; apply list_lookup_middle; done).
    unfold range in Hlook. apply lookup_seqZ in Hlook. lia. }
  split_and!; [lia..|done|]. intros j Hj.
  assert (range (Cities ac) !! Z.to_nat j = Some j) as Hlook.
  { unfold range. apply lookup_seqZ. lia. }
  rewrite Hl, lookup_app_l in Hlook by lia.
  rewrite Forall_lookup in Hl1. eauto.
Qed.

Section ZeroWeights.

Variable Pow : float → float → float.
Variables (ac : AntColony) (ant : Ant) (c : Z) (pher : list float).

Hypothesis Hzero : ∀ i, 0 ≤ i < len (Cities ac) → visited ant i = false →
  (weight Pow ac pher c i =? 0)%float = true.

Lemma weightSum_zero : weightSum Pow ac ant pher c = 0%float.
Proof.
  unfold weightSum. pose proof (range_Forall (Cities ac)) as Hl.
  induction (range (Cities ac)) as [|a l IH]; [done|].
  apply Forall_cons in Hl as [Ha Hl]. simpl.
  destruct (visited ant a) eqn:Hva; [by apply IH|].
  rewrite float_zero_add_zero by (by apply Hzero). by apply IH.
Qed.

(** With a zero roulette value and a zero cumulative weight, the second
    loop returns at the first unvisited city it meets. *)
Lemma pick_zero roulette s l1 i l2 :
  Prim2SF roulette = S754_zero s → Forall (λ j, visited ant j = true) l1 →
  0 ≤ i < len (Cities ac) → visited ant i = false →
  pick Pow ac ant pher c roulette (l1 ++ i :: l2) 0%float = i.
Proof.
  intros Hr Hl1 Hi Hvi. induction Hl1 as [|a l1 Ha _ IH]; simpl.
  - rewrite Hvi, float_zero_add_zero by (by apply Hzero).
    by rewrite (float_leb_zeros roulette 0%float s).
  - by rewrite Ha.
Qed.

End ZeroWeights.

(** C3: on a colony with N x N matrices, for an ant whose tour is not
    empty, whose current city is a city index and that has a city left to
    visit, if the weight of every unvisited city is zero then [NextCity]
    returns the least unvisited city index, whatever the random draw: the
    weight sum and the roulette value are zero, and the first cumulative
    weight, zero, already reaches it. The sentinel -1 is not returned. *)
Theorem NextCity_zero_weights Pow w ant c pher :
  wf_colony (colony w) →
  index (Tour ant) (len (Tour ant) - 1) = Ok c →
  0 ≤ c < len (Cities (colony w)) →
  index (Pheromones (colony w)) c = Ok pher →
  (∃ i, 0 ≤ i < len (Cities (colony w)) ∧ visited ant i = false) →
  (∀ i, 0 ≤ i < len (Cities (colony w)) → visited ant i = false →
        (weight Pow (colony w) pher c i =? 0)%float = true) →
  ∃ i, NextCity Pow ant w = Ok (i, mkWorld (colony w) (advance (rand w)))
       ∧ first_unvisited (colony w) ant i.
Proof.
  intros Hwf Hcur Hc Hpher Hleft Hzero.
  destruct (NextCity_run Pow w ant c Hwf Hcur Hc) as (pher' & Hpher' & ->).
  assert (pher' = pher) as -> by congruence.
  destruct (first_unvisited_exists (colony w) ant Hleft) as (l1 & i & l2 & -> & Hl1 & Hi).
  exists i. split; [|done]. rewrite weightSum_zero by done.
  destruct (unit_interval_mul_zero (floats (rand w) (cursor (rand w)))) as [s Hs].
  destruct Hi as (Hi & Hvi & _).
  by rewrite (pick_zero Pow (colony w) ant c pher Hzero _ s).
Qed.

(** ** NextCity and a candidate at distance zero *)

Lemma weightSum_not_finite Pow ac ant pher c i :
  0 ≤ i < len (Cities ac) → visited ant i = false →
  is_finite (weight Pow ac pher c i) = false →
  is_finite (weightSum Pow ac ant pher c) = false.
Proof.
  intros Hi Hvi Hw. unfold weightSum.
  assert (i ∈ range (Cities ac)) as Hin by (unfold range; apply elem_of_seqZ; lia).
  cut (∀ l s, i ∈ l ∨ is_finite s = false →
         is_finite (foldl (λ sum i, if visited ant i then sum
                                    else (sum + weight Pow ac pher c i)%float) s l) = false).
  { intros H. apply H. by left. }
  clear Hin. induction l as [|a l IH]; intros s [Hin|Hs]; simpl.
  - by apply elem_of_nil in Hin.
  - done.
  - apply IH. apply elem_of_cons in Hin as [<-|Hin]; [|by left]. right.
    rewrite Hvi. by apply float_add_not_finite_r.
  - apply IH. right. destruct (visited ant a); [done|]. by apply float_add_not_finite_l.
Qed.

(** C8, as the code has it: the division [1 / distance] is not guarded.
    On a colony with N x N matrices, when an unvisited city [i] lies at
    distance exactly 0 from the current city and [Pow(+Inf, Beta)] is
    [+Inf] (as it is for [Beta > 0]), the heuristic term of [i] is [+Inf]
    and the weight sum the first loop of [NextCity] computes is an infinity
    or NaN. *)
Theorem weighAll_coincident Pow ac ant c pher i :
  wf_colony ac → 0 ≤ c < len (Cities ac) → index (Pheromones ac) c = Ok pher →
  0 ≤ i < len (Cities ac) → visited ant i = false →
  entry (DistanceMatrix ac) (Z.to_nat c) (Z.to_nat i) = Some 0%float →
  Pow infinity (Beta ac) = infinity →
  ∃ heur sum, weighAll Pow ac ant c pher = Ok (heur, sum)
              ∧ heur !! Z.to_nat i = Some infinity ∧ is_finite sum = false.
Proof.
  intros [HP HD] Hc Hrow Hi Hvi Hd HPow. unfold len in Hc.
  destruct (row_of_square _ _ c HP Hc) as (pher' & Hrow' & Hpher).
  assert (pher' = pher) as -> by congruence.
  destruct (weighAll_run Pow ac ant c pher HD Hc Hpher) as (heur & Hsum & Hh).
  assert ((1 / distance_to ac c i)%float = infinity) as Hinf
    by (unfold distance_to; rewrite Hd; reflexivity).
  exists heur, (weightSum Pow ac ant pher c). split_and!; [done| |].
  - rewrite <- Hinf. by apply Hh.
  - apply (weightSum_not_finite Pow ac ant pher c i Hi Hvi).
    unfold weight. rewrite Hinf, HPow. apply float_mul_infinity.
Qed.

(** C8 as stated fails: for two cities at the same point, zero pheromone
    and [alpha = beta = 1], the heuristic term of the unvisited city is
    [1 / 0 = +Inf], its weight [0 * +Inf] and the weight sum are NaN, and
    [NextCity] returns -1. *)
Lemma NextCity_coincident_nan :
  weighAll PowSpecial (colony world_coincident) ant_at_0 0 [0%float; 0%float]
    = Ok ([0%float; infinity], nan)
  ∧ is_finite nan = false
  ∧ ∃ w', NextCity PowSpecial ant_at_0 world_coincident = Ok (-1, w').
Proof.
  split; [vm_compute; reflexivity|]. split; [reflexivity|].
  eexists. vm_compute. reflexivity.
Qed.

(** ** Rounding in [SpecFloat]

    The sign, and for positive in-range inputs the finiteness, of what
    [binary_round_aux] returns for binary64. *)

Lemma digits2_size p : digits2_pos p = Pos.size p.
Proof. induction p; simpl; congruence. Qed.

Lemma digits2_bounds p :
  2 ^ (Z.pos (digits2_pos p) - 1) ≤ Z.pos p < 2 ^ Z.pos (digits2_pos p).
Proof.
  rewrite digits2_size. split.
  - pose proof (Pos.size_le p) as H. apply Pos2Z.pos_le_pos in H.
    rewrite Pos2Z.inj_pow, (Pos2Z.inj_xO p) in H.
    replace (Z.pos (Pos.size p)) with (Z.succ (Z.pos (Pos.size p) - 1)) in H by lia.
    rewrite Z.pow_succ_r in H by lia. lia.
  - pose proof (Pos.size_gt p) as H. apply Pos2Z.pos_lt_pos in H.
    by rewrite Pos2Z.inj_pow in H.
Qed.

Lemma Zdigits2_bounds m : 0 < m → 2 ^ (Zdigits2 m - 1) ≤ m < 2 ^ Zdigits2 m ∧ 1 ≤ Zdigits2 m.
Proof. destruct m as [|p|p]; try lia. intros _. pose proof (digits2_bounds p). simpl. lia. Qed.

Lemma Zdigits2_le m k : 0 < m → m < 2 ^ k → 0 ≤ k → Zdigits2 m ≤ k.
Proof.
  intros Hm Hk Hk0. destruct (Zdigits2_bounds m Hm) as [[Hlo _] Hd].
  destruct (decide (Zdigits2 m ≤ k)) as [|Hgt]; [done|].
  assert (2 ^ k ≤ 2 ^ (Zdigits2 m - 1)) by (apply Z.pow_le_mono_r; lia). lia.
Qed.

Lemma shr_1_m mrs : 0 ≤ shr_m mrs → shr_m (shr_1 mrs) = Z.div2 (shr_m mrs).
Proof. destruct mrs as [[|[p|p|]|p] r s]; simpl; done || lia. Qed.

Lemma iter_shr_1_m p : ∀ mrs,
  0 ≤ shr_m mrs → shr_m (SpecFloat.iter_pos shr_1 p mrs) = Z.div (shr_m mrs) (2 ^ Z.pos p).
Proof.
  assert (∀ mrs, 0 ≤ shr_m mrs → 0 ≤ shr_m (shr_1 mrs)) as Hnn.
  { intros mrs H. rewrite shr_1_m, Z.div2_div by done. apply Z.div_pos; lia. }
  induction p as [p IH|p IH|]; intros mrs Hm; simpl.
  - assert (0 < 2 ^ Z.pos p) as Hp by (apply Z.pow_pos_nonneg; lia).
    rewrite IH.
    + rewrite IH, shr_1_m, Z.div2_div by auto.
      replace (Z.pos p~1) with (1 + Z.pos p + Z.pos p) by lia.
      rewrite !Z.pow_add_r, Z.pow_1_r by lia.
      rewrite !Z.div_div by lia. f_equal. lia.
    + rewrite IH by auto. apply Z.div_pos; [auto | lia].
  - assert (0 < 2 ^ Z.pos p) as Hp by (apply Z.pow_pos_nonneg; lia).
    rewrite IH.
    + rewrite IH by done.
      replace (Z.pos p~0) with (Z.pos p + Z.pos p) by lia.
      rewrite Z.pow_add_r by lia. rewrite Z.div_div by lia. done.
    + rewrite IH by done. apply Z.div_pos; [done | lia].
  - rewrite shr_1_m, Z.div2_div by done. done.
Qed.

Lemma shr_record_of_loc_m m l : shr_m (shr_record_of_loc m l) = m.
Proof. destruct l as [|[]]; done. Qed.

Lemma round_nearest_even_bounds m l : m ≤ round_nearest_even m l ≤ m + 1.
Proof. destruct l as [|[]]; simpl; try destruct (Z.even m); lia. Qed.

(** [shr_fexp] shifts the mantissa right by [fexp (digits + e) - e]
    places when that is positive, and leaves it alone otherwise. *)
Lemma shr_fexp_m m e l :
  0 ≤ m →
  let n := fexp prec emax (Zdigits2 m + e) - e in
  shr_m (shr_fexp prec emax m e l).1 = (if decide (0 < n) then Z.div m (2 ^ n) else m)
  ∧ (shr_fexp prec emax m e l).2 = (if decide (0 < n) then e + n else e).
Proof.
  intros Hm n. unfold shr_fexp, shr. fold n. destruct n as [|p|p] eqn:Hn; simpl.
  - by rewrite shr_record_of_loc_m.
  - rewrite iter_shr_1_m, shr_record_of_loc_m by (by rewrite shr_record_of_loc_m). done.
  - by rewrite shr_record_of_loc_m.
Qed.

(** Rounding a non-negative mantissa yields a zero, a finite number or an
    infinity of the sign given, and no NaN. *)
Lemma binary_round_aux_signed sx mx ex lx :
  0 ≤ mx → SF_signed sx (binary_round_aux prec emax sx mx ex lx).
Proof.
  intros Hmx. unfold binary_round_aux.
  destruct (shr_fexp_m mx ex lx Hmx) as [Hm1 _].
  destruct (shr_fexp prec emax mx ex lx) as [mrs1 e1]. simpl in Hm1.
  set (m2 := round_nearest_even (shr_m mrs1) (loc_of_shr_record mrs1)).
  assert (0 ≤ shr_m mrs1) as Hm1'.
  { rewrite Hm1. case_decide; [|done]. apply Z.div_pos; [done|]. apply Z.pow_pos_nonneg; lia. }
  assert (0 ≤ m2) as Hm2.
  { pose proof (round_nearest_even_bounds (shr_m mrs1) (loc_of_shr_record mrs1)). lia. }
  destruct (shr_fexp_m m2 e1 loc_Exact Hm2) as [Hm3 _].
  destruct (shr_fexp prec emax m2 e1 loc_Exact) as [mrs3 e3]. simpl in Hm3.
  assert (0 ≤ shr_m mrs3) as Hm3'.
  { rewrite Hm3. case_decide; [|done]. apply Z.div_pos; [done|]. apply Z.pow_pos_nonneg; lia. }
  destruct (shr_m mrs3); [done| |lia]. by destruct (_ <=? _).
Qed.

(** Rounding a positive mantissa at an exponent in range yields a finite
    number other than zero. *)
Lemma binary_round_aux_finite sx mx ex lx :
  0 < mx → -1074 ≤ ex ≤ 970 → Zdigits2 mx + ex ≤ 1023 →
  ∃ m e, binary_round_aux prec emax sx mx ex lx = S754_finite sx m e.
Proof.
  intros Hmx Hex Hd. unfold binary_round_aux.
  destruct (Zdigits2_bounds mx Hmx) as [[Hlo Hhi] Hd1].
  destruct (shr_fexp_m mx ex lx) as [Hm1 He1]; [lia|].
  destruct (shr_fexp prec emax mx ex lx) as [mrs1 e1]. simpl in Hm1, He1.
  set (m2 := round_nearest_even (shr_m mrs1) (loc_of_shr_record mrs1)).
  pose proof (round_nearest_even_bounds (shr_m mrs1) (loc_of_shr_record mrs1)) as Hrne.
  fold m2 in Hrne.
  assert (0 < shr_m mrs1 < 2 ^ 53 ∧ -1074 ≤ e1 ≤ 970) as [Hm1' He1'].
  { unfold fexp, SpecFloat.emin, prec, emax in *. case_decide as Hn.
    - assert (Z.max (Zdigits2 mx + ex - 53) (3 - 1024 - 53) - ex = Zdigits2 mx - 53) as Hn'
        by lia.
      rewrite Hn' in *. subst e1. split; [|lia]. rewrite Hm1.
      assert (2 ^ Zdigits2 mx = 2 ^ 53 * 2 ^ (Zdigits2 mx - 53)) as Hsplit.
      { rewrite <- Z.pow_add_r by lia. f_equal. lia. }
      assert (2 ^ (Zdigits2 mx - 1) = 2 ^ 52 * 2 ^ (Zdigits2 mx - 53)) as Hsplit'.
      { rewrite <- Z.pow_add_r by lia. f_equal. lia. }
      assert (0 < 2 ^ (Zdigits2 mx - 53)) as Hpos by (apply Z.pow_pos_nonneg; lia).
      split.
      + apply Z.div_str_pos. split; [done|].
        assert (1 * 2 ^ (Zdigits2 mx - 53) ≤ 2 ^ 52 * 2 ^ (Zdigits2 mx - 53)); [|lia].
        apply Z.mul_le_mono_nonneg_r; lia.
      + apply Z.div_lt_upper_bound; [done|]. lia.
    - subst e1. rewrite Hm1. split; [|lia]. split; [done|].
      assert (2 ^ Zdigits2 mx ≤ 2 ^ 53); [|lia]. apply Z.pow_le_mono_r; lia. }
  assert (0 < m2 ≤ 2 ^ 53) as Hm2 by lia.
  destruct (shr_fexp_m m2 e1 loc_Exact) as [Hm3 He3]; [lia|].
  destruct (shr_fexp prec emax m2 e1 loc_Exact) as [mrs3 e3]. simpl in Hm3, He3.
  assert (Zdigits2 m2 ≤ 54) as Hd2 by (apply Zdigits2_le; lia).
  assert (0 < shr_m mrs3 ∧ e3 ≤ 971) as [Hm3' He3'].
  { unfold fexp, SpecFloat.emin, prec, emax in *. case_decide as Hn.
    - assert (Z.max (Zdigits2 m2 + e1 - 53) (3 - 1024 - 53) - e1 = 1) as Hn' by lia.
      rewrite Hn' in *. subst e3. split; [|lia]. rewrite Hm3.
      assert (54 ≤ Zdigits2 m2) as Hd2' by lia.
      assert (2 ^ 53 ≤ m2) as Hm2'.
      { destruct (Zdigits2_bounds m2) as [[Hlo2 _] _]; [lia|].
        assert (2 ^ 53 ≤ 2 ^ (Zdigits2 m2 - 1)); [|lia]. apply Z.pow_le_mono_r; lia. }
      apply Z.div_str_pos. lia.
    - subst e3. rewrite Hm3. lia. }
  destruct (shr_m mrs3) as [|m3|m3]; [lia| |lia].
  unfold prec, emax. destruct (Z.leb_spec e3 (1024 - 53)); [eauto|lia].
Qed.

Lemma iter_xO q d : Z.pos (Pos.iter xO q d) = Z.pos q * 2 ^ Z.pos d.
Proof.
  rewrite <- Z.shiftl_mul_pow2 by lia. simpl.
  apply (Pos.iter_swap_gen _ _ Z.pos xO (Z.mul 2)). done.
Qed.

(** [binary_round] first aligns the mantissa to the target exponent, so
    for a positive mantissa and an exponent in range the result is finite
    and not zero. *)
Lemma binary_round_finite s q e :
  -1074 ≤ e ≤ 970 → Z.pos (digits2_pos q) + e ≤ 1023 →
  ∃ m' e', binary_round prec emax s q e = S754_finite s m' e'.
Proof.
  intros He Hd. unfold binary_round, shl_align.
  set (e1 := fexp prec emax (Z.pos (digits2_pos q) + e)).
  assert (-1074 ≤ e1) as He1 by (unfold e1, fexp, SpecFloat.emin, prec, emax; lia).
  destruct (e1 - e) as [|d|d] eqn:Hsub.
  - apply binary_round_aux_finite; simpl; lia.
  - apply binary_round_aux_finite; simpl; lia.
  - apply binary_round_aux_finite; [lia|lia|].
    assert (Zdigits2 (Z.pos (Pos.iter xO q d)) ≤ Z.pos (digits2_pos q) + Z.pos d); [|lia].
    apply Zdigits2_le; [lia| |lia]. rewrite iter_xO, Z.pow_add_r by lia.
    pose proof (digits2_bounds q) as [_ Hq].
    apply Z.mul_lt_mono_pos_r; [apply Z.pow_pos_nonneg; lia | done].
Qed.

Lemma nonneg_SF x : nonneg x ↔ SF_nonneg (Prim2SF x).
Proof.
  unfold nonneg. rewrite FloatAxioms.leb_spec, SF_zero.
  destruct (Prim2SF x) as [s|[]| |[] m e]; simpl; split; done.
Qed.

Lemma SF_signed_nonneg x : SF_signed false x → SF_nonneg x.
Proof. destruct x as [s|s| |s m e]; simpl; intros; subst; done. Qed.

Lemma sign_clear_nonneg x : sign_clear x → nonneg x.
Proof. intros H. by apply nonneg_SF, SF_signed_nonneg. Qed.

(** [0 < q < +Inf]: a positive finite number. *)
Lemma float_pos_finite q :
  (0 <? q)%float = true → (q <? infinity)%float = true →
  ∃ m e, Prim2SF q = S754_finite false m e.
Proof.
  rewrite !FloatAxioms.ltb_spec, SF_zero, SF_infinity.
  destruct (Prim2SF q) as [s|[]| |[] m e]; try discriminate; eauto.
Qed.

(** A non-negative number times a positive finite number is non-negative. *)
Lemma float_mul_nonneg x f :
  nonneg x → (∃ m e, Prim2SF f = S754_finite false m e) → nonneg (x * f).
Proof.
  rewrite !nonneg_SF, mul_spec. intros Hx (m & e & ->).
  destruct (Prim2SF x) as [s|[]| |[] mx ex]; try done. simpl.
  by apply SF_signed_nonneg, binary_round_aux_signed.
Qed.

(** A non-negative finite number times zero is zero. *)
Lemma float_mul_zero x : nonneg x → is_finite x = true → nonneg (x * 0).
Proof.
  rewrite !nonneg_SF, is_finite_SF, mul_spec, SF_zero.
  destruct (Prim2SF x) as [s|[]| |[] mx ex]; done.
Qed.

Lemma binary_round_signed s q e : SF_signed s (binary_round prec emax s q e).
Proof.
  unfold binary_round. destruct (shl_align q e _) as [mz ez].
  by apply binary_round_aux_signed.
Qed.

Lemma SFadd_signed x y :
  SF_signed false x → SF_signed false y → SF_signed false (SF64add x y).
Proof.
  destruct x as [sx|sx| |sx mx ex], y as [sy|sy| |sy my ey]; simpl;
    intros; subst; try done.
  unfold SF64add, SFadd, binary_normalize, cond_Zopp.
  simpl Z.add. apply binary_round_signed.
Qed.

(** The sum of two non-negative numbers is non-negative. *)
Lemma float_add_nonneg x y : nonneg x → nonneg y → nonneg (x + y).
Proof.
  rewrite !nonneg_SF, add_spec.
  destruct (Prim2SF x) as [sx|[]| |[] mx ex] eqn:Hx, (Prim2SF y) as [sy|[]| |[] my ey] eqn:Hy;
    try done; intros _ _.
  - by destruct sx, sy.
  - by apply SF_signed_nonneg, SFadd_signed.
Qed.

(** An accumulator with the sign bit clear keeps it clear when a
    non-negative number is added: the tour length is never [-0]. *)
Lemma float_add_sign_clear x y : sign_clear x → nonneg y → sign_clear (x + y).
Proof.
  unfold sign_clear. rewrite nonneg_SF, add_spec.
  destruct (Prim2SF x) as [sx|sx| |sx mx ex] eqn:Hx, (Prim2SF y) as [sy|[]| |[] my ey] eqn:Hy;
    simpl; try done; intros -> _; try done.
  - by destruct sy.
  - by apply (SFadd_signed (S754_finite false mx ex) (S754_finite false my ey)).
Qed.

(** A positive finite number divided by [+0], a positive number or [+Inf]
    is non-negative. *)
Lemma float_div_nonneg q l :
  (∃ m e, Prim2SF q = S754_finite false m e) → sign_clear l → nonneg (q / l).
Proof.
  unfold sign_clear. rewrite nonneg_SF, div_spec. intros (m & e & ->).
  destruct (Prim2SF l) as [sl|sl| |sl ml el]; simpl; try done; intros ->; try done.
  unfold SFdiv_core_binary.
  set (m' := match _ - _ - _ with Z0 => Z.pos m | Z.pos _ => Z.shiftl (Z.pos m) _ | Z.neg _ => 0 end).
  assert (0 ≤ m') as Hm'.
  { unfold m'. destruct (_ - _ - _); [lia| |lia]. apply Z.shiftl_nonneg. lia. }
  pose proof (Z_div_mod m' (Z.pos ml)) as Hdiv.
  destruct (Z.div_eucl m' (Z.pos ml)) as [q' r']. destruct Hdiv as [Hq Hr]; [lia|].
  apply SF_signed_nonneg, binary_round_aux_signed. nia.
Qed.

(** For [0 <= rho < 1] the evaporation factor [1 - rho] is a positive
    finite number: the subtraction neither cancels to zero nor rounds to
    it. *)
Lemma float_one_sub rho :
  (0 <=? rho)%float = true → (rho <? 1)%float = true →
  ∃ m e, Prim2SF (1 - rho) = S754_finite false m e.
Proof.
  rewrite FloatAxioms.leb_spec, FloatAxioms.ltb_spec, SF_zero, sub_spec, SF_one.
  pose proof (Prim2SF_valid rho) as Hv.
  destruct (Prim2SF rho) as [s|[]| |[] m e]; try discriminate; intros _ Hlt.
  { simpl. eauto. }
  unfold SFltb, SFcompare in Hlt. simpl in Hv.
  unfold bounded, canonical_mantissa in Hv. apply andb_prop in Hv as [Hcan _].
  apply Z.eqb_eq in Hcan. unfold fexp, SpecFloat.emin, prec, emax in Hcan.
  pose proof (digits2_bounds m) as [Hlo Hhi].
  assert (Z.pos m < 2 ^ 53) as Hm.
  { assert (2 ^ Z.pos (digits2_pos m) ≤ 2 ^ 53); [|lia]. apply Z.pow_le_mono_r; lia. }
  assert (e < -52) as He.
  { destruct (Z.compare_spec e (-52)) as [Heq|Hl|Hg]; [|done|discriminate].
    subst e. exfalso.
    assert (Z.pos (digits2_pos m) = 53) as Hd by lia. rewrite Hd in Hlo.
    rewrite Pos.compare_cont_spec in Hlt. simpl in Hlt.
    destruct (Pos.compare_spec m 4503599627370496) as [Heq|Hl|Hg]; try discriminate.
    apply Pos2Z.pos_lt_pos in Hl. change (2 ^ (53 - 1)) with 4503599627370496 in Hlo. lia. }
  unfold SF64sub, SFsub. cbv zeta. rewrite Z.min_r by lia.
  assert (shl_align m e e = (m, e)) as -> by (unfold shl_align; by rewrite Z.sub_diag).
  assert (∃ d, shl_align 4503599627370496 (-52) e = (Pos.iter xO 4503599627370496%positive d, e)
               ∧ Z.pos d = -52 - e) as (d & -> & Hd).
  { unfold shl_align. destruct (e - -52) as [|d|d] eqn:Hsub; [lia..|]. exists d. split; [done|lia]. }
  simpl fst. unfold cond_Zopp. rewrite iter_xO.
  assert (2 ≤ 2 ^ Z.pos d) as Hpow.
  { change 2 with (2 ^ 1) at 1. apply Z.pow_le_mono_r; lia. }
  change (Z.pos 4503599627370496) with (2 ^ 52) in *.
  destruct (2 ^ 52 * 2 ^ Z.pos d - Z.pos m) as [|q|q] eqn:Hq; [nia| |nia].
  unfold binary_normalize. apply binary_round_finite; [lia|].
  assert (Zdigits2 (Z.pos q) ≤ 52 + Z.pos d) as Hdq; [|simpl in Hdq; lia].
  apply Zdigits2_le; [lia| |lia]. rewrite Z.pow_add_r by lia. lia.
Qed.

(** ** UpdatePheromones and the sign of the pheromone entries *)

Lemma float_le_one_cases rho :
  (0 <=? rho)%float = true → (rho <=? 1)%float = true →
  (rho <? 1)%float = true ∨ rho = 1%float.
Proof.
  rewrite !FloatAxioms.leb_spec, FloatAxioms.ltb_spec, SF_zero, SF_one.
  intros H0 H1. destruct (SFltb (Prim2SF rho) _) eqn:Hlt; [by left|right].
  apply Prim2SF_inj. rewrite SF_one.
  destruct (Prim2SF rho) as [s|[]| |[] m e]; try discriminate.
  unfold SFleb, SFltb, SFcompare in *.
  destruct (Z.compare_spec e (-52)) as [->|?|?]; try discriminate.
  rewrite Pos.compare_cont_spec in *. simpl in *.
  destruct (Pos.compare_spec m 4503599627370496) as [->|?|?]; done.
Qed.

Lemma evaporate_nonneg rho p :
  (0 <=? rho)%float = true → (rho <=? 1)%float = true →
  (rho <? 1)%float = true ∨ all_entries (λ x, is_finite x = true) p →
  all_entries nonneg p → all_entries nonneg (evaporate rho p).
Proof.
  intros H0 H1 Hinf Hp. unfold all_entries, evaporate in *.
  apply Forall_fmap, Forall_forall. intros row Hrow. simpl.
  apply Forall_fmap, Forall_forall. intros x Hx. simpl.
  assert (nonneg x) as Hnx.
  { rewrite Forall_forall in Hp. specialize (Hp row Hrow). rewrite Forall_forall in Hp. auto. }
  destruct (float_le_one_cases rho H0 H1) as [Hlt| ->].
  - apply float_mul_nonneg; [done|]. by apply float_one_sub.
  - destruct Hinf as [Hlt|Hfin]; [apply float_mul_nonneg; [done|]; by apply float_one_sub|].
    change (1 - 1)%float with 0%float. apply float_mul_zero; [done|].
    rewrite Forall_forall in Hfin. specialize (Hfin row Hrow).
    rewrite Forall_forall in Hfin. auto.
Qed.

Lemma add_at_nonneg p i j x p' :
  add_at p i j x = Ok p' → all_entries nonneg p → nonneg x → all_entries nonneg p'.
Proof.
  unfold add_at, all_entries. intros H Hp Hx.
  destruct (index p i) as [row| |] eqn:Hrow; try discriminate. simpl in H.
  destruct (index row j) as [y| |] eqn:Hy; try discriminate. simpl in H.
  destruct (store row j (y + x)%float) as [row'| |] eqn:Hrow'; try discriminate. simpl in H.
  apply index_Ok in Hrow as [_ Hrow]. apply index_Ok in Hy as [_ Hy].
  apply store_Ok in Hrow' as [_ ->]. apply store_Ok in H as [_ ->].
  assert (Forall nonneg row) as Hnrow by (rewrite Forall_lookup in Hp; eauto).
  apply Forall_insert; [done|]. apply Forall_insert; [done|].
  apply float_add_nonneg; [|done]. rewrite Forall_lookup in Hnrow. eauto.
Qed.

Lemma deposit_nonneg amount tour : ∀ p p',
  deposit amount p tour = Ok p' → all_entries nonneg p → nonneg amount →
  all_entries nonneg p'.
Proof.
  induction tour as [|a [|b rest] IH]; intros p p' H Hp Hx; simpl in H;
    [by injection H as <-..|].
  destruct (add_at p a b amount) as [p1| |] eqn:H1; try discriminate. simpl in H.
  destruct (add_at p1 b a amount) as [p2| |] eqn:H2; try discriminate. simpl in H.
  apply (IH p2 p' H); [|done].
  eapply add_at_nonneg; [exact H2| |done]. eapply add_at_nonneg; eauto.
Qed.

(** Over non-negative distances the tour length is [+0], positive or
    [+Inf], and never [-0] or NaN. *)
Lemma tour_length_sign_clear d tour : ∀ acc L,
  tour_length d tour acc = Ok L → all_entries nonneg d → sign_clear acc → sign_clear L.
Proof.
  induction tour as [|a [|b rest] IH]; intros acc L H Hd Hacc; simpl in H;
    [by injection H as <-..|].
  destruct (index d a) as [row| |] eqn:Hrow; try discriminate. simpl in H.
  destruct (index row b) as [x| |] eqn:Hx; try discriminate. simpl in H.
  apply (IH _ _ H Hd). apply float_add_sign_clear; [done|].
  apply index_Ok in Hrow as [_ Hrow]. apply index_Ok in Hx as [_ Hx].
  unfold all_entries in Hd. rewrite Forall_lookup in Hd. specialize (Hd _ _ Hrow).
  rewrite Forall_lookup in Hd. eauto.
Qed.

Lemma depositAnt_nonneg ant w u w' :
  depositAnt ant w = Ok (u, w') → nonneg_world w → nonneg_world w'.
Proof.
  intros H (HP & HD & HQ0 & HQ1). unfold depositAnt, TourLength in H.
  apply bind_Ok in H as (L & w1 & H1 & H).
  apply bind_Ok in H1 as (ac & w2 & [= <- <-] & H1). apply lift_Ok in H1 as [HL ->].
  apply bind_Ok in H as (ac & w2 & [= <- <-] & H).
  apply bind_Ok in H as (p & w2 & Hp & H). apply lift_Ok in Hp as [Hp ->].
  injection H as _ <-. split_and!; simpl; [|done..].
  apply (deposit_nonneg _ _ _ _ Hp HP).
  apply float_div_nonneg; [by apply float_pos_finite|].
  by apply (tour_length_sign_clear _ _ _ _ HL HD).
Qed.

Lemma deposit_square n amount tour : ∀ p,
  square n p → Forall (λ c, 0 ≤ c < Z.of_nat n) tour →
  ∃ p', deposit amount p tour = Ok p' ∧ square n p'.
Proof.
  induction tour as [|a [|b rest] IH]; intros p Hsq Hv; simpl; [eauto..|].
  apply Forall_cons in Hv as [Ha Hv]. pose proof Hv as Hv'.
  apply Forall_cons in Hv' as [Hb _].
  destruct (add_at_square n p a b amount) as (p1 & -> & Hsq1 & _); [done..|].
  destruct (add_at_square n p1 b a amount) as (p2 & Hp2 & Hsq2 & _); [done..|].
  simpl. rewrite Hp2. simpl. by apply IH.
Qed.

(** On a colony with N x N matrices [UpdatePheromones] returns for every
    list of ants whose tours hold city indices. *)
Lemma UpdatePheromones_total ants w :
  wf_colony (colony w) → Forall (λ ant, valid_tour (colony w) (Tour ant)) ants →
  ∃ w', UpdatePheromones ants w = Ok (tt, w').
Proof.
  intros [HP HD] Hv. unfold UpdatePheromones.
  rewrite (bind_run _ _ w (colony w) w) by done.
  set (w1 := mkWorld (mkAntColony (NumAnts (colony w)) (Alpha (colony w)) (Beta (colony w))
                        (Rho (colony w)) (Q (colony w)) (Cities (colony w))
                        (evaporate (Rho (colony w)) (Pheromones (colony w)))
                        (DistanceMatrix (colony w))) (rand w)).
  rewrite (bind_run _ _ w tt w1) by done.
  destruct (forM_total_in depositAnt
              (λ w2, Cities (colony w2) = Cities (colony w) ∧ wf_colony (colony w2)) ants)
    with (w := w1) as (us & w' & Hrun & _).
  - eapply Forall_impl; [exact Hv|]. intros ant Hant w2 (Hcs & HP2 & HD2).
    unfold valid_tour, len in Hant. rewrite <- Hcs in Hant.
    destruct (tour_length_total _ _ (Tour ant) 0%float HD2 Hant) as [L HL].
    destruct (deposit_square _ (Q (colony w2) / L)%float (Tour ant) _ HP2 Hant)
      as (p' & Hp' & Hsq').
    unfold depositAnt, TourLength, getColony, setPheromones, mbind, Go_bind.
    rewrite HL. simpl. rewrite Hp'. simpl. eexists _, _. split; [done|].
    split; [done|]. split; simpl; [by rewrite Hcs in Hsq' |- * | done].
  - split; [done|]. split; simpl; [by apply square_evaporate | done].
  - rewrite (bind_run _ _ _ _ _ Hrun). eauto.
Qed.

(** C6, as the code has it: on a colony with N x N matrices, given
    [0 <= rho <= 1], [0 < Q < +Inf], distances that are all non-negative,
    pheromone entries that are all non-negative, and [rho < 1] or no entry
    [+Inf], [UpdatePheromones] returns for ants whose tours hold city
    indices and every entry of the pheromone matrix is non-negative after
    it ([+Inf] included). *)
Theorem UpdatePheromones_nonneg w ants :
  wf_colony (colony w) → Forall (λ ant, valid_tour (colony w) (Tour ant)) ants →
  (0 <=? Rho (colony w))%float = true → (Rho (colony w) <=? 1)%float = true →
  (Rho (colony w) <? 1)%float = true
    ∨ all_entries (λ x, is_finite x = true) (Pheromones (colony w)) →
  (0 <? Q (colony w))%float = true → (Q (colony w) <? infinity)%float = true →
  all_entries nonneg (DistanceMatrix (colony w)) →
  all_entries nonneg (Pheromones (colony w)) →
  ∃ w', UpdatePheromones ants w = Ok (tt, w')
        ∧ all_entries nonneg (Pheromones (colony w')).
Proof.
  intros Hwf Hv H0 H1 Hinf HQ0 HQ1 HD HP.
  destruct (UpdatePheromones_total ants w Hwf Hv) as [w' Hrun].
  exists w'. split; [done|]. unfold UpdatePheromones in Hrun.
  apply bind_Ok in Hrun as (ac & w1 & [= <- <-] & Hrun).
  apply bind_Ok in Hrun as (u & w1 & [= <- <-] & Hrun).
  apply bind_Ok in Hrun as (us & w2 & Hrun & [= <-]).
  apply (forM_Forall depositAnt (λ _, True) nonneg_world) in Hrun as (_ & (HP' & _) & _).
  - done.
  - intros ant w3 u' w4 Hw3 Hant. split; [done|]. by apply (depositAnt_nonneg ant w3 u').
  - split_and!; simpl; [|done..]. by apply evaporate_nonneg.
Qed.

(** C6 as stated fails: with the cities and parameters of [main] but
    [rho = 1], the first [UpdatePheromones] leaves the non-negative entry
    [+Inf] at [Pheromones[0][0]] (the tours have length 0), and the second
    evaporates it to [+Inf * 0 = NaN], which is not non-negative. *)
Lemma UpdatePheromones_nan :
  ∃ ants w1 w2 w3,
    InitializeAnts world_rho1 = Ok (ants, w1)
    ∧ UpdatePheromones ants w1 = Ok (tt, w2)
    ∧ all_entries nonneg (Pheromones (colony w2))
    ∧ (0 <=? Rho (colony w2))%float = true ∧ (Rho (colony w2) <=? 1)%float = true
    ∧ (0 <? Q (colony w2))%float = true
    ∧ UpdatePheromones ants w2 = Ok (tt, w3)
    ∧ entry (Pheromones (colony w3)) 0 0 = Some nan
    ∧ ¬ nonneg nan.
Proof.
  eexists _, _, _, _. split; [vm_compute; reflexivity|].
  split; [vm_compute; reflexivity|].
  split; [repeat constructor|]. split; [reflexivity|]. split; [reflexivity|].
  split; [reflexivity|]. split; [vm_compute; reflexivity|].
  split; [vm_compute; reflexivity|]. discriminate.
Qed.

(** ** The fuel of [AntsMove] is enough *)

Lemma fuelled_bind {A B} (m : Go A) (f : A → Go B) :
  fuelled m → (∀ a, fuelled (f a)) → fuelled (m ≫= f).
Proof.
  intros Hm Hf w. unfold mbind, Go_bind. specialize (Hm w).
  destruct (m w) as [[a w1]| |]; [apply Hf | done..].
Qed.

Lemma fuelled_lift {A} (r : result A) : r ≠ OutOfFuel → fuelled (lift r).
Proof. intros Hr w. by destruct r. Qed.

Lemma index_fuelled {A} (l : list A) i : index l i ≠ OutOfFuel.
Proof. unfold index. case_decide; [|done]. by destruct (l !! Z.to_nat i). Qed.

Lemma store_fuelled {A} (l : list A) i x : store l i x ≠ OutOfFuel.
Proof. unfold store. by case_decide. Qed.

Lemma result_bind_fuelled {A B} (r : result A) (f : A → result B) :
  r ≠ OutOfFuel → (∀ a, f a ≠ OutOfFuel) → r ≫= f ≠ OutOfFuel.
Proof. intros Hr Hf. destruct r; [apply Hf | done..]. Qed.

Lemma foldR_fuelled {A S} (f : S → A → result S) l :
  (∀ s a, f s a ≠ OutOfFuel) → ∀ s, foldR f l s ≠ OutOfFuel.
Proof.
  intros Hf. induction l as [|a l IH]; intros s; simpl; [done|].
  by apply result_bind_fuelled.
Qed.

Lemma weigh_fuelled Pow ac ant c pher st i : weigh Pow ac ant c pher st i ≠ OutOfFuel.
Proof.
  unfold weigh. destruct st as [heur sum]. destruct (visited ant i); [done|].
  repeat (apply result_bind_fuelled;
          [first [apply index_fuelled | apply store_fuelled] | intros ?]).
  done.
Qed.

Lemma spin_fuelled Pow ac ant pher heur roulette l :
  ∀ cum, spin Pow ac ant pher heur roulette l cum ≠ OutOfFuel.
Proof.
  induction l as [|i l IH]; intros cum; simpl; [done|].
  destruct (visited ant i); [done|].
  apply result_bind_fuelled; [apply index_fuelled | intros p].
  apply result_bind_fuelled; [apply index_fuelled | intros h].
  by destruct (_ <=? _)%float.
Qed.

Lemma NextCity_fuelled Pow ant : fuelled (NextCity Pow ant).
Proof.
  unfold NextCity. apply fuelled_bind; [done|]. intros ac.
  apply fuelled_bind; [apply fuelled_lift, index_fuelled|]. intros c.
  apply fuelled_bind; [apply fuelled_lift, index_fuelled|]. intros pher.
  apply fuelled_bind; [apply fuelled_lift, foldR_fuelled; intros; apply weigh_fuelled|].
  intros [heur sum]. apply fuelled_bind; [done|]. intros r.
  apply fuelled_lift, spin_fuelled.
Qed.

(** Every pass of the inner loop of [AntsMove] appends one city, so fuel
    for [len(ac.Cities) - len(ant.Tour)] passes is never used up. *)
Lemma extend_fuel Pow fuel : ∀ ant w,
  len (Cities (colony w)) - len (Tour ant) ≤ Z.of_nat fuel →
  extend Pow fuel ant w ≠ OutOfFuel.
Proof.
  induction fuel as [|fuel IH]; intros ant w Hfuel; simpl;
    rewrite (bind_run _ _ w (colony w) w) by done; case_decide as Hlen; try done.
  - lia.
  - unfold mbind, Go_bind. pose proof (NextCity_fuelled Pow ant w) as Hnext.
    destruct (NextCity Pow ant w) as [[i w1]| |] eqn:Hrun; [|done..].
    apply IH. rewrite (preserves_NextCity Pow ant _ _ _ Hrun). simpl.
    unfold len in *. rewrite length_app. simpl. lia.
Qed.

Lemma AntsMove_fuel Pow ants : fuelled (AntsMove Pow ants).
Proof.
  intros w. unfold AntsMove. rewrite (bind_run _ _ w (colony w) w) by done.
  assert (colony w = colony w) as Hinv by done. revert Hinv.
  generalize w at 2 4. induction ants as [|ant ants IH]; intros w' Hw'; simpl; [done|].
  unfold mbind at 1, Go_bind at 1.
  pose proof (extend_fuel Pow (length (Cities (colony w))) ant w') as Hext.
  destruct (extend Pow _ ant w') as [[ant' w1]| |] eqn:Hrun; [|done|].
  - unfold mbind at 1, Go_bind at 1.
    specialize (IH w1). rewrite (preserves_extend Pow _ ant _ _ _ Hrun) in IH.
    specialize (IH Hw'). destruct (forM _ ants w1) as [[ants' w2]| |]; done.
  - exfalso. apply Hext; [|done]. rewrite <- Hw'. unfold len. lia.
Qed.

(** ** The distance matrix of [NewAntColony] *)

Lemma binary_round_aux_opp s m e l :
  binary_round_aux prec emax (negb s) m e l = SFopp (binary_round_aux prec emax s m e l).
Proof.
  unfold binary_round_aux. destruct (shr_fexp prec emax m e l) as [mrs1 e1].
  destruct (shr_fexp prec emax _ e1 loc_Exact) as [mrs2 e2].
  destruct (shr_m mrs2); [done| |done]. by destruct (_ <=? _).
Qed.

Lemma binary_round_opp s q e :
  binary_round prec emax (negb s) q e = SFopp (binary_round prec emax s q e).
Proof. unfold binary_round. destruct (shl_align q e _). apply binary_round_aux_opp. Qed.

(** [y - x] is the opposite of [x - y], or both are [+0]. *)
Lemma SFsub_swap x y :
  SF64sub y x = SFopp (SF64sub x y)
  ∨ (SF64sub x y = S754_zero false ∧ SF64sub y x = S754_zero false).
Proof.
  destruct x as [sx|sx| |sx mx ex], y as [sy|sy| |sy my ey];
    try (simpl; try destruct sx; try destruct sy; simpl; by auto).
  unfold SF64sub, SFsub. cbv zeta. rewrite (Z.min_comm ey ex).
  set (a := cond_Zopp sx _). set (b := cond_Zopp sy _).
  replace (b - a) with (- (a - b)) by lia.
  destruct (a - b) as [|q|q]; simpl; auto; left.
  - apply (binary_round_opp false).
  - apply (binary_round_opp true).
Qed.

Lemma SFmul_opp_opp a : SF64mul (SFopp a) (SFopp a) = SF64mul a a.
Proof. destruct a as [[]|[]| |[] m e]; done. Qed.

Lemma float_sub_square (x y : float) :
  ((x - y) * (x - y))%float = ((y - x) * (y - x))%float.
Proof.
  apply Prim2SF_inj. rewrite !mul_spec, !sub_spec.
  destruct (SFsub_swap (Prim2SF x) (Prim2SF y)) as [-> | [-> ->]]; [|done].
  symmetry. apply SFmul_opp_opp.
Qed.

(** The distance is the same float64 value in both directions. *)
Lemma Distance_sym a b : Distance a b = Distance b a.
Proof.
  unfold Distance. cbv zeta.
  by rewrite (float_sub_square (X a)), (float_sub_square (Y a)).
Qed.



Lemma SFsub_finite_signed x y :
  (∃ s, SF_signed s x) → (∃ s, SF_signed s y) →
  (∀ s, x ≠ S754_infinity s) → (∀ s, y ≠ S754_infinity s) →
  ∃ s, SF_signed s (SF64sub x y).
Proof.
  intros [s1 Hx] [s2 Hy] Hfx Hfy.
  destruct x as [sx|sx| |sx mx ex], y as [sy|sy| |sy my ey]; simpl in *; try done;
    try (by destruct (Hfx sx)); try (by destruct (Hfy sy)).
  - destruct sx, sy; simpl; eauto.
  - eauto.
  - eauto.
  - unfold SF64sub, SFsub. cbv zeta. destruct (_ - _) as [|q|q]; simpl; [by exists false|..].
    + exists false. apply binary_round_signed.
    + exists true. apply binary_round_signed.
Qed.

Lemma SFmul_self_signed x : (∃ s, SF_signed s x) → SF_signed false (SF64mul x x).
Proof.
  intros [s Hx]. destruct x as [[]|[]| |sx mx ex]; simpl in *; try done.
  replace (xorb sx sx) with false by (by destruct sx).
  by apply binary_round_aux_signed.
Qed.

Lemma SFsqrt_signed x : SF_signed false x → SF_signed false (SF64sqrt x).
Proof.
  destruct x as [s|s| |s m e]; simpl; intros; subst; try done.
  unfold SFsqrt_core_binary.
  set (m' := match _ - _ with Z0 => Z.pos m | Z.pos _ => Z.shiftl (Z.pos m) _ | Z.neg _ => 0 end).
  pose proof (Z.sqrtrem_spec m') as Hsq.
  assert (0 ≤ m') as Hm'.
  { unfold m'. destruct (_ - _); [lia| |lia]. apply Z.shiftl_nonneg. lia. }
  destruct (Z.sqrtrem m') as [q r]. specialize (Hsq Hm').
  apply binary_round_aux_signed. lia.
Qed.

Lemma is_finite_cases x :
  is_finite x = true → (∃ s, SF_signed s (Prim2SF x)) ∧ ∀ s, Prim2SF x ≠ S754_infinity s.
Proof.
  rewrite is_finite_SF. destruct (Prim2SF x) as [s|s| |s m e]; try done; simpl; eauto.
Qed.

(** Between cities with finite coordinates the distance is [+0], positive
    or [+Inf]. *)
Lemma Distance_sign_clear a b :
  is_finite (X a) = true → is_finite (Y a) = true →
  is_finite (X b) = true → is_finite (Y b) = true →
  sign_clear (Distance a b).
Proof.
  intros [HXa HXa']%is_finite_cases [HYa HYa']%is_finite_cases
         [HXb HXb']%is_finite_cases [HYb HYb']%is_finite_cases.
  unfold Distance, sign_clear. cbv zeta. rewrite sqrt_spec. apply SFsqrt_signed.
  rewrite add_spec, !mul_spec, !sub_spec.
  apply SFadd_signed; apply SFmul_self_signed, SFsub_finite_signed; done.
Qed.


(** ** Remarks *)

(** Under Go's [==], which tells a NaN from itself, two mirrored entries
    of a symmetric matrix compare equal as soon as one of them is no
    NaN. *)
Lemma symmetric_eqb p i j x y :
  symmetric p → entry p i j = Some x → entry p j i = Some y → is_nan x = false →
  (x =? y)%float = true.
Proof.
  intros Hsym Hx Hy Hnan. rewrite Hsym, Hy in Hx. injection Hx as ->.
  unfold is_nan in Hnan. by destruct (x =? x)%float.
Qed.

(** With three cities or more, no ant of [InitializeAnts] comes back from
    [AntsMove] with a permutation of the city indices. *)
Lemma AntsMove_never_permutation Pow w ants w1 ants' w2 :
  3 ≤ len (Cities (colony w)) →
  InitializeAnts w = Ok (ants, w1) → AntsMove Pow ants w1 = Ok (ants', w2) →
  Forall (λ ant, ¬ Tour ant ≡ₚ seqZ 0 (len (Cities (colony w)))) ants'.
Proof.
  intros HN Hinit Hmove. rewrite (AntsMove_InitializeAnts Pow _ _ _ Hinit) in Hmove.
  injection Hmove as <- <-. apply InitializeAnts_Ok in Hinit as (_ & _ & Hants).
  eapply Forall_impl; [exact Hants|]. intros ant (s & _ & ->) Hperm.
  apply (started_not_NoDup (length (Cities (colony w))) s); [unfold len in HN; lia|].
  rewrite Hperm. apply NoDup_seqZ.
Qed.

(** ** The loop of [main] keeps the pheromone matrix symmetric *)

Lemma started_valid n s :
  0 ≤ s < Z.of_nat n → Forall (λ c, 0 ≤ c < Z.of_nat n) (Tour (started n s)).
Proof.
  intros Hs. unfold started. simpl. apply Forall_insert; [|done].
  apply Forall_replicate. lia.
Qed.

Lemma iteration_symmetric Pow cs k w :
  cs ≠ [] → 0 ≤ k → 8 * k ≤ maxAlloc → symmetric_world cs w ∧ NumAnts (colony w) = k →
  ∃ w', iteration Pow w = Ok (tt, w') ∧ symmetric_world cs w' ∧ NumAnts (colony w') = k.
Proof.
  intros Hcs Hk Hmax [Hw Hnum]. pose proof Hw as (Hcities & _ & _).
  destruct (InitializeAnts_total w) as (ants & w1 & Hinit).
  { lia. }
  { lia. }
  { rewrite Hcities. unfold len. destruct cs; [done | simpl; lia]. }
  pose proof (AntsMove_InitializeAnts Pow _ _ _ Hinit) as Hmove.
  pose proof (InitializeAnts_Ok _ _ _ Hinit) as (Hcol & _ & Hants).
  destruct (UpdatePheromones_symmetric_world cs ants w1) as (w2 & Hupd & Hw2).
  { unfold symmetric_world. by rewrite Hcol. }
  { eapply Forall_impl; [exact Hants|]. intros ant (s & Hs & ->).
    rewrite Hcities in *. unfold len in *. by apply started_valid. }
  exists w2. unfold iteration.
  rewrite (bind_run _ _ _ _ _ Hinit), (bind_run _ _ _ _ _ Hmove). split; [done|].
  split; [done|]. destruct (writes_UpdatePheromones ants _ _ _ Hupd) as (-> & _).
  by rewrite Hcol.
Qed.

(** From the colony of [NewAntColony] over at least one city, with a
    number of ants the runtime can allocate, every number of passes of the
    loop of [main] runs without a panic, and mirrored entries of the
    pheromone matrix are identical after it. *)
Lemma iterations_symmetric Pow numAnts alpha beta rho q (cs : list City) g n :
  cs ≠ [] → 0 ≤ numAnts → 8 * numAnts ≤ maxAlloc →
  ∃ w', iterations Pow n (world_of (NewAntColony numAnts alpha beta rho q (Some <$> cs)) g)
        = Ok (tt, w')
        ∧ symmetric (Pheromones (colony w')).
Proof.
  intros Hcs Hnum Hmax.
  pose proof (NewAntColony_symmetric_world numAnts alpha beta rho q cs g) as Hw.
  assert (NumAnts (colony (world_of (NewAntColony numAnts alpha beta rho q (Some <$> cs)) g))
          = numAnts) as Hk by (by rewrite NewAntColony_run).
  assert (Some <$> cs ≠ []) as Hcs' by (by destruct cs).
  revert Hw Hk. generalize (world_of (NewAntColony numAnts alpha beta rho q (Some <$> cs)) g).
  induction n as [|n IH]; intros w Hw Hk; simpl.
  - exists w. split; [done|]. apply Hw.
  - destruct (iteration_symmetric Pow _ numAnts w Hcs' Hnum Hmax (conj Hw Hk))
      as (w1 & Hrun & Hw1 & Hk1).
    rewrite (bind_run _ _ _ _ _ Hrun). by apply IH.
Qed.

(** ** Symmetry under Go's [==]

    [UpdatePheromones] keeps mirrored entries [==], or both NaN: a zero
    stays a zero of either sign, a NaN stays a NaN, and every other value
    is treated alike on both sides. *)

Lemma is_nan_SF x : is_nan x = true ↔ Prim2SF x = S754_nan.
Proof.
  unfold is_nan. rewrite FloatAxioms.eqb_spec.
  destruct (Prim2SF x) as [s|s| |s m e]; try destruct s; simpl; try done;
    unfold SFeqb, SFcompare; simpl; rewrite Z.compare_refl, Pos.compare_cont_refl; done.
Qed.

Lemma eq_or_nan_refl x : eq_or_nan x x.
Proof.
  unfold eq_or_nan, is_nan. destruct (x =? x)%float; [by left | by right].
Qed.

Lemma eq_or_nan_zeros x y s1 s2 :
  Prim2SF x = S754_zero s1 → Prim2SF y = S754_zero s2 → eq_or_nan x y.
Proof. intros Hx Hy. left. by rewrite FloatAxioms.eqb_spec, Hx, Hy. Qed.

Lemma eq_or_nan_nans x y :
  Prim2SF x = S754_nan → Prim2SF y = S754_nan → eq_or_nan x y.
Proof. intros Hx Hy. right. by rewrite !is_nan_SF. Qed.

Lemma eq_or_nan_SF x y : Prim2SF x = Prim2SF y → eq_or_nan x y.
Proof. intros H. apply Prim2SF_inj in H as ->. apply eq_or_nan_refl. Qed.

(** Two floats that are [==] are the same value, or two zeros. *)
Lemma float_eqb_cases x y :
  (x =? y)%float = true →
  x = y ∨ ∃ s1 s2, Prim2SF x = S754_zero s1 ∧ Prim2SF y = S754_zero s2.
Proof.
  rewrite FloatAxioms.eqb_spec. intros H.
  destruct (Prim2SF x) as [s1|s1| |s1 m1 e1] eqn:Hx,
           (Prim2SF y) as [s2|s2| |s2 m2 e2] eqn:Hy;
    try destruct s1; try destruct s2; try discriminate H.
  1-4: right; eauto.
  1-2: left; apply Prim2SF_inj; by rewrite Hx, Hy.
  all: unfold SFeqb, SFcompare in H;
    destruct (Z.compare_spec e1 e2) as [->| |]; try discriminate H;
    rewrite Pos.compare_cont_spec in H; simpl in H;
    destruct (Pos.compare_spec m1 m2) as [->| |]; try discriminate H;
    left; apply Prim2SF_inj; by rewrite Hx, Hy.
Qed.

Lemma eq_or_nan_cases x y :
  eq_or_nan x y →
  x = y ∨ (∃ s1 s2, Prim2SF x = S754_zero s1 ∧ Prim2SF y = S754_zero s2)
  ∨ (Prim2SF x = S754_nan ∧ Prim2SF y = S754_nan).
Proof.
  intros [H|[Hx Hy]].
  - destruct (float_eqb_cases x y H) as [?|?]; auto.
  - right. right. by rewrite <- !is_nan_SF.
Qed.

(** Evaporation: [x * f] and [y * f] for [x == y] or both NaN. *)
Lemma eq_or_nan_mul x y f : eq_or_nan x y → eq_or_nan (x * f) (y * f).
Proof.
  intros [->|[(s1 & s2 & Hx & Hy)|[Hx Hy]]]%eq_or_nan_cases.
  - apply eq_or_nan_refl.
  - destruct (Prim2SF f) as [sf|sf| |sf mf ef] eqn:Hf.
    + eapply eq_or_nan_zeros; rewrite mul_spec, ?Hx, ?Hy, Hf; reflexivity.
    + apply eq_or_nan_nans; rewrite mul_spec, ?Hx, ?Hy, Hf; reflexivity.
    + apply eq_or_nan_nans; rewrite mul_spec, ?Hx, ?Hy, Hf; reflexivity.
    + eapply eq_or_nan_zeros; rewrite mul_spec, ?Hx, ?Hy, Hf; reflexivity.
  - apply eq_or_nan_nans; rewrite mul_spec, ?Hx, ?Hy; reflexivity.
Qed.

(** A deposit: [x + a] and [y + a] for [x == y] or both NaN. *)
Lemma eq_or_nan_add x y a : eq_or_nan x y → eq_or_nan (x + a) (y + a).
Proof.
  intros [->|[(s1 & s2 & Hx & Hy)|[Hx Hy]]]%eq_or_nan_cases.
  - apply eq_or_nan_refl.
  - destruct (Prim2SF a) as [sa|sa| |sa ma ea] eqn:Ha.
    + destruct s1, s2, sa;
        eapply eq_or_nan_zeros; rewrite add_spec, ?Hx, ?Hy, Ha; reflexivity.
    + apply eq_or_nan_SF. by rewrite !add_spec, Hx, Hy, Ha.
    + apply eq_or_nan_nans; rewrite add_spec, ?Hx, ?Hy, Ha; reflexivity.
    + apply eq_or_nan_SF. by rewrite !add_spec, Hx, Hy, Ha.
  - apply eq_or_nan_nans; rewrite add_spec, ?Hx, ?Hy; reflexivity.
Qed.

Lemma symmetric_up_to_nan_of_symmetric p : symmetric p → symmetric_up_to_nan p.
Proof.
  intros Hsym i j x y Hx Hy. rewrite Hsym, Hy in Hx. injection Hx as ->.
  apply eq_or_nan_refl.
Qed.

(** Under [==], mirrored entries that are [==] or both NaN compare equal
    exactly when they are no NaN. *)
Lemma eq_or_nan_eqb x y : eq_or_nan x y → (x =? y)%float = negb (is_nan x).
Proof.
  intros [H|[Hx Hy]].
  - rewrite H. destruct (float_eqb_cases x y H) as [->|(s1 & s2 & Hx & _)].
    + unfold is_nan. by rewrite H.
    + destruct (is_nan x) eqn:Hn; [|done]. apply is_nan_SF in Hn. congruence.
  - rewrite Hx. apply is_nan_SF in Hx. rewrite FloatAxioms.eqb_spec, Hx. done.
Qed.

Lemma symmetric_up_to_nan_of_eq p : symmetric_eq p → symmetric_up_to_nan p.
Proof. intros Hsym i j x y Hx Hy. left. by apply (Hsym i j). Qed.

Lemma up_to_nan_evaporate rho p :
  symmetric_up_to_nan p → symmetric_up_to_nan (evaporate rho p).
Proof.
  intros Hs i j x y Hx Hy. rewrite entry_evaporate in Hx, Hy.
  apply fmap_Some in Hx as (x0 & Hx & ->). apply fmap_Some in Hy as (y0 & Hy & ->).
  apply eq_or_nan_mul. by apply (Hs i j).
Qed.

(** The two writes of one deposit, [p[i][j] += x] and [p[j][i] += x]. *)
Lemma add_at_pair_up_to_nan n p i j x :
  square n p → symmetric_up_to_nan p → 0 ≤ i < Z.of_nat n → 0 ≤ j < Z.of_nat n →
  ∃ p1 p2, add_at p i j x = Ok p1 ∧ add_at p1 j i x = Ok p2 ∧ square n p2
           ∧ symmetric_up_to_nan p2.
Proof.
  intros Hsq Hsym Hi Hj.
  destruct (add_at_square n p i j x) as (p1 & Hp1 & Hsq1 & He1); [done..|].
  destruct (add_at_square n p1 j i x) as (p2 & Hp2 & Hsq2 & He2); [done..|].
  exists p1, p2. split_and!; [done..|].
  intros a b u v Hu Hv. rewrite He2, He1 in Hu, Hv.
  repeat case_decide;
    repeat match goal with
           | H : _ <$> _ = Some _ |- _ => apply fmap_Some in H as (? & H & ->)
           end;
    try (exfalso; intuition congruence);
    repeat apply eq_or_nan_add; by apply (Hsym a b).
Qed.

Lemma deposit_up_to_nan n amount tour : ∀ p,
  square n p → symmetric_up_to_nan p → Forall (λ c, 0 ≤ c < Z.of_nat n) tour →
  ∃ p', deposit amount p tour = Ok p' ∧ square n p' ∧ symmetric_up_to_nan p'.
Proof.
  induction tour as [|a [|b rest] IH]; intros p Hsq Hsym Hv; simpl; [eauto..|].
  apply Forall_cons in Hv as [Ha Hv]. pose proof Hv as Hv'.
  apply Forall_cons in Hv' as [Hb _].
  destruct (add_at_pair_up_to_nan n p a b amount) as (p1 & p2 & -> & Hp2 & Hsq2 & Hsym2);
    [done..|].
  simpl. rewrite Hp2. simpl. by apply IH.
Qed.

Lemma depositAnt_up_to_nan cs ant w :
  up_to_nan_world cs w → Forall (λ c, 0 ≤ c < len cs) (Tour ant) →
  ∃ w', depositAnt ant w = Ok (tt, w') ∧ up_to_nan_world cs w'.
Proof.
  intros (Hcs & [HP HD] & Hsym) Hv. unfold len in Hv. rewrite <- Hcs in Hv.
  destruct (tour_length_total _ _ (Tour ant) 0%float HD Hv) as [L HL].
  destruct (deposit_up_to_nan _ (Q (colony w) / L)%float (Tour ant) _ HP Hsym Hv)
    as (p' & Hp' & Hsq' & Hsym').
  unfold depositAnt, TourLength, getColony, setPheromones, mbind, Go_bind.
  rewrite HL. simpl. rewrite Hp'. simpl.
  eexists. split; [done|]. split_and!; simpl; done.
Qed.

Lemma UpdatePheromones_up_to_nan cs ants w :
  up_to_nan_world cs w → Forall (λ ant, Forall (λ c, 0 ≤ c < len cs) (Tour ant)) ants →
  ∃ w', UpdatePheromones ants w = Ok (tt, w') ∧ up_to_nan_world cs w'.
Proof.
  intros (Hcs & [HP HD] & Hsym) Hv. unfold UpdatePheromones.
  rewrite (bind_run _ _ w (colony w) w) by done.
  set (w1 := mkWorld (mkAntColony (NumAnts (colony w)) (Alpha (colony w)) (Beta (colony w))
                        (Rho (colony w)) (Q (colony w)) (Cities (colony w))
                        (evaporate (Rho (colony w)) (Pheromones (colony w)))
                        (DistanceMatrix (colony w))) (rand w)).
  rewrite (bind_run _ _ w tt w1) by done.
  assert (up_to_nan_world cs w1) as Hw1.
  { split_and!; simpl; [done| |by apply up_to_nan_evaporate].
    split; simpl; [by apply square_evaporate | done]. }
  destruct (forM_total_in depositAnt (up_to_nan_world cs) ants) with (w := w1)
    as (us & w' & Hrun & Hw'); [|done|].
  - eapply Forall_impl; [exact Hv|]. intros ant Hant w2 Hw2.
    destruct (depositAnt_up_to_nan cs ant w2 Hw2 Hant) as (w3 & ? & ?). eauto.
  - rewrite (bind_run _ _ _ _ _ Hrun). eauto.
Qed.

(** C5: on a colony with N x N matrices whose pheromone matrix is
    symmetric up to NaN ([p[i][j] == p[j][i]] or both are NaN, for all
    [i], [j]; a matrix symmetric under [==] is, see
    [symmetric_up_to_nan_of_eq]), every sequence of [UpdatePheromones]
    calls whose ants carry tours of city indices returns normally, and
    the pheromone matrix is symmetric up to NaN after it: the comparison
    [p[i][j] == p[j][i]] holds exactly for the entries that are no NaN.
    If mirrored entries were identical [float64] values before, they are
    identical after. The colony of [NewAntColony], whose matrix is all
    zeros, is such a start ([NewAntColony_symmetric_world]). *)
Theorem UpdatePheromones_keeps_symmetry w (batches : list (list Ant)) :
  wf_colony (colony w) → symmetric_up_to_nan (Pheromones (colony w)) →
  Forall (Forall (λ ant, valid_tour (colony w) (Tour ant))) batches →
  ∃ us w', forM UpdatePheromones batches w = Ok (us, w')
           ∧ symmetric_up_to_nan (Pheromones (colony w'))
           ∧ (∀ i j x y, entry (Pheromones (colony w')) i j = Some x →
                         entry (Pheromones (colony w')) j i = Some y →
                         (x =? y)%float = negb (is_nan x))
           ∧ (symmetric (Pheromones (colony w)) → symmetric (Pheromones (colony w'))).
Proof.
  intros Hwf Hsym Hv.
  destruct (forM_total_in UpdatePheromones
              (λ w1, up_to_nan_world (Cities (colony w)) w1
                     ∧ (symmetric (Pheromones (colony w)) →
                        symmetric (Pheromones (colony w1)))) batches)
    with (w := w) as (us & w' & Hrun & Hw' & Hid); [|done|].
  - eapply Forall_impl; [exact Hv|]. intros ants Hants w1 [Hw1 Hid1].
    destruct (UpdatePheromones_up_to_nan _ ants w1 Hw1 Hants) as (w2 & Hrun & Hw2).
    exists tt, w2. split_and!; [done..|]. intros Hs.
    destruct (UpdatePheromones_symmetric_world (Cities (colony w)) ants w1)
      as (w2' & Hrun' & _ & _ & Hs2); [|done|].
    + destruct Hw1 as (? & ? & _). split_and!; auto.
    + rewrite Hrun in Hrun'. by injection Hrun' as <-.
  - exists us, w'. split_and!; [done| apply Hw' | | done].
    intros i j x y Hx Hy. apply eq_or_nan_eqb. destruct Hw' as (_ & _ & Hs). by apply (Hs i j).
Qed.

(** C5 as stated fails under Go's [==]: with the cities and parameters of
    [main] but [rho = 1], the ants of [InitializeAnts] all carry the tour
    [0 0 0 0 0] of length 0. The zero matrix is symmetric under [==], and
    so is the matrix after the first [UpdatePheromones], which holds
    [+Inf] at [0][0]; the second call evaporates that entry to
    [+Inf * 0 = NaN], and [Pheromones[0][0] == Pheromones[0][0]] is
    false. *)
Lemma UpdatePheromones_breaks_eq :
  ∃ ants w1 w2 w3,
    InitializeAnts world_rho1 = Ok (ants, w1)
    ∧ Forall (λ ant, valid_tour (colony w1) (Tour ant)) ants
    ∧ symmetric_eq (Pheromones (colony w1))
    ∧ UpdatePheromones ants w1 = Ok (tt, w2)
    ∧ symmetric_eq (Pheromones (colony w2))
    ∧ UpdatePheromones ants w2 = Ok (tt, w3)
    ∧ entry (Pheromones (colony w3)) 0 0 = Some nan
    ∧ ¬ symmetric_eq (Pheromones (colony w3)).
Proof.
  eexists _, _, _, _. split; [vm_compute; reflexivity|].
  split; [repeat (constructor; try (vm_compute; split; [discriminate | reflexivity]))|].
  split.
  { intros i j x y Hx Hy.
    destruct i as [|[|[|[|[|i]]]]], j as [|[|[|[|[|j]]]]]; vm_compute in Hx, Hy;
      try discriminate Hx; injection Hx as <-; injection Hy as <-; reflexivity. }
  split; [vm_compute; reflexivity|]. split.
  { intros i j x y Hx Hy.
    destruct i as [|[|[|[|[|i]]]]], j as [|[|[|[|[|j]]]]]; vm_compute in Hx, Hy;
      try discriminate Hx; injection Hx as <-; injection Hy as <-; reflexivity. }
  split; [vm_compute; reflexivity|]. split; [vm_compute; reflexivity|].
  intros H. specialize (H 0%nat 0%nat nan nan).
  assert ((nan =? nan)%float = true) as Hnan by (apply H; vm_compute; reflexivity).
  discriminate Hnan.
Qed.

(** ** The theorems at concrete colonies *)

Lemma world2_wf : wf_colony (colony world2).
Proof. split; (split; [reflexivity | repeat constructor]). Qed.

Lemma world4_wf : wf_colony (colony world4).
Proof. split; (split; [reflexivity | repeat constructor]). Qed.

Lemma world4_symmetric : symmetric (DistanceMatrix (colony world4)).
Proof.
  intros i j. destruct i as [|[|[|[|i]]]], j as [|[|[|[|j]]]]; vm_compute; reflexivity.
Qed.

Lemma world_main_wf : wf_colony (colony world_main).
Proof. split; (split; [reflexivity | repeat constructor]). Qed.

Lemma world_coincident_wf : wf_colony (colony world_coincident).
Proof. split; (split; [reflexivity | repeat constructor]). Qed.

(** At two distinct cities with zero pheromone and [alpha = beta = 1], the
    one unvisited city has weight [0 * (1 / d) = 0], and [NextCity] returns
    it. *)
Lemma NextCity_zero_weights_witness :
  ∃ i, NextCity PowSpecial ant_at_0 world2
       = Ok (i, mkWorld (colony world2) (advance (rand world2)))
       ∧ first_unvisited (colony world2) ant_at_0 i.
Proof.
  apply (NextCity_zero_weights PowSpecial world2 ant_at_0 0 [0%float; 0%float]).
  - apply world2_wf.
  - reflexivity.
  - vm_compute. split; [discriminate | reflexivity].
  - reflexivity.
  - exists 1. split; [vm_compute; split; [discriminate | reflexivity] | reflexivity].
  - intros i Hi Hv. change (len (Cities (colony world2))) with 2 in Hi.
    assert (i = 0 ∨ i = 1) as [-> | ->] by lia.
    + vm_compute in Hv. discriminate.
    + vm_compute. reflexivity.
Defined.

(** Two update calls on the colony of [NewAntColony] over two cities. *)
Lemma UpdatePheromones_keeps_symmetry_witness :
  ∃ us w', forM UpdatePheromones [[mkAnt [0; 1] ∅]; [mkAnt [1; 0] ∅; mkAnt [0] ∅]] world2
           = Ok (us, w')
           ∧ symmetric_up_to_nan (Pheromones (colony w'))
           ∧ (∀ i j x y, entry (Pheromones (colony w')) i j = Some x →
                         entry (Pheromones (colony w')) j i = Some y →
                         (x =? y)%float = negb (is_nan x))
           ∧ (symmetric (Pheromones (colony world2)) → symmetric (Pheromones (colony w'))).
Proof.
  apply (UpdatePheromones_keeps_symmetry world2).
  - apply world2_wf.
  - apply symmetric_up_to_nan_of_symmetric, (symmetric_replicate 2 0%float).
  - repeat (constructor; try (vm_compute; split; [discriminate | reflexivity])).
Defined.

(** One update call with the cities and parameters of [main] and an ant
    that has visited the cities in index order. *)
Lemma UpdatePheromones_nonneg_witness :
  ∃ w', UpdatePheromones [mkAnt [0; 1; 2; 3; 4] ∅] world_main = Ok (tt, w')
        ∧ all_entries nonneg (Pheromones (colony w')).
Proof.
  apply (UpdatePheromones_nonneg world_main).
  - apply world_main_wf.
  - repeat (constructor; try (vm_compute; split; [discriminate | reflexivity])).
  - reflexivity.
  - reflexivity.
  - left. reflexivity.
  - reflexivity.
  - reflexivity.
  - repeat constructor.
  - repeat constructor.
Defined.

(** The ant of [main] that starts at city 0. *)
Lemma depositAnt_zero_length_witness :
  depositAnt (mkAnt [0; 0; 0; 0; 0] {[0 := true]}) world_main =
  (lift (deposit infinity (Pheromones (colony world_main)) [0; 0; 0; 0; 0])
     ≫= setPheromones) world_main.
Proof.
  apply (depositAnt_zero_length world_main (mkAnt [0; 0; 0; 0; 0] {[0 := true]})).
  - vm_compute. reflexivity.
  - reflexivity.
Defined.

(** Two cities at the same point. *)
Lemma weighAll_coincident_witness :
  ∃ heur sum,
    weighAll PowSpecial (colony world_coincident) ant_at_0 0 [0%float; 0%float]
    = Ok (heur, sum)
    ∧ heur !! Z.to_nat 1 = Some infinity ∧ is_finite sum = false.
Proof.
  apply (weighAll_coincident PowSpecial (colony world_coincident) ant_at_0 0
           [0%float; 0%float] 1).
  - apply world_coincident_wf.
  - vm_compute. split; [discriminate | reflexivity].
  - reflexivity.
  - vm_compute. split; [discriminate | reflexivity].
  - reflexivity.
  - reflexivity.
  - reflexivity.
Defined.

(** A tour of three of the four cities on the line. *)
Lemma TourLength_reverse_witness :
  ∃ l l', TourLength [0; 1; 2] world4 = Ok (l, world4)
          ∧ TourLength (reverse [0; 1; 2]) world4 = Ok (l', world4)
          ∧ l = foldl add 0%float (edges (DistanceMatrix (colony world4)) [0; 1; 2])
          ∧ l' = foldl add 0%float (reverse (edges (DistanceMatrix (colony world4)) [0; 1; 2]))
          ∧ ((length [0; 1; 2] ≤ 3)%nat → l' = l).
Proof.
  apply (TourLength_reverse world4 [0; 1; 2]).
  - apply world4_wf.
  - apply world4_symmetric.
  - repeat (constructor; try (vm_compute; split; [discriminate | reflexivity])).
Defined.

(** One pass of the loop of [main] at two cities: the colony is the same
    after [InitializeAnts] and [AntsMove], and [UpdatePheromones] leaves
    the distance matrix as it was. *)
Lemma only_UpdatePheromones_writes_witness :
  ∃ ants w1 w2 w3,
    InitializeAnts world2 = Ok (ants, w1) ∧ colony w1 = colony world2
    ∧ AntsMove PowSpecial ants w1 = Ok (ants, w2) ∧ colony w2 = colony w1
    ∧ UpdatePheromones ants w2 = Ok (tt, w3)
    ∧ DistanceMatrix (colony w3) = DistanceMatrix (colony w2).
Proof.
  pose proof (only_UpdatePheromones_writes PowSpecial ant_at_0 [started 2 0] [])
    as (Hinit & _ & Hmove & _ & Hupdate).
  eexists _, _, _, _.
  split; [vm_compute; reflexivity|].
  split; [eapply Hinit; vm_compute; reflexivity|].
  split; [vm_compute; reflexivity|].
  split; [eapply Hmove; vm_compute; reflexivity|].
  split; [vm_compute; reflexivity|].
  eapply Hupdate. vm_compute. reflexivity.
Defined.

(** * Further properties of the methods *)

(** ** What NextCity can return *)

Lemma spin_result Pow ac ant pher heur roulette l : ∀ cum i,
  spin Pow ac ant pher heur roulette l cum = Ok i →
  i = -1 ∨ (i ∈ l ∧ visited ant i = false).
Proof.
  induction l as [|a l IH]; intros cum i H; simpl in H.
  - injection H as <-. by left.
  - destruct (visited ant a) eqn:Hva.
    + destruct (IH _ _ H) as [->|[Hin Hv]]; [by left | right]. split; [by right | done].
    + destruct (index pher a) as [p| |]; try discriminate. simpl in H.
      destruct (index heur a) as [h| |]; try discriminate. simpl in H.
      destruct (_ <=? _)%float.
      * injection H as <-. right. split; [by left | done].
      * destruct (IH _ _ H) as [->|[Hin Hv]]; [by left | right]. split; [by right | done].
Qed.

Lemma NextCity_Ok_cases Pow ant w i w' :
  NextCity Pow ant w = Ok (i, w') →
  i = -1 ∨ (0 ≤ i < len (Cities (colony w)) ∧ visited ant i = false).
Proof.
  unfold NextCity. intros H.
  apply bind_Ok in H as (ac & w1 & [= <- <-] & H).
  apply bind_Ok in H as (c & w1 & [_ ->]%lift_Ok & H).
  apply bind_Ok in H as (pher & w1 & [_ ->]%lift_Ok & H).
  apply bind_Ok in H as ([heur sum] & w1 & [_ ->]%lift_Ok & H).
  apply bind_Ok in H as (r & w1 & _ & H).
  apply lift_Ok in H as [H _].
  destruct (spin_result _ _ _ _ _ _ _ _ _ H) as [->|[Hin Hv]]; [by left | right].
  split; [|done]. unfold range in Hin. apply elem_of_seqZ in Hin. lia.
Qed.

(** X1: whenever [NextCity] returns, the result is the sentinel -1 or the
    index of a city the ant has not visited; it is never a visited city
    and never another out-of-range value. *)
Theorem NextCity_result Pow ant w i w' :
  NextCity Pow ant w = Ok (i, w') →
  i = -1 ∨ (0 ≤ i < len (Cities (colony w)) ∧ visited ant i = false).
Proof. apply NextCity_Ok_cases. Qed.

Lemma NextCity_index_panic Pow ant w :
  (∀ c, index (Tour ant) (len (Tour ant) - 1) = Ok c →
        ¬ 0 ≤ c < len (Pheromones (colony w))) →
  NextCity Pow ant w = Panic "index out of range".
Proof.
  intros Hbad. unfold NextCity. rewrite (bind_run _ _ w (colony w) w) by done.
  unfold mbind at 1, Go_bind at 1.
  destruct (index (Tour ant) (len (Tour ant) - 1)) as [c|msg|] eqn:Hc.
  - specialize (Hbad c eq_refl). simpl. unfold mbind at 1, Go_bind at 1.
    unfold index at 1. fold (len (Pheromones (colony w))). by case_decide.
  - simpl. unfold index in Hc. case_decide; [|by injection Hc as <-].
    destruct (Tour ant !! _); [done | by injection Hc as <-].
  - by destruct (index_fuelled (Tour ant) (len (Tour ant) - 1)).
Qed.

(** X2: [NextCity] panics with an index out of range when the tour is
    empty, and when the last entry of the tour is no row index of the
    pheromone matrix - as after the sentinel -1 has been appended. *)
Theorem NextCity_bad_current Pow ant w :
  (∀ c, index (Tour ant) (len (Tour ant) - 1) = Ok c →
        ¬ 0 ≤ c < len (Pheromones (colony w))) →
  NextCity Pow ant w = Panic "index out of range".
Proof. apply NextCity_index_panic. Qed.

(** ** What AntsMove does to an ant *)

Lemma forM_Forall2 {A B} (f : A → Go B) (R : A → B → Prop) (I : World → Prop) l :
  (∀ a w b w', I w → f a w = Ok (b, w') → R a b ∧ I w') →
  ∀ w bs w', I w → forM f l w = Ok (bs, w') → Forall2 R l bs ∧ I w'.
Proof.
  intros Hf. induction l as [|a l IH]; simpl; intros w bs w' Hw Hrun.
  - injection Hrun as <- <-. split; [constructor | done].
  - apply bind_Ok in Hrun as (b & w1 & Hb & Hrun).
    apply bind_Ok in Hrun as (bs' & w2 & Hbs & Hrun).
    injection Hrun as <- <-.
    destruct (Hf _ _ _ _ Hw Hb) as [HR Hw1].
    destruct (IH _ _ _ Hw1 Hbs) as [HF Hw2]. split; [by constructor | done].
Qed.

Lemma visited_insert ant c i :
  visited (mkAnt (Tour ant ++ [c]) (<[c := true]> (Visited ant))) i = true
  ↔ i = c ∨ visited ant i = true.
Proof.
  unfold visited. simpl. destruct (decide (i = c)) as [->|Hne].
  - rewrite lookup_insert_eq. simpl. split; auto.
  - rewrite lookup_insert_ne by done. split; [auto | intros [?|?]; done].
Qed.

(** The inner loop only appends: the tour it returns starts with the tour
    it was given and has [len(ac.Cities)] entries, or as many as it had
    when that was more. *)
Lemma extend_Ok Pow fuel : ∀ ant w ant' w',
  extend Pow fuel ant w = Ok (ant', w') →
  Tour ant `prefix_of` Tour ant'
  ∧ len (Tour ant') = len (Tour ant) `max` len (Cities (colony w))
  ∧ (∀ i, visited ant i = true → visited ant' i = true)
  ∧ colony w' = colony w.
Proof.
  induction fuel as [|fuel IH]; intros ant w ant' w' H; simpl in H;
    apply bind_Ok in H as (ac & w1 & [= <- <-] & H); case_decide as Hlen;
    try discriminate; try (injection H as <- <-; split_and!; [done|lia|done|done]).
  apply bind_Ok in H as (c & w1 & Hnext & H).
  pose proof (preserves_NextCity Pow ant _ _ _ Hnext) as Hcol.
  apply IH in H as (Hpre & Hl & Hv & Hc). simpl in *. rewrite Hcol in *.
  split_and!.
  - etrans; [|exact Hpre]. by apply prefix_app_r.
  - unfold len in *. rewrite length_app in Hl. simpl in Hl. lia.
  - intros i Hi. apply Hv. apply visited_insert. by right.
  - done.
Qed.

(** X3: [AntsMove] returns as many ants as it was given, in order, and
    only appends to their tours: each returned tour starts with the tour
    given and has [len(ac.Cities)] entries, or as many as it had when that
    was more; the colony is unchanged. *)
Theorem AntsMove_extends Pow ants w ants' w' :
  AntsMove Pow ants w = Ok (ants', w') →
  Forall2 (λ ant ant', Tour ant `prefix_of` Tour ant'
                       ∧ len (Tour ant') = len (Tour ant) `max` len (Cities (colony w)))
    ants ants'.
Proof.
  unfold AntsMove. intros H. apply bind_Ok in H as (ac & w1 & [= <- <-] & H).
  apply (forM_Forall2 _
           (λ ant ant', Tour ant `prefix_of` Tour ant'
                        ∧ len (Tour ant') = len (Tour ant) `max` len (Cities (colony w)))
           (λ w1, colony w1 = colony w)) in H as [H _]; [done| |done].
  intros ant w1 ant' w2 Hw1 Hrun. apply extend_Ok in Hrun as (Hpre & Hl & _ & Hc).
  rewrite Hw1 in *. done.
Qed.

(** ** AntsMove on consistent ants *)

Lemma consistent_snoc ac ant c :
  consistent ac ant → 0 ≤ c < len (Cities ac) → visited ant c = false →
  consistent ac (mkAnt (Tour ant ++ [c]) (<[c := true]> (Visited ant))).
Proof.
  intros (Hnd & Hv & Hvis) Hc Hvc. split_and!; simpl.
  - apply NoDup_app. split_and!; [done| |apply NoDup_singleton].
    intros i Hi ->%list_elem_of_singleton. apply Hvis in Hi. congruence.
  - apply Forall_app. split; [done|]. by constructor.
  - intros i. rewrite visited_insert, elem_of_app, list_elem_of_singleton, Hvis. tauto.
Qed.

Lemma extend_consistent Pow fuel : ∀ ant w ant' w',
  extend Pow fuel ant w = Ok (ant', w') → consistent (colony w) ant →
  -1 ∉ Tour ant' → consistent (colony w) ant'.
Proof.
  induction fuel as [|fuel IH]; intros ant w ant' w' H Hcons Hno; simpl in H;
    apply bind_Ok in H as (ac & w1 & [= <- <-] & H); case_decide as Hlen;
    try discriminate; try (by injection H as <- <-).
  apply bind_Ok in H as (c & w1 & Hnext & H).
  pose proof (preserves_NextCity Pow ant _ _ _ Hnext) as Hcol.
  pose proof (extend_Ok _ _ _ _ _ _ H) as (Hpre & _).
  rewrite <- Hcol. apply (IH _ _ _ _ H); [|done]. rewrite Hcol.
  destruct (NextCity_Ok_cases _ _ _ _ _ Hnext) as [->|[Hc Hvc]].
  - exfalso. apply Hno. eapply elem_of_prefix; [|exact Hpre]. simpl.
    apply elem_of_app. right. by left.
  - by apply consistent_snoc.
Qed.

(** A tour without repeats that holds city indices only and has at least
    N entries is a permutation of the N city indices. *)
Lemma consistent_full ac ant :
  consistent ac ant → len (Cities ac) ≤ len (Tour ant) →
  Tour ant ≡ₚ seqZ 0 (len (Cities ac)).
Proof.
  intros (Hnd & Hv & _) Hlen. apply submseteq_length_Permutation.
  - apply NoDup_submseteq; [done|]. intros i Hi. unfold valid_tour in Hv.
    rewrite Forall_forall in Hv. apply elem_of_seqZ. specialize (Hv i Hi). lia.
  - rewrite length_seqZ. unfold len in *. lia.
Qed.

(** X4: for ants in a consistent state (a tour without repeats over city
    indices, and a visited map that marks exactly the cities of the tour;
    an ant standing at its start city is one), when [AntsMove] returns and
    a returned tour does not hold the sentinel -1, that tour is a
    permutation of the city indices 0..N-1. *)
Theorem AntsMove_permutation Pow ants w ants' w' :
  AntsMove Pow ants w = Ok (ants', w') →
  Forall (consistent (colony w)) ants →
  Forall (λ ant', -1 ∉ Tour ant' → Tour ant' ≡ₚ seqZ 0 (len (Cities (colony w)))) ants'.
Proof.
  unfold AntsMove. intros H Hcons.
  apply bind_Ok in H as (ac & w1 & [= <- <-] & H).
  assert (Forall2 (λ ant ant', consistent (colony w) ant →
                    -1 ∉ Tour ant' → Tour ant' ≡ₚ seqZ 0 (len (Cities (colony w))))
            ants ants') as HF.
  { apply (forM_Forall2 _
             (λ ant ant', consistent (colony w) ant →
                -1 ∉ Tour ant' → Tour ant' ≡ₚ seqZ 0 (len (Cities (colony w))))
             (λ w1, colony w1 = colony w)) in H as [H _]; [done| |done].
    intros ant w1 ant' w2 Hw1 Hrun. split.
    - intros Hc Hno. rewrite <- Hw1 in *.
      apply consistent_full; [by apply (extend_consistent _ _ _ _ _ _ Hrun)|].
      apply extend_Ok in Hrun as (_ & Hl & _). lia.
    - apply extend_Ok in Hrun as (_ & _ & _ & Hc). congruence. }
  clear H. induction HF as [|ant ant' ants ants' HR _ IH]; [constructor|].
  apply Forall_cons in Hcons as [Hc Hcons]. constructor; [by apply HR | by apply IH].
Qed.

(** ** The sentinel -1 in AntsMove *)

(** X5: when [NextCity] returns the sentinel -1 for an ant whose tour
    would still be incomplete after one more city, [AntsMove] panics: the
    sentinel is appended, and the next pass indexes the pheromone matrix
    with it. *)
Theorem AntsMove_sentinel_panics Pow ant ants w w1 :
  NextCity Pow ant w = Ok (-1, w1) →
  len (Tour ant) + 1 < len (Cities (colony w)) →
  AntsMove Pow (ant :: ants) w = Panic "index out of range".
Proof.
  intros Hnext Hlen. pose proof (preserves_NextCity Pow ant _ _ _ Hnext) as Hcol.
  unfold AntsMove. rewrite (bind_run _ _ w (colony w) w) by done.
  assert (∃ fuel, length (Cities (colony w)) = S (S fuel)) as [fuel ->].
  { unfold len in Hlen. destruct (length (Cities (colony w))) as [|[|n]]; [lia..|eauto]. }
  simpl. unfold mbind at 1, Go_bind at 1.
  rewrite (bind_run _ _ w (colony w) w) by done. case_decide; [|lia].
  rewrite (bind_run _ _ _ _ _ Hnext).
  rewrite (bind_run _ _ w1 (colony w1) w1) by done. simpl.
  case_decide as Hlen'; [|unfold len in *; rewrite length_app, Hcol in Hlen'; simpl in *; lia].
  unfold mbind at 1, Go_bind at 1. rewrite NextCity_index_panic; [done|].
  simpl. intros c Hc. apply index_Ok in Hc as [_ Hc]. unfold len in Hc.
  rewrite length_app in Hc. simpl in Hc.
  replace (Z.to_nat (Z.of_nat (length (Tour ant) + 1) - 1)) with (length (Tour ant) + 0)%nat
    in Hc by lia.
  rewrite lookup_app_r, Nat.add_0_r, Nat.sub_diag in Hc by lia.
  injection Hc as <-. lia.
Qed.

(** X6: the inner loop of [AntsMove] terminates: every pass appends one
    city, so the [len(ac.Cities)] passes the model allows are never used
    up, for any list of ants and any state. *)
Theorem AntsMove_terminates Pow ants w : AntsMove Pow ants w ≠ OutOfFuel.
Proof. apply AntsMove_fuel. Qed.

(** ** TourLength and tours that leave the matrix *)

Lemma tour_length_out_of_range n d : ∀ tour acc,
  square n d → (2 ≤ length tour)%nat → Exists (λ c, ¬ 0 ≤ c < Z.of_nat n) tour →
  tour_length d tour acc = Panic "index out of range".
Proof.
  intros tour. induction tour as [|a [|b rest] IH]; intros acc Hsq Hlen Hbad;
    [simpl in Hlen; lia..|].
  destruct Hsq as [Hd Hrows]. simpl.
  destruct (decide (0 ≤ a < Z.of_nat n)) as [Ha|Ha].
  - destruct (row_of_square n d a (conj Hd Hrows) Ha) as (row & -> & Hrow). simpl.
    destruct (decide (0 ≤ b < Z.of_nat n)) as [Hb|Hb].
    + destruct (lookup_lt_is_Some_2 row (Z.to_nat b)) as [x Hx]; [lia|].
      assert (index row b = Ok x) as -> by (apply index_Ok; unfold len; split; [lia|done]).
      simpl. apply Exists_cons in Hbad as [?|Hbad]; [done|].
      apply IH; [done| |done]. destruct rest; [|simpl; lia].
      apply Exists_cons in Hbad as [?|Hbad]; [done | by apply Exists_nil in Hbad].
    + assert (index row b = Panic "index out of range") as ->; [|done].
      unfold index. rewrite Hrow. case_decide; [lia | done].
  - assert (index d a = Panic "index out of range") as ->; [|done].
    unfold index. rewrite Hd. case_decide; [lia | done].
Qed.

(** X7: on an N x N distance matrix, [TourLength] panics with an index
    out of range for every tour of two or more entries that holds an entry
    outside 0..N-1, such as the sentinel -1. *)
Theorem TourLength_out_of_range n w tour :
  square n (DistanceMatrix (colony w)) → (2 ≤ length tour)%nat →
  Exists (λ c, ¬ 0 ≤ c < Z.of_nat n) tour →
  TourLength tour w = Panic "index out of range".
Proof.
  intros Hsq Hlen Hbad. unfold TourLength. rewrite (bind_run _ _ w (colony w) w) by done.
  by rewrite (tour_length_out_of_range n).
Qed.

(** X8: [TourLength] extends with the tour: for a tour of city indices on
    an N x N distance matrix, the length of the tour with one more city
    appended is the length of the tour plus the distance from its last
    city to the new one. *)
Theorem TourLength_snoc w tour b c :
  wf_colony (colony w) → valid_tour (colony w) (tour ++ [b; c]) →
  ∃ l x, TourLength (tour ++ [b]) w = Ok (l, w)
         ∧ entry (DistanceMatrix (colony w)) (Z.to_nat b) (Z.to_nat c) = Some x
         ∧ TourLength (tour ++ [b; c]) w = Ok ((l + x)%float, w).
Proof.
  intros [_ HD] Hv. unfold valid_tour, len in Hv.
  assert (Forall (λ c, 0 ≤ c < Z.of_nat (length (Cities (colony w)))) (tour ++ [b])) as Hv'.
  { apply Forall_app in Hv as [Ht Hbc]. apply Forall_app. split; [done|].
    apply Forall_cons in Hbc as [Hb _]. by constructor. }
  assert (0 ≤ b < Z.of_nat (length (Cities (colony w)))
          ∧ 0 ≤ c < Z.of_nat (length (Cities (colony w)))) as [Hb Hc].
  { apply Forall_app in Hv as [_ Hbc]. apply Forall_cons in Hbc as [Hb Hc].
    apply Forall_cons in Hc as [Hc _]. done. }
  destruct (entry_is_Some _ (DistanceMatrix (colony w)) (Z.to_nat b) (Z.to_nat c) HD)
    as [x Hx]; [lia..|].
  eexists _, x. split; [by apply (TourLength_run _ _ _ HD)|]. split; [done|].
  rewrite (TourLength_run _ _ _ HD) by done.
  by rewrite edges_snoc, foldl_app, Hx.
Qed.

(** X9: over a distance matrix without negative or NaN entries,
    [TourLength] of a tour of city indices returns [+0], a positive number
    or [+Inf]: never a negative number, NaN or [-0]. *)
Theorem TourLength_sign w tour :
  wf_colony (colony w) → valid_tour (colony w) tour →
  all_entries nonneg (DistanceMatrix (colony w)) →
  ∃ l, TourLength tour w = Ok (l, w) ∧ sign_clear l ∧ nonneg l.
Proof.
  intros [_ HD] Hv Hnn. unfold valid_tour, len in Hv.
  destruct (tour_length_total _ _ tour 0%float HD Hv) as [l Hl].
  exists l. unfold TourLength. rewrite (bind_run _ _ w (colony w) w) by done.
  rewrite Hl. split; [done|].
  assert (sign_clear l) as Hs by (by apply (tour_length_sign_clear _ _ _ _ Hl Hnn)).
  split; [done | by apply sign_clear_nonneg].
Qed.

(** ** What UpdatePheromones writes to the pheromone matrix *)

Lemma add_at_other p a b x p' i j :
  add_at p a b x = Ok p' → 0 ≤ i → 0 ≤ j → (i, j) ≠ (a, b) →
  entry p' (Z.to_nat i) (Z.to_nat j) = entry p (Z.to_nat i) (Z.to_nat j).
Proof.
  unfold add_at. intros H Hi Hj Hne.
  destruct (index p a) as [row| |] eqn:Hrow; try discriminate. simpl in H.
  destruct (index row b) as [y| |] eqn:Hy; try discriminate. simpl in H.
  destruct (store row b (y + x)%float) as [row'| |] eqn:Hrow'; try discriminate. simpl in H.
  apply index_Ok in Hrow as [Ha Hrow]. apply index_Ok in Hy as [Hb Hy].
  apply store_Ok in Hrow' as [_ ->]. apply store_Ok in H as [_ ->].
  unfold entry. destruct (decide (i = a)) as [->|Hia].
  - rewrite list_lookup_insert_eq by (unfold len in Ha; lia). rewrite Hrow. simpl.
    apply list_lookup_insert_ne. intros Heq. apply Hne. f_equal. lia.
  - rewrite list_lookup_insert_ne by lia. done.
Qed.

Lemma deposit_other amount tour i j : ∀ p p',
  deposit amount p tour = Ok p' → 0 ≤ i → 0 ≤ j →
  ¬ ((i, j) ∈ steps tour ∨ (j, i) ∈ steps tour) →
  entry p' (Z.to_nat i) (Z.to_nat j) = entry p (Z.to_nat i) (Z.to_nat j).
Proof.
  induction tour as [|a [|b rest] IH]; intros p p' H Hi Hj Hoff; simpl in H;
    [by injection H as <-..|].
  destruct (add_at p a b amount) as [p1| |] eqn:H1; try discriminate. simpl in H.
  destruct (add_at p1 b a amount) as [p2| |] eqn:H2; try discriminate. simpl in H.
  change (steps (a :: b :: rest)) with ((a, b) :: steps (b :: rest)) in Hoff.
  rewrite !elem_of_cons in Hoff.
  rewrite (IH _ _ H) by tauto.
  rewrite (add_at_other _ _ _ _ _ _ _ H2), (add_at_other _ _ _ _ _ _ _ H1); try done.
  - intros [= -> ->]. tauto.
  - intros [= -> ->]. tauto.
Qed.

Lemma depositAnts_other ants i j : ∀ w us w',
  forM depositAnt ants w = Ok (us, w') → 0 ≤ i → 0 ≤ j → off_tours ants i j →
  entry (Pheromones (colony w')) (Z.to_nat i) (Z.to_nat j)
  = entry (Pheromones (colony w)) (Z.to_nat i) (Z.to_nat j).
Proof.
  induction ants as [|ant ants IH]; intros w us w' H Hi Hj Hoff; simpl in H.
  - by injection H as <- <-.
  - apply bind_Ok in H as (u & w1 & Hant & H).
    apply bind_Ok in H as (us' & w2 & Hants & [= <- <-]).
    apply Forall_cons in Hoff as [Hoff1 Hoff].
    rewrite (IH _ _ _ Hants) by done.
    unfold depositAnt, TourLength in Hant.
    apply bind_Ok in Hant as (L & w3 & H1 & Hant).
    apply bind_Ok in H1 as (ac & w4 & [= <- <-] & H1). apply lift_Ok in H1 as [_ ->].
    apply bind_Ok in Hant as (ac & w4 & [= <- <-] & Hant).
    apply bind_Ok in Hant as (p & w4 & [Hp ->]%lift_Ok & [= _ <-]). simpl.
    by apply (deposit_other _ _ _ _ _ _ Hp).
Qed.

(** X10: [UpdatePheromones] deposits on the steps of the tours only: an
    entry [i][j] such that no ant steps from [i] to [j] or from [j] to [i]
    is after the call the entry it was multiplied by [1 - rho]. *)
Theorem UpdatePheromones_off_tours ants w w' i j :
  UpdatePheromones ants w = Ok (tt, w') → 0 ≤ i → 0 ≤ j → off_tours ants i j →
  entry (Pheromones (colony w')) (Z.to_nat i) (Z.to_nat j)
  = (λ x, x * (1 - Rho (colony w)))%float
      <$> entry (Pheromones (colony w)) (Z.to_nat i) (Z.to_nat j).
Proof.
  unfold UpdatePheromones. intros H Hi Hj Hoff.
  apply bind_Ok in H as (ac & w1 & [= <- <-] & H).
  apply bind_Ok in H as (u & w1 & [= <- <-] & H).
  apply bind_Ok in H as (us & w2 & H & [= <-]).
  rewrite (depositAnts_other _ _ _ _ _ _ H) by done. simpl. apply entry_evaporate.
Qed.

Lemma UpdatePheromones_run_wf ants w :
  wf_colony (colony w) → Forall (λ ant, valid_tour (colony w) (Tour ant)) ants →
  ∃ w', UpdatePheromones ants w = Ok (tt, w') ∧ wf_colony (colony w')
        ∧ rand w' = rand w.
Proof.
  intros Hwf Hv. destruct (UpdatePheromones_total ants w Hwf Hv) as [w' Hrun].
  exists w'. split; [done|].
  destruct (writes_UpdatePheromones ants _ _ _ Hrun) as (_ & _ & _ & _ & _ & Hc & HD).
  destruct Hwf as [HP HDw]. unfold UpdatePheromones in Hrun.
  apply bind_Ok in Hrun as (ac & w1 & [= <- <-] & Hrun).
  apply bind_Ok in Hrun as (u & w1 & [= <- <-] & Hrun).
  apply bind_Ok in Hrun as (us & w2 & Hrun & [= <-]).
  apply (forM_Forall2 depositAnt (λ _ _, True)
           (λ w1, square (length (Cities (colony w))) (Pheromones (colony w1))
                  ∧ rand w1 = rand w)) in Hrun as [_ [HP' Hr]].
  - split; [|done]. split; rewrite Hc; [done | by rewrite HD].
  - intros ant w3 u' w4 [Hsq Hr] Hant. split; [done|].
    unfold depositAnt, TourLength in Hant.
    apply bind_Ok in Hant as (L & w5 & H1 & Hant).
    apply bind_Ok in H1 as (ac & w6 & [= <- <-] & H1). apply lift_Ok in H1 as [_ ->].
    apply bind_Ok in Hant as (ac & w6 & [= <- <-] & Hant).
    apply bind_Ok in Hant as (p & w6 & [Hp ->]%lift_Ok & [= _ <-]). simpl.
    split; [|done]. clear -Hp Hsq.
    revert Hp Hsq. generalize (Pheromones (colony w3)) as p0.
    induction (Tour ant) as [|a [|b rest] IH]; intros p0 Hp Hsq; simpl in Hp;
      [by injection Hp as <-..|].
    destruct (add_at p0 a b _) as [p1| |] eqn:H1; try discriminate. simpl in Hp.
    destruct (add_at p1 b a _) as [p2| |] eqn:H2; try discriminate. simpl in Hp.
    apply (IH _ Hp). clear IH Hp.
    assert (∀ q q' i j x, add_at q i j x = Ok q' →
              square (length (Cities (colony w))) q → square (length (Cities (colony w))) q')
      as Hadd.
    { clear. intros q q' i j x H [Hl Hrows]. unfold add_at in H.
      destruct (index q i) as [row| |] eqn:Hrow; try discriminate. simpl in H.
      destruct (index row j) as [y| |] eqn:Hy; try discriminate. simpl in H.
      destruct (store row j _) as [row'| |] eqn:Hrow'; try discriminate. simpl in H.
      apply index_Ok in Hrow as [_ Hrow]. apply store_Ok in Hrow' as [_ ->].
      apply store_Ok in H as [_ ->]. split; [by rewrite length_insert|].
      apply Forall_insert; [done|]. rewrite length_insert.
      rewrite Forall_lookup in Hrows. eauto. }
    eauto.
  - split; [|done]. simpl. by apply square_evaporate.
Qed.

(** X11: on a colony with N x N matrices [UpdatePheromones] returns
    without a panic for every list of ants whose tours hold city indices
    only, and both matrices are N x N after it. *)
Theorem UpdatePheromones_shape ants w :
  wf_colony (colony w) → Forall (λ ant, valid_tour (colony w) (Tour ant)) ants →
  ∃ w', UpdatePheromones ants w = Ok (tt, w') ∧ wf_colony (colony w')
        ∧ rand w' = rand w.
Proof. apply UpdatePheromones_run_wf. Qed.

(** ** UpdatePheromones and tours that leave the matrix *)

Lemma index_cases {A} (l : list A) i : index_panic_or_Ok (index l i).
Proof.
  unfold index. case_decide; [|by right].
  destruct (l !! Z.to_nat i); [left; eauto | by right].
Qed.

Lemma store_cases {A} (l : list A) i x : index_panic_or_Ok (store l i x).
Proof. unfold store. case_decide; [left; eauto | by right]. Qed.

Lemma bind_cases {A B} (r : result A) (f : A → result B) :
  index_panic_or_Ok r → (∀ a, index_panic_or_Ok (f a)) → index_panic_or_Ok (r ≫= f).
Proof. intros [[a ->]| ->] Hf; [apply Hf | by right]. Qed.

Lemma tour_length_cases d tour : ∀ acc, index_panic_or_Ok (tour_length d tour acc).
Proof.
  induction tour as [|a [|b rest] IH]; intros acc; [left; eauto..|].
  apply bind_cases; [apply index_cases|]. intros row.
  apply bind_cases; [apply index_cases|]. intros x. apply IH.
Qed.

Lemma add_at_cases p i j x : index_panic_or_Ok (add_at p i j x).
Proof.
  unfold add_at. apply bind_cases; [apply index_cases|]. intros row.
  apply bind_cases; [apply index_cases|]. intros y.
  apply bind_cases; [apply store_cases|]. intros row'. apply store_cases.
Qed.

Lemma deposit_cases amount tour : ∀ p, index_panic_or_Ok (deposit amount p tour).
Proof.
  induction tour as [|a [|b rest] IH]; intros p; [left; eauto..|].
  apply bind_cases; [apply add_at_cases|]. intros p1.
  apply bind_cases; [apply add_at_cases|]. intros p2. apply IH.
Qed.

(** The deposit for one ant returns with the distance matrix as it was,
    or panics on an index. *)
Lemma depositAnt_cases ant w :
  (∃ w', depositAnt ant w = Ok (tt, w')
         ∧ DistanceMatrix (colony w') = DistanceMatrix (colony w))
  ∨ depositAnt ant w = Panic "index out of range".
Proof.
  unfold depositAnt, TourLength, getColony, setPheromones, mbind, Go_bind.
  destruct (tour_length_cases (DistanceMatrix (colony w)) (Tour ant) 0%float) as [[L ->]| ->];
    [|by right]. simpl.
  destruct (deposit_cases (Q (colony w) / L)%float (Tour ant) (Pheromones (colony w)))
    as [[p ->]| ->]; [|by right]. simpl. left. eauto.
Qed.

(** X12: on an N x N distance matrix, [UpdatePheromones] panics with an
    index out of range as soon as one of the ants carries a tour of two or
    more entries with an entry outside 0..N-1, such as the sentinel -1. *)
Theorem UpdatePheromones_out_of_range n ants w :
  square n (DistanceMatrix (colony w)) →
  Exists (λ ant, (2 ≤ length (Tour ant))%nat
                 ∧ Exists (λ c, ¬ 0 ≤ c < Z.of_nat n) (Tour ant)) ants →
  UpdatePheromones ants w = Panic "index out of range".
Proof.
  intros Hsq Hbad. unfold UpdatePheromones.
  rewrite (bind_run _ _ w (colony w) w) by done.
  set (w1 := mkWorld (mkAntColony (NumAnts (colony w)) (Alpha (colony w)) (Beta (colony w))
                        (Rho (colony w)) (Q (colony w)) (Cities (colony w))
                        (evaporate (Rho (colony w)) (Pheromones (colony w)))
                        (DistanceMatrix (colony w))) (rand w)).
  rewrite (bind_run _ _ w tt w1) by done.
  assert (square n (DistanceMatrix (colony w1))) as Hsq1 by done.
  clearbody w1. clear Hsq. unfold mbind, Go_bind.
  enough (forM depositAnt ants w1 = Panic "index out of range") as -> by done.
  revert w1 Hsq1. induction Hbad as [ant ants [Hlen Hc]|ant ants _ IH]; intros w1 Hsq1.
  - assert (depositAnt ant w1 = Panic "index out of range") as Hant.
    { unfold depositAnt, TourLength, getColony, mbind, Go_bind.
      by rewrite (tour_length_out_of_range n). }
    simpl. unfold mbind at 1, Go_bind at 1. by rewrite Hant.
  - simpl. unfold mbind at 1, Go_bind at 1.
    destruct (depositAnt_cases ant w1) as [(w2 & -> & HD)| ->]; [|done].
    unfold mbind at 1, Go_bind at 1. rewrite IH; [done|]. by rewrite HD.
Qed.

(** ** Distance *)

(** X13: [Distance] is symmetric: from [a] to [b] and from [b] to [a] it
    returns the same float64 value, for all coordinates (infinities and
    NaN included). *)
Theorem Distance_symmetric a b : Distance a b = Distance b a.
Proof. apply Distance_sym. Qed.

(** X14: between two points with finite coordinates [Distance] returns
    [+0], a positive number or [+Inf] (when the squares overflow): never a
    negative number, NaN or [-0]. *)
Theorem Distance_nonneg a b :
  is_finite (X a) = true → is_finite (Y a) = true →
  is_finite (X b) = true → is_finite (Y b) = true →
  sign_clear (Distance a b) ∧ nonneg (Distance a b).
Proof.
  intros. assert (sign_clear (Distance a b)) by (by apply Distance_sign_clear).
  split; [done | by apply sign_clear_nonneg].
Qed.

Lemma float_sub_diag x :
  (x - x)%float = if is_finite x then 0%float else nan.
Proof.
  apply Prim2SF_inj. rewrite sub_spec, is_finite_SF.
  destruct (Prim2SF x) as [[]|[]| |s m e]; try reflexivity.
  unfold SF64sub, SFsub. cbv zeta. by rewrite Z.sub_diag.
Qed.

Lemma Distance_diag a :
  Distance a a = if is_finite (X a) && is_finite (Y a) then 0%float else nan.
Proof.
  unfold Distance. cbv zeta. rewrite !float_sub_diag.
  destruct (is_finite (X a)), (is_finite (Y a)); reflexivity.
Qed.

(** X15: the distance from a point to itself is 0 when both coordinates
    are finite, and NaN when a coordinate is an infinity or NaN. *)
Theorem Distance_self a :
  Distance a a = if is_finite (X a) && is_finite (Y a) then 0%float else nan.
Proof. apply Distance_diag. Qed.

(** ** NewAntColony *)





(** ** InitializeAnts *)

Lemma forM_newAnt k w :
  0 < len (Cities (colony w)) →
  forM (λ _ : unit, newAnt) (replicate k tt) w =
  Ok ((λ i, started (length (Cities (colony w)))
              (ints (rand w) (cursor (rand w) + i) `mod` len (Cities (colony w))))
        <$> seq 0 k,
      mkWorld (colony w)
        (mkRand (ints (rand w)) (floats (rand w)) (cursor (rand w) + k))).
Proof.
  revert w. induction k as [|k IH]; intros w HN.
  - simpl. unfold mret, Go_ret. destruct w as [ac [is_ fs c]]. simpl.
    by rewrite Nat.add_0_r.
  - cbn [replicate forM].
    rewrite (bind_run _ _ _ _ _ (newAnt_run w HN)).
    rewrite (bind_run _ _ _ _ _ (IH (mkWorld (colony w) (advance (rand w))) HN)).
    unfold mret, Go_ret. simpl.
    f_equal. f_equal.
    + f_equal.
      * unfold start_of. by rewrite Nat.add_0_r.
      * rewrite <- fmap_S_seq, <- list_fmap_compose. apply list_fmap_ext.
        intros _ i _. simpl. by rewrite Nat.add_succ_r.
    + f_equal. f_equal. lia.
Qed.

Lemma InitializeAnts_run w :
  0 ≤ NumAnts (colony w) → 8 * NumAnts (colony w) ≤ maxAlloc →
  0 < len (Cities (colony w)) →
  InitializeAnts w =
  Ok ((λ k, started (length (Cities (colony w)))
              (ints (rand w) (cursor (rand w) + k) `mod` len (Cities (colony w))))
        <$> seq 0 (Z.to_nat (NumAnts (colony w))),
      mkWorld (colony w)
        (mkRand (ints (rand w)) (floats (rand w))
           (cursor (rand w) + Z.to_nat (NumAnts (colony w))))).
Proof.
  intros Hn Hmax HN. unfold InitializeAnts.
  rewrite (bind_run _ _ w (colony w) w) by done.
  case_decide; [lia|]. by apply forM_newAnt.
Qed.

(** X19: on a colony with at least one city and a number of ants that
    the runtime can allocate ([NumAnts >= 0], and the [NumAnts] pointers
    of 8 bytes take no more than [maxAlloc] bytes), [InitializeAnts]
    returns exactly [NumAnts] ants, consumes exactly [NumAnts] integer
    draws of the random source and no float draw, and leaves the colony
    as it is; the k-th ant starts at the k-th draw reduced modulo the
    number of cities and has only that city marked visited. *)
Theorem InitializeAnts_draws w :
  0 ≤ NumAnts (colony w) → 8 * NumAnts (colony w) ≤ maxAlloc →
  0 < len (Cities (colony w)) →
  InitializeAnts w =
  Ok ((λ k, started (length (Cities (colony w)))
              (ints (rand w) (cursor (rand w) + k) `mod` len (Cities (colony w))))
        <$> seq 0 (Z.to_nat (NumAnts (colony w))),
      mkWorld (colony w)
        (mkRand (ints (rand w)) (floats (rand w))
           (cursor (rand w) + Z.to_nat (NumAnts (colony w))))).
Proof. apply InitializeAnts_run. Qed.

(** X20: [InitializeAnts] panics in exactly these cases: with the
    message of [makeslice] when [NumAnts] is negative or so large that the
    slice of ants exceeds what the runtime allocates ([8 * NumAnts] above
    [maxAlloc]), whatever the cities; and with the message of
    [rand.Intn(0)] when there is at least one ant to create, within that
    limit, but no city. In every other case, [NumAnts = 0] with no city
    included, it returns. *)
Theorem InitializeAnts_panics w msg :
  InitializeAnts w = Panic msg ↔
  ((NumAnts (colony w) < 0 ∨ maxAlloc < 8 * NumAnts (colony w))
   ∧ msg = "makeslice: len out of range")
  ∨ (0 < NumAnts (colony w) ∧ 8 * NumAnts (colony w) ≤ maxAlloc
     ∧ Cities (colony w) = [] ∧ msg = "invalid argument to Intn").
Proof.
  destruct (decide (NumAnts (colony w) < 0 ∨ maxAlloc < 8 * NumAnts (colony w)))
    as [Hbad|Hok].
  { unfold InitializeAnts. rewrite (bind_run _ _ w (colony w) w) by done.
    case_decide; [|done]. simpl. split.
    - intros [= <-]. by left.
    - intros [[_ ->]|(? & ? & _)]; [done|lia]. }
  assert (0 ≤ NumAnts (colony w) ∧ 8 * NumAnts (colony w) ≤ maxAlloc) as [Hn Hmax] by lia.
  destruct (decide (0 < len (Cities (colony w)))) as [HN|HN].
  { rewrite InitializeAnts_run by done. split; [done|].
    intros [[? _]|(_ & _ & Hc & _)]; [lia|]. rewrite Hc in HN. unfold len in HN.
    simpl in HN. lia. }
  assert (Cities (colony w) = []) as Hc.
  { destruct (Cities (colony w)); [done|]. unfold len in HN. rewrite length_cons in HN. lia. }
  unfold InitializeAnts. rewrite (bind_run _ _ w (colony w) w) by done.
  case_decide; [done|].
  destruct (Z.to_nat (NumAnts (colony w))) as [|k] eqn:Hk.
  - simpl. split; [done|]. intros [[? _]|(? & _)]; lia.
  - assert (newAnt w = Panic "invalid argument to Intn") as Hant.
    { unfold newAnt, getColony, Intn, mbind, Go_bind. rewrite Hc. done. }
    cbn [replicate forM]. unfold mbind at 1, Go_bind at 1. rewrite Hant. split.
    + intros [= <-]. right. split_and!; [lia|done..].
    + intros [[? _]|(_ & _ & _ & ->)]; [lia|done].
Qed.

(** ** The roulette value never exceeds the weight sum *)

(** A positive float below 1, as mantissa and exponent: the exponent is
    negative and the mantissa is below [2 ^ -e]. *)
Lemma float_below_one m e :
  valid_binary (S754_finite false m e) = true →
  SFltb (S754_finite false m e) (Prim2SF 1) = true →
  e < 0 ∧ Z.pos m < 2 ^ (- e).
Proof.
  rewrite SF_one. intros Hv Hlt. unfold SFltb, SFcompare in Hlt.
  simpl in Hv. unfold bounded, canonical_mantissa in Hv. apply andb_prop in Hv as [Hcan _].
  apply Z.eqb_eq in Hcan. unfold fexp, SpecFloat.emin, prec, emax in Hcan.
  pose proof (digits2_bounds m) as [Hlo Hhi].
  assert (Z.pos m < 2 ^ 53) as Hm.
  { eapply Z.lt_le_trans; [exact Hhi|]. apply Z.pow_le_mono_r; lia. }
  destruct (Z.compare_spec e (-52)) as [->|He|He]; [| |discriminate Hlt].
  - rewrite Pos.compare_cont_spec in Hlt. simpl in Hlt.
    destruct (Pos.compare_spec m 4503599627370496) as [Heq|Hl|Hg];
      [discriminate Hlt| |discriminate Hlt].
    apply Pos2Z.pos_lt_pos in Hl. split; [done|]. exact Hl.
  - split; [lia|]. eapply Z.lt_le_trans; [exact Hm|]. apply Z.pow_le_mono_r; lia.
Qed.

(** Rounding a product below [ms * 2 ^ es], for a canonical [(ms, es)],
    yields a zero or a finite number that is not above [(ms, es)]. *)
Lemma binary_round_aux_le M E ms es lx :
  0 < M → E < es → M < Z.pos ms * 2 ^ (es - E) →
  bounded prec emax ms es = true →
  binary_round_aux prec emax false M E lx = S754_zero false
  ∨ ∃ m3 e3, binary_round_aux prec emax false M E lx = S754_finite false m3 e3
             ∧ e3 ≤ es ∧ Z.pos m3 ≤ Z.pos ms * 2 ^ (es - e3).
Proof.
  intros HM HE Hlt Hb. unfold bounded, canonical_mantissa in Hb.
  apply andb_prop in Hb as [Hcan Hes]. apply Z.eqb_eq in Hcan. apply Z.leb_le in Hes.
  pose proof (digits2_bounds ms) as [Hslo Hshi]. set (ds := Z.pos (digits2_pos ms)) in *.
  assert (∀ m e, 0 < m → e ≤ es → m ≤ Z.pos ms * 2 ^ (es - e) →
                 fexp prec emax (Zdigits2 m + e) ≤ es) as Hfexp.
  { intros m e Hm He Hle.
    assert (Zdigits2 m ≤ ds + (es - e)) as Hd.
    { apply Zdigits2_le; [done| |lia]. rewrite Z.pow_add_r by lia.
      assert (0 < 2 ^ (es - e)) by (apply Z.pow_pos_nonneg; lia). nia. }
    rewrite <- Hcan. unfold fexp. lia. }
  unfold binary_round_aux.
  destruct (shr_fexp_m M E lx) as [Hm1 He1]; [lia|].
  destruct (shr_fexp prec emax M E lx) as [mrs1 e1]. simpl in Hm1, He1.
  set (m2 := round_nearest_even (shr_m mrs1) (loc_of_shr_record mrs1)).
  pose proof (round_nearest_even_bounds (shr_m mrs1) (loc_of_shr_record mrs1)) as Hrne.
  fold m2 in Hrne. clearbody m2.
  assert (fexp prec emax (Zdigits2 M + E) ≤ es) as HfM by (apply Hfexp; lia).
  assert (e1 ≤ es ∧ 0 ≤ shr_m mrs1 < Z.pos ms * 2 ^ (es - e1)) as (He1' & Hm1lo & Hm1').
  { case_decide as Hn; subst e1; [|rewrite Hm1; lia].
    set (n := fexp prec emax (Zdigits2 M + E) - E) in *.
    assert (0 < 2 ^ n) by (apply Z.pow_pos_nonneg; lia).
    split; [lia|]. rewrite Hm1. split; [apply Z.div_pos; lia|].
    apply Z.div_lt_upper_bound; [done|].
    replace (es - E) with (es - (E + n) + n) in Hlt by lia.
    rewrite Z.pow_add_r in Hlt by lia. lia. }
  assert (0 ≤ m2 ≤ Z.pos ms * 2 ^ (es - e1)) as Hm2 by lia.
  destruct (shr_fexp_m m2 e1 loc_Exact) as [Hm3 He3]; [lia|].
  destruct (shr_fexp prec emax m2 e1 loc_Exact) as [mrs3 e3]. simpl in Hm3, He3.
  destruct (decide (m2 = 0)) as [Hz|Hnz].
  { assert (shr_m mrs3 = 0) as ->; [|by left].
    rewrite Hm3. case_decide as Hn; [|exact Hz]. rewrite Hz in Hn |- *. apply Z.div_small.
    split; [done|]. apply Z.pow_pos_nonneg; lia. }
  assert (fexp prec emax (Zdigits2 m2 + e1) ≤ es) as Hf2 by (apply Hfexp; lia).
  assert (e3 ≤ es ∧ 0 ≤ shr_m mrs3 ≤ Z.pos ms * 2 ^ (es - e3)) as (He3' & Hm3lo & Hm3').
  { case_decide as Hn; subst e3; [|rewrite Hm3; lia].
    set (n := fexp prec emax (Zdigits2 m2 + e1) - e1) in *.
    assert (0 < 2 ^ n) by (apply Z.pow_pos_nonneg; lia).
    split; [lia|]. rewrite Hm3. split; [apply Z.div_pos; lia|].
    apply Z.div_le_upper_bound; [done|].
    destruct Hm2 as [_ Hm2]. replace (es - e1) with (es - (e1 + n) + n) in Hm2 by lia.
    rewrite Z.pow_add_r in Hm2 by lia. lia. }
  destruct (shr_m mrs3) as [|m3|m3] eqn:Hs3; [by left| |lia].
  right. exists m3, e3.
  assert ((e3 <=? emax - prec) = true) as -> by (apply Z.leb_le; lia). done.
Qed.

(** [r * s <= s] in float64 for every [r] in [[0, 1)] and every finite
    non-negative [s]: rounding to nearest cannot carry the product above
    [s]. *)
Lemma float_mul_unit_le r s :
  (0 <=? r)%float = true → (r <? 1)%float = true →
  nonneg s → is_finite s = true → (r * s <=? s)%float = true.
Proof.
  unfold nonneg. rewrite !FloatAxioms.leb_spec, FloatAxioms.ltb_spec, is_finite_SF, mul_spec, SF_zero.
  pose proof (Prim2SF_valid r) as Hvr. pose proof (Prim2SF_valid s) as Hvs.
  destruct (Prim2SF r) as [sr|[]| |[] mr er] eqn:Hr; try discriminate;
    destruct (Prim2SF s) as [ss|[]| |[] ms es] eqn:Hs; try discriminate;
    intros _ Hlt _ _; try reflexivity.
  destruct (float_below_one mr er Hvr Hlt) as [Her Hmr].
  simpl in Hvs. unfold SF64mul, SFmul. simpl xorb.
  destruct (binary_round_aux_le (Z.pos (mr * ms)) (er + es) ms es loc_Exact)
    as [->|(m3 & e3 & -> & He3 & Hm3)]; [lia|lia| |done|done|].
  { replace (es - (er + es)) with (- er) by lia. rewrite Pos2Z.inj_mul. nia. }
  unfold SFleb, SFcompare.
  destruct (Z.compare_spec e3 es) as [->|?|?]; [|done|lia].
  rewrite Z.sub_diag, Z.mul_1_r in Hm3. rewrite Pos.compare_cont_spec. simpl.
  destruct (Pos.compare_spec m3 ms); [done|done|lia].
Qed.

(** ** What NextCity returns *)

Lemma float_add_nan x y :
  Prim2SF x = S754_nan ∨ Prim2SF y = S754_nan → Prim2SF (x + y) = S754_nan.
Proof.
  rewrite add_spec. intros [->| ->]; [done|].
  by destruct (Prim2SF x) as [s|s| |s m e].
Qed.

Lemma float_mul_nan x y : Prim2SF y = S754_nan → Prim2SF (x * y) = S754_nan.
Proof. rewrite mul_spec. intros ->. by destruct (Prim2SF x) as [s|s| |s m e]. Qed.

Lemma float_leb_nan x y : Prim2SF x = S754_nan → (x <=? y)%float = false.
Proof. rewrite FloatAxioms.leb_spec. by intros ->. Qed.

Lemma unit_interval_range f :
  (0 <=? unit_interval f)%float = true ∧ (unit_interval f <? 1)%float = true.
Proof.
  unfold unit_interval. destruct ((0 <=? f)%float && (f <? 1)%float) eqn:E.
  - by apply andb_prop in E.
  - done.
Qed.

Lemma elem_of_range {A} (l : list A) i : i ∈ range l ↔ 0 ≤ i < len l.
Proof. unfold range. rewrite elem_of_seqZ. unfold len. lia. Qed.

Section Roulette.

Variable Pow : float → float → float.
Variables (ac : AntColony) (ant : Ant) (pher : list float) (c : Z).

Lemma weightSum_from :
  weightSum Pow ac ant pher c = weightFrom Pow ac ant pher c 0%float (range (Cities ac)).
Proof. reflexivity. Qed.

Lemma weightFrom_cons cum a l :
  weightFrom Pow ac ant pher c cum (a :: l) =
  weightFrom Pow ac ant pher c
    (if visited ant a then cum else (cum + weight Pow ac pher c a)%float) l.
Proof. reflexivity. Qed.

Lemma total_all_visited l cum :
  Forall (λ i, visited ant i = true) l → weightFrom Pow ac ant pher c cum l = cum.
Proof.
  intros H. revert cum. induction H as [|a l Ha _ IH]; intros cum; [done|].
  rewrite weightFrom_cons, Ha. apply IH.
Qed.

Lemma unvisited_or_all (l : list Z) :
  Forall (λ i, visited ant i = true) l ∨ ∃ i, i ∈ l ∧ visited ant i = false.
Proof.
  induction l as [|a l [IH|(i & Hi & Hvi)]].
  - left. constructor.
  - destruct (visited ant a) eqn:Ha.
    + left. by constructor.
    + right. exists a. split; [by left | done].
  - right. exists i. split; [by right | done].
Qed.

(** The cumulative weight of the second loop runs through the same sums
    as the first loop: a roulette value that does not exceed the final
    sum is reached at an unvisited city. *)
Lemma pick_reaches roulette l : ∀ cum,
  (roulette <=? weightFrom Pow ac ant pher c cum l)%float = true →
  (∃ i, i ∈ l ∧ visited ant i = false) →
  pick Pow ac ant pher c roulette l cum ∈ l
  ∧ visited ant (pick Pow ac ant pher c roulette l cum) = false.
Proof.
  induction l as [|a l IH]; intros cum Hle (i & Hi & Hvi).
  - by apply elem_of_nil in Hi.
  - rewrite weightFrom_cons in Hle. simpl. destruct (visited ant a) eqn:Hva.
    + destruct (IH cum Hle) as [Hin Hv].
      { apply elem_of_cons in Hi as [->|Hi]; [congruence | eauto]. }
      split; [by right | done].
    + destruct (roulette <=? cum + weight Pow ac pher c a)%float eqn:Hr.
      { split; [by left | done]. }
      destruct (unvisited_or_all l) as [Hall|Hex].
      * exfalso. rewrite total_all_visited in Hle by done. congruence.
      * destruct (IH _ Hle Hex) as [Hin Hv]. split; [by right | done].
Qed.

Lemma pick_nan roulette l : ∀ cum,
  Prim2SF roulette = S754_nan → pick Pow ac ant pher c roulette l cum = -1.
Proof.
  induction l as [|a l IH]; intros cum Hr; simpl; [done|].
  destruct (visited ant a); [by apply IH|].
  rewrite (float_leb_nan _ _ Hr). by apply IH.
Qed.

Lemma total_nan i l : ∀ cum,
  (i ∈ l ∧ visited ant i = false ∧ Prim2SF (weight Pow ac pher c i) = S754_nan)
  ∨ Prim2SF cum = S754_nan →
  Prim2SF (weightFrom Pow ac ant pher c cum l) = S754_nan.
Proof.
  induction l as [|a l IH]; intros cum [(Hi & Hvi & Hw)|Hcum].
  - by apply elem_of_nil in Hi.
  - done.
  - rewrite weightFrom_cons. apply elem_of_cons in Hi as [<-|Hi].
    + rewrite Hvi. apply IH. right. apply float_add_nan. by right.
    + apply IH. by left.
  - rewrite weightFrom_cons. apply IH. right.
    destruct (visited ant a); [done|]. apply float_add_nan. by left.
Qed.

End Roulette.

Lemma NextCity_pick Pow w ant c pher :
  wf_colony (colony w) → index (Tour ant) (len (Tour ant) - 1) = Ok c →
  index (Pheromones (colony w)) c = Ok pher →
  0 ≤ c < len (Cities (colony w)) ∧
  NextCity Pow ant w =
  Ok (pick Pow (colony w) ant pher c
        (unit_interval (floats (rand w) (cursor (rand w)))
         * weightSum Pow (colony w) ant pher c)
        (range (Cities (colony w))) 0%float,
      mkWorld (colony w) (advance (rand w))).
Proof.
  intros Hwf Hcur Hrow.
  assert (0 ≤ c < len (Cities (colony w))) as Hc.
  { apply index_Ok in Hrow as [Hc _]. destruct Hwf as [[HP _] _]. unfold len in *. lia. }
  split; [done|].
  destruct (NextCity_run Pow w ant c Hwf Hcur Hc) as (pher' & Hrow' & Hrun).
  rewrite Hrow in Hrow'. by injection Hrow' as <-.
Qed.

(** X21: when the weight of an unvisited city is NaN (as [0 * +Inf] is),
    the weight sum and the roulette value are NaN, no comparison of the
    second loop succeeds and [NextCity] returns [-1], for every random
    draw. *)
Theorem NextCity_nan_weight Pow ant w c pher i :
  wf_colony (colony w) → index (Tour ant) (len (Tour ant) - 1) = Ok c →
  index (Pheromones (colony w)) c = Ok pher →
  0 ≤ i < len (Cities (colony w)) → visited ant i = false →
  is_nan (weight Pow (colony w) pher c i) = true →
  NextCity Pow ant w = Ok (-1, mkWorld (colony w) (advance (rand w))).
Proof.
  intros Hwf Hcur Hrow Hi Hvi Hnan.
  destruct (NextCity_pick Pow w ant c pher Hwf Hcur Hrow) as [_ ->].
  rewrite pick_nan; [done|]. apply float_mul_nan. rewrite weightSum_from.
  apply (total_nan Pow (colony w) ant pher c i). left. split_and!; [|done|by apply is_nan_SF].
  by apply elem_of_range.
Qed.

(** X22: when the ant has a city left to visit and the weight sum of the
    first loop is a non-negative finite number, [NextCity] returns the
    index of an unvisited city, never [-1], for every random draw: the
    roulette value [r * sum] with [r] in [[0, 1)] does not exceed [sum] in
    float64, and the cumulative weight of the second loop ends at [sum]. *)
Theorem NextCity_selects Pow ant w c pher :
  wf_colony (colony w) → index (Tour ant) (len (Tour ant) - 1) = Ok c →
  index (Pheromones (colony w)) c = Ok pher →
  (∃ i, 0 ≤ i < len (Cities (colony w)) ∧ visited ant i = false) →
  nonneg (weightSum Pow (colony w) ant pher c) →
  is_finite (weightSum Pow (colony w) ant pher c) = true →
  ∃ i, NextCity Pow ant w = Ok (i, mkWorld (colony w) (advance (rand w)))
       ∧ 0 ≤ i < len (Cities (colony w)) ∧ visited ant i = false.
Proof.
  intros Hwf Hcur Hrow (i & Hi & Hvi) Hnn Hfin.
  destruct (NextCity_pick Pow w ant c pher Hwf Hcur Hrow) as [_ ->].
  eexists. split; [done|].
  destruct (unit_interval_range (floats (rand w) (cursor (rand w)))) as [H0 H1].
  destruct (pick_reaches Pow (colony w) ant pher c
              (unit_interval (floats (rand w) (cursor (rand w)))
               * weightSum Pow (colony w) ant pher c)
              (range (Cities (colony w))) 0%float) as [Hin Hv].
  - by apply float_mul_unit_le.
  - exists i. split; [|done]. by apply elem_of_range.
  - split; [|done]. by apply elem_of_range in Hin.
Qed.

(** X23: when the weight sum is [+Inf] (an unvisited city at distance 0
    with a positive pheromone weight), the result depends on the draw: a
    positive draw gives the roulette value [+Inf] and [NextCity] returns
    an unvisited city, the draw 0 gives [0 * +Inf = NaN] and [NextCity]
    returns [-1]. *)
Theorem NextCity_infinite_sum Pow ant w c pher :
  wf_colony (colony w) → index (Tour ant) (len (Tour ant) - 1) = Ok c →
  index (Pheromones (colony w)) c = Ok pher →
  weightSum Pow (colony w) ant pher c = infinity →
  ∃ i, NextCity Pow ant w = Ok (i, mkWorld (colony w) (advance (rand w)))
       ∧ if (0 <? unit_interval (floats (rand w) (cursor (rand w))))%float
         then 0 ≤ i < len (Cities (colony w)) ∧ visited ant i = false
         else i = -1.
Proof.
  intros Hwf Hcur Hrow Hsum.
  destruct (NextCity_pick Pow w ant c pher Hwf Hcur Hrow) as [_ ->].
  eexists. split; [done|]. rewrite Hsum.
  destruct (unit_interval_range (floats (rand w) (cursor (rand w)))) as [H0 H1].
  set (r := unit_interval _) in *.
  rewrite FloatAxioms.leb_spec, SF_zero in H0. rewrite FloatAxioms.ltb_spec, SF_one in H1.
  rewrite FloatAxioms.ltb_spec, SF_zero.
  destruct (Prim2SF r) as [s|[]| |[] m e] eqn:Hr; try discriminate.
  - apply pick_nan. by rewrite mul_spec, Hr, SF_infinity.
  - assert ((r * infinity)%float = infinity) as ->.
    { apply Prim2SF_inj. by rewrite mul_spec, Hr, SF_infinity. }
    destruct (unvisited_or_all ant (range (Cities (colony w)))) as [Hall|Hex].
    + exfalso. rewrite weightSum_from in Hsum.
      by rewrite (total_all_visited Pow (colony w) ant pher c) in Hsum.
    + destruct (pick_reaches Pow (colony w) ant pher c infinity
                  (range (Cities (colony w))) 0%float) as [Hin Hv]; [|done|].
      * rewrite weightSum_from in Hsum. by rewrite Hsum.
      * simpl. split; [|done]. by apply elem_of_range in Hin.
Qed.

(** ** The loop of main *)

Lemma iteration_run Pow w :
  wf_colony (colony w) → 0 ≤ NumAnts (colony w) → 8 * NumAnts (colony w) ≤ maxAlloc →
  0 < len (Cities (colony w)) →
  ∃ p, iteration Pow w =
       Ok (tt, mkWorld (mkAntColony (NumAnts (colony w)) (Alpha (colony w)) (Beta (colony w))
                          (Rho (colony w)) (Q (colony w)) (Cities (colony w)) p
                          (DistanceMatrix (colony w)))
                 (drawn (Z.to_nat (NumAnts (colony w))) (rand w)))
       ∧ square (length (Cities (colony w))) p.
Proof.
  intros Hwf Hn Hmax HN. pose proof (InitializeAnts_run w Hn Hmax HN) as Hinit.
  pose proof (AntsMove_InitializeAnts Pow _ _ _ Hinit) as Hmove.
  set (ants := _ <$> seq 0 _) in *. set (w1 := mkWorld (colony w) _) in *.
  destruct (UpdatePheromones_run_wf ants w1) as (w2 & Hupd & [HP _] & Hrand); [done| |].
  { apply Forall_fmap, Forall_forall. intros k _. simpl. apply started_valid.
    by apply Z.mod_pos_bound. }
  destruct (writes_UpdatePheromones ants _ _ _ Hupd) as (H1 & H2 & H3 & H4 & H5 & H6 & H7).
  exists (Pheromones (colony w2)). split; [|by rewrite H6 in HP].
  unfold iteration. rewrite (bind_run _ _ _ _ _ Hinit), (bind_run _ _ _ _ _ Hmove), Hupd.
  destruct w2 as [[n a b r q cs p D] g2]. simpl in *. by subst.
Qed.

Lemma iterations_run Pow n : ∀ w,
  wf_colony (colony w) → 0 ≤ NumAnts (colony w) → 8 * NumAnts (colony w) ≤ maxAlloc →
  0 < len (Cities (colony w)) →
  ∃ p, iterations Pow n w =
       Ok (tt, mkWorld (mkAntColony (NumAnts (colony w)) (Alpha (colony w)) (Beta (colony w))
                          (Rho (colony w)) (Q (colony w)) (Cities (colony w)) p
                          (DistanceMatrix (colony w)))
                 (drawn (n * Z.to_nat (NumAnts (colony w))) (rand w)))
       ∧ square (length (Cities (colony w))) p.
Proof.
  induction n as [|n IH]; intros w Hwf Hn Hmax HN.
  - exists (Pheromones (colony w)). split; [|by destruct Hwf].
    destruct w as [[k a b r q cs p D] [is_ fs c]]. simpl. unfold mret, Go_ret, drawn. simpl.
    by rewrite Nat.add_0_r.
  - destruct (iteration_run Pow w Hwf Hn Hmax HN) as (p1 & Hrun & Hp1).
    cbn [iterations]. rewrite (bind_run _ _ _ _ _ Hrun).
    destruct (IH (mkWorld (mkAntColony (NumAnts (colony w)) (Alpha (colony w))
                            (Beta (colony w)) (Rho (colony w)) (Q (colony w))
                            (Cities (colony w)) p1 (DistanceMatrix (colony w)))
                   (drawn (Z.to_nat (NumAnts (colony w))) (rand w))))
      as (p & Hrest & Hp); [|done|done|done|].
    { split; [done | by destruct Hwf]. }
    exists p. split; [|done]. rewrite Hrest. simpl. unfold drawn. simpl.
    do 4 f_equal. lia.
Qed.

(** X24: on a colony with N x N matrices, at least one city and a number
    of ants that the runtime can allocate ([NumAnts >= 0] and
    [8 * NumAnts] within [maxAlloc]), any number [n] of passes of the loop
    of [main] (InitializeAnts, AntsMove, UpdatePheromones) runs without a
    panic, for every
    implementation of [math.Pow] and every random source; it draws exactly
    [n * NumAnts] integers and no float (AntsMove never asks for a next
    city), and only the pheromone matrix differs afterwards, which is
    still N x N. *)
Theorem iterations_draws Pow n w :
  wf_colony (colony w) → 0 ≤ NumAnts (colony w) → 8 * NumAnts (colony w) ≤ maxAlloc →
  0 < len (Cities (colony w)) →
  ∃ p, iterations Pow n w =
       Ok (tt, mkWorld (mkAntColony (NumAnts (colony w)) (Alpha (colony w)) (Beta (colony w))
                          (Rho (colony w)) (Q (colony w)) (Cities (colony w)) p
                          (DistanceMatrix (colony w)))
                 (drawn (n * Z.to_nat (NumAnts (colony w))) (rand w)))
       ∧ square (length (Cities (colony w))) p.
Proof. apply iterations_run. Qed.

(** ** The output of main *)

Lemma main_cities_points : main_cities = Some <$> main_points.
Proof. reflexivity. Qed.

Lemma start_cases s : 0 ≤ s < 5 → s = 0 ∨ s = 1 ∨ s = 2 ∨ s = 3 ∨ s = 4.
Proof. lia. Qed.

(** The tour of an ant of [InitializeAnts] in [main] is its start city
    followed by four times city 0: its length is the distance from the
    start city to city 0. *)
Lemma main_TourLength s w :
  DistanceMatrix (colony w) = distances main_points → 0 ≤ s < 5 →
  TourLength (Tour (started 5 s)) w = Ok (start_length s, w).
Proof.
  intros HD Hs. unfold TourLength. rewrite (bind_run _ _ w (colony w) w) by done.
  rewrite HD.
  assert (tour_length (distances main_points) (Tour (started 5 s)) 0 = Ok (start_length s))
    as ->; [|done].
  destruct (start_cases s Hs) as [->|[->|[->|[->| ->]]]]; vm_compute; reflexivity.
Qed.

Lemma start_length_ltb s m :
  0 ≤ s < 5 → 0 ≤ m < 5 →
  (start_length s <? start_length m)%float = bool_decide (s < m).
Proof.
  intros Hs Hm.
  destruct (start_cases s Hs) as [->|[->|[->|[->| ->]]]];
    destruct (start_cases m Hm) as [->|[->|[->|[->| ->]]]]; vm_compute; reflexivity.
Qed.

Lemma start_length_finite s :
  0 ≤ s < 5 → (start_length s <? infinity)%float = true.
Proof.
  intros Hs. destruct (start_cases s Hs) as [->|[->|[->|[->| ->]]]]; vm_compute; reflexivity.
Qed.

Lemma best_first s w :
  DistanceMatrix (colony w) = distances main_points → 0 ≤ s < 5 →
  best (replicate 5 0, infinity) (started 5 s) w
  = Ok (([s; 0; 0; 0; 0], start_length s), w).
Proof.
  intros HD Hs. unfold best. rewrite (bind_run _ _ _ _ _ (main_TourLength s w HD Hs)).
  cbn [fst snd]. by rewrite start_length_finite.
Qed.

Lemma best_step m s w :
  DistanceMatrix (colony w) = distances main_points → 0 ≤ m < 5 → 0 ≤ s < 5 →
  best ([m; 0; 0; 0; 0], start_length m) (started 5 s) w
  = Ok (([Z.min m s; 0; 0; 0; 0], start_length (Z.min m s)), w).
Proof.
  intros HD Hm Hs. unfold best. rewrite (bind_run _ _ _ _ _ (main_TourLength s w HD Hs)).
  cbn [fst snd]. rewrite start_length_ltb by done. case_bool_decide.
  - rewrite Z.min_r by lia. done.
  - rewrite Z.min_l by lia. done.
Qed.

Lemma best_fold ss w : ∀ m,
  DistanceMatrix (colony w) = distances main_points → 0 ≤ m < 5 →
  Forall (λ s, 0 ≤ s < 5) ss →
  foldG best (started 5 <$> ss) ([m; 0; 0; 0; 0], start_length m) w
  = Ok (([foldl Z.min m ss; 0; 0; 0; 0], start_length (foldl Z.min m ss)), w).
Proof.
  induction ss as [|s ss IH]; intros m HD Hm Hss; [done|].
  apply Forall_cons in Hss as [Hs Hss]. cbn [fmap list_fmap foldG foldl].
  rewrite (bind_run _ _ _ _ _ (best_step m s w HD Hm Hs)). apply IH; [done|lia|done].
Qed.

Lemma foldl_min_range l : ∀ a,
  0 ≤ a ≤ 4 → Forall (λ s, 0 ≤ s < 5) l → 0 ≤ foldl Z.min a l ≤ 4.
Proof.
  induction l as [|s l IH]; intros a Ha Hl; [done|].
  apply Forall_cons in Hl as [Hs Hl]. simpl. apply IH; [lia | done].
Qed.

Lemma result_bind_Ok {A B} (a : A) (f : A → result B) : (Ok a ≫= f) = f a.
Proof. reflexivity. Qed.

(** The loop of [main], the last [InitializeAnts] and the best-tour loop,
    from the colony of [main]. *)
Lemma main_body Pow g :
  let m := foldl Z.min 4 ((λ k, ints g (cursor g + 1000 + k) `mod` 5) <$> seq 0 10) in
  ∃ w', (_ ← iterations Pow 100;
         ants ← InitializeAnts;
         foldG best ants (replicate 5 0, infinity))
          (mkWorld (mkAntColony 10 1 2 0.5 100 (Some <$> main_points)
                      (replicate 5 (replicate 5 0%float)) (distances main_points)) g)
        = Ok (([m; 0; 0; 0; 0], start_length m), w').
Proof.
  intros m.
  assert (Forall (λ s, 0 ≤ s < 5)
            ((λ k, ints g (cursor g + 1000 + k) `mod` 5) <$> seq 0 10)) as Hstarts.
  { apply Forall_fmap, Forall_forall. intros k _. simpl. by apply Z.mod_pos_bound. }
  destruct (iterations_run Pow 100
              (mkWorld (mkAntColony 10 1 2 0.5 100 (Some <$> main_points)
                          (replicate 5 (replicate 5 0%float)) (distances main_points)) g))
    as (p & Hloop & Hp).
  { split; [apply (square_replicate 5) | apply (square_distances main_points)]. }
  { by vm_compute. }
  { by vm_compute. }
  { by vm_compute. }
  cbn [colony rand NumAnts Alpha Beta Rho Q Cities DistanceMatrix Pheromones] in Hloop.
  change (100 * Z.to_nat 10)%nat with 1000%nat in Hloop.
  rewrite (bind_run _ _ _ _ _ Hloop).
  match type of Hloop with _ = Ok (_, ?w) => set (w1 := w) in * end.
  assert (0 ≤ NumAnts (colony w1)) as Hn by (by vm_compute).
  assert (8 * NumAnts (colony w1) ≤ maxAlloc) as Hmax by (by vm_compute).
  assert (0 < len (Cities (colony w1))) as HN by (by vm_compute).
  pose proof (InitializeAnts_run w1 Hn Hmax HN) as Hinit.
  cbn [w1 colony rand NumAnts Alpha Beta Rho Q Cities DistanceMatrix Pheromones
       drawn ints floats cursor] in Hinit.
  change (Z.to_nat 10) with 10%nat in Hinit.
  change (length (Some <$> main_points)) with 5%nat in Hinit.
  change (len (Some <$> main_points)) with 5 in Hinit.
  rewrite (bind_run _ _ _ _ _ Hinit).
  match type of Hinit with _ = Ok (_, ?w) => set (w2 := w) in * end.
  assert (DistanceMatrix (colony w2) = distances main_points) as HD by done.
  rewrite (list_fmap_compose (λ k, ints g (cursor g + 1000 + k) `mod` 5) (started 5)
             (seq 0 10) : (λ k, started 5 (ints g (cursor g + 1000 + k) `mod` 5)) <$> seq 0 10 = _).
  subst m. change (seq 0 10) with (0%nat :: seq 1 9) in *. rewrite fmap_cons in *.
  revert Hstarts. generalize ((λ k, ints g (cursor g + 1000 + k) `mod` 5) <$> seq 1 9).
  generalize (ints g (cursor g + 1000 + 0) `mod` 5). intros s0 ss Hstarts.
  apply Forall_cons in Hstarts as [Hs0 Hstarts]. exists w2.
  cbn [fmap list_fmap foldG foldl].
  rewrite (bind_run _ _ _ _ _ (best_first s0 w2 HD Hs0)).
  rewrite Z.min_r by lia. by apply best_fold.
Qed.

(** X25: the output of [main], for every random source and every
    implementation of [math.Pow]: [main] never panics, and it prints the
    tour [m 0 0 0 0] and the distance from city [m] to city 0, where [m]
    is the least start city among the ten ants of the last
    [InitializeAnts] (the draws 1000 to 1009 of the source). The printed
    tour is no permutation of the five cities, and the hundred passes of
    the loop have no influence on it. *)
Theorem main_output Pow g :
  let m := foldl Z.min 4 ((λ k, ints g (cursor g + 1000 + k) `mod` 5) <$> seq 0 10) in
  0 ≤ m ≤ 4 ∧ main Pow g = Ok ([m; 0; 0; 0; 0], start_length m).
Proof.
  intros m. split.
  { apply foldl_min_range; [lia|].
    apply Forall_fmap, Forall_forall. intros k _. simpl. by apply Z.mod_pos_bound. }
  destruct (main_body Pow g) as [w' Hbody]. fold m in Hbody.
  unfold main. cbv zeta. rewrite main_cities_points, NewAntColony_run, result_bind_Ok.
  transitivity (out ← Ok (([m; 0; 0; 0; 0], start_length m), w'); Ok out.1); [|done].
  rewrite <- Hbody. reflexivity.
Qed.

(** * Instances *)

Lemma world_three_coincident_wf : wf_colony (colony world_three_coincident).
Proof. split; (split; [reflexivity | repeat constructor]). Qed.

Lemma world2_trail_wf : wf_colony (colony (with_trail world2)).
Proof. split; (split; [reflexivity | repeat constructor]). Qed.

Lemma world_coincident_trail_wf : wf_colony (colony (with_trail world_coincident)).
Proof. split; (split; [reflexivity | repeat constructor]). Qed.

Lemma ant_at_0_consistent ac : 0 < len (Cities ac) → consistent ac ant_at_0.
Proof.
  intros HN. split_and!.
  - apply NoDup_singleton.
  - by repeat constructor.
  - intros i. unfold visited, ant_at_0. simpl. rewrite list_elem_of_singleton.
    destruct (decide (i = 0)) as [->|Hi].
    + by rewrite lookup_singleton_eq.
    + rewrite lookup_singleton_ne by done. done.
Qed.

(** At two cities the ant at city 0 is sent to city 1. *)
Lemma NextCity_result_witness :
  1 = -1 ∨ (0 ≤ 1 < len (Cities (colony world2)) ∧ visited ant_at_0 1 = false).
Proof.
  apply (NextCity_result PowSpecial ant_at_0 world2 1
           (mkWorld (colony world2) (advance (rand world2)))).
  vm_compute. reflexivity.
Defined.

(** An ant whose tour ends with the sentinel [-1]. *)
Lemma NextCity_bad_current_witness :
  NextCity PowSpecial ant_lost world4 = Panic "index out of range".
Proof.
  apply (NextCity_bad_current PowSpecial ant_lost world4).
  intros c Hc. vm_compute in Hc. injection Hc as <-. lia.
Defined.

(** The ant at city 0 of two cities moves on to city 1. *)
Lemma AntsMove_extends_witness :
  Forall2 (λ ant ant', Tour ant `prefix_of` Tour ant'
                       ∧ len (Tour ant') = len (Tour ant) `max` len (Cities (colony world2)))
    [ant_at_0] [mkAnt [0; 1] (<[1 := true]> {[0 := true]})].
Proof.
  apply (AntsMove_extends PowSpecial [ant_at_0] world2
           [mkAnt [0; 1] (<[1 := true]> {[0 := true]})]
           (mkWorld (colony world2) (advance (rand world2)))).
  vm_compute. reflexivity.
Defined.

Lemma AntsMove_permutation_witness :
  Forall (λ ant', -1 ∉ Tour ant' → Tour ant' ≡ₚ seqZ 0 (len (Cities (colony world2))))
    [mkAnt [0; 1] (<[1 := true]> {[0 := true]})].
Proof.
  apply (AntsMove_permutation PowSpecial [ant_at_0] world2
           [mkAnt [0; 1] (<[1 := true]> {[0 := true]})]
           (mkWorld (colony world2) (advance (rand world2)))).
  - vm_compute. reflexivity.
  - constructor; [|constructor]. apply ant_at_0_consistent. reflexivity.
Defined.

(** At three coincident cities the first draw of the ant at city 0 is
    the sentinel, and the next pass indexes the matrix with it. *)
Lemma AntsMove_sentinel_panics_witness :
  AntsMove PowSpecial [ant_at_0] world_three_coincident = Panic "index out of range".
Proof.
  apply (AntsMove_sentinel_panics PowSpecial ant_at_0 [] world_three_coincident
           (mkWorld (colony world_three_coincident) (advance (rand world_three_coincident)))).
  - vm_compute. reflexivity.
  - reflexivity.
Defined.

Lemma TourLength_out_of_range_witness :
  TourLength [0; 1; 2] world2 = Panic "index out of range".
Proof.
  apply (TourLength_out_of_range 2 world2 [0; 1; 2]).
  - apply world2_wf.
  - simpl. lia.
  - apply Exists_cons_tl, Exists_cons_tl, Exists_cons_hd. lia.
Defined.

Lemma TourLength_snoc_witness :
  ∃ l x, TourLength ([0; 1] ++ [2]) world_main = Ok (l, world_main)
         ∧ entry (DistanceMatrix (colony world_main)) (Z.to_nat 2) (Z.to_nat 3) = Some x
         ∧ TourLength ([0; 1] ++ [2; 3]) world_main = Ok ((l + x)%float, world_main).
Proof.
  apply (TourLength_snoc world_main [0; 1] 2 3).
  - apply world_main_wf.
  - repeat (constructor; try (vm_compute; split; [discriminate | reflexivity])).
Defined.

Lemma TourLength_sign_witness :
  ∃ l, TourLength [0; 1; 2; 3; 4] world_main = Ok (l, world_main)
       ∧ sign_clear l ∧ nonneg l.
Proof.
  apply (TourLength_sign world_main [0; 1; 2; 3; 4]).
  - apply world_main_wf.
  - repeat (constructor; try (vm_compute; split; [discriminate | reflexivity])).
  - repeat constructor.
Defined.

(** An ant that walks 0, 1, 2 leaves the entry between the cities 3 and 4
    to evaporation. *)
Lemma UpdatePheromones_off_tours_witness :
  ∃ w', UpdatePheromones [mkAnt [0; 1; 2] ∅] world_main = Ok (tt, w')
        ∧ entry (Pheromones (colony w')) (Z.to_nat 3) (Z.to_nat 4)
          = (λ x, x * (1 - Rho (colony world_main)))%float
              <$> entry (Pheromones (colony world_main)) (Z.to_nat 3) (Z.to_nat 4).
Proof.
  eexists. split; [vm_compute; reflexivity|].
  apply (UpdatePheromones_off_tours [mkAnt [0; 1; 2] ∅] world_main _ 3 4).
  - vm_compute. reflexivity.
  - lia.
  - lia.
  - constructor; [|constructor]. simpl. intros [H|H];
      repeat (apply elem_of_cons in H as [H|H]; [discriminate H|]);
      by apply elem_of_nil in H.
Defined.

Lemma UpdatePheromones_shape_witness :
  ∃ w', UpdatePheromones [mkAnt [0; 1; 2; 3; 4] ∅] world_main = Ok (tt, w')
        ∧ wf_colony (colony w') ∧ rand w' = rand world_main.
Proof.
  apply (UpdatePheromones_shape [mkAnt [0; 1; 2; 3; 4] ∅] world_main).
  - apply world_main_wf.
  - repeat (constructor; try (vm_compute; split; [discriminate | reflexivity])).
Defined.

Lemma UpdatePheromones_out_of_range_witness :
  UpdatePheromones [mkAnt [0; 1] ∅; ant_lost] world2 = Panic "index out of range".
Proof.
  apply (UpdatePheromones_out_of_range 2 [mkAnt [0; 1] ∅; ant_lost] world2).
  - apply world2_wf.
  - apply Exists_cons_tl, Exists_cons_hd. split; [simpl; lia|].
    apply Exists_cons_tl, Exists_cons_hd. lia.
Defined.

Lemma Distance_nonneg_witness :
  sign_clear (Distance (mkCity 0 0) (mkCity 3 4))
  ∧ nonneg (Distance (mkCity 0 0) (mkCity 3 4)).
Proof. apply (Distance_nonneg (mkCity 0 0) (mkCity 3 4)); reflexivity. Defined.



Lemma InitializeAnts_draws_witness :
  InitializeAnts world_main =
  Ok ((λ k, started (length (Cities (colony world_main)))
              (ints (rand world_main) (cursor (rand world_main) + k)
               `mod` len (Cities (colony world_main))))
        <$> seq 0 (Z.to_nat (NumAnts (colony world_main))),
      mkWorld (colony world_main)
        (mkRand (ints (rand world_main)) (floats (rand world_main))
           (cursor (rand world_main) + Z.to_nat (NumAnts (colony world_main))))).
Proof. apply (InitializeAnts_draws world_main); by vm_compute. Defined.

(** Two coincident cities with zero pheromone: the weight of city 1 is
    [0 * +Inf]. *)
Lemma NextCity_nan_weight_witness :
  NextCity PowSpecial ant_at_0 world_coincident
  = Ok (-1, mkWorld (colony world_coincident) (advance (rand world_coincident))).
Proof.
  apply (NextCity_nan_weight PowSpecial ant_at_0 world_coincident 0 [0%float; 0%float] 1).
  - apply world_coincident_wf.
  - reflexivity.
  - reflexivity.
  - vm_compute. split; [discriminate | reflexivity].
  - reflexivity.
  - reflexivity.
Defined.

(** Two distinct cities with a pheromone of 1 between them: the weight
    sum is [1 / sqrt 2]. *)
Lemma NextCity_selects_witness :
  ∃ i, NextCity PowSpecial ant_at_0 (with_trail world2)
       = Ok (i, mkWorld (colony (with_trail world2)) (advance (rand (with_trail world2))))
       ∧ 0 ≤ i < len (Cities (colony (with_trail world2))) ∧ visited ant_at_0 i = false.
Proof.
  apply (NextCity_selects PowSpecial ant_at_0 (with_trail world2) 0 [0%float; 1%float]).
  - apply world2_trail_wf.
  - reflexivity.
  - reflexivity.
  - exists 1. split; [vm_compute; split; [discriminate | reflexivity] | reflexivity].
  - reflexivity.
  - reflexivity.
Defined.

(** Two coincident cities with a pheromone of 1 between them: the weight
    of city 1 is [1 * +Inf]. *)
Lemma NextCity_infinite_sum_witness :
  ∃ i, NextCity PowSpecial ant_at_0 (with_trail world_coincident)
       = Ok (i, mkWorld (colony (with_trail world_coincident))
                  (advance (rand (with_trail world_coincident))))
       ∧ if (0 <? unit_interval (floats (rand (with_trail world_coincident))
                                   (cursor (rand (with_trail world_coincident)))))%float
         then 0 ≤ i < len (Cities (colony (with_trail world_coincident)))
              ∧ visited ant_at_0 i = false
         else i = -1.
Proof.
  apply (NextCity_infinite_sum PowSpecial ant_at_0 (with_trail world_coincident) 0
           [0%float; 1%float]).
  - apply world_coincident_trail_wf.
  - reflexivity.
  - reflexivity.
  - reflexivity.
Defined.

(** Three passes of the loop with the cities and parameters of [main]. *)
Lemma iterations_draws_witness :
  ∃ p, iterations PowSpecial 3 world_main =
       Ok (tt, mkWorld (mkAntColony (NumAnts (colony world_main)) (Alpha (colony world_main))
                          (Beta (colony world_main)) (Rho (colony world_main))
                          (Q (colony world_main)) (Cities (colony world_main)) p
                          (DistanceMatrix (colony world_main)))
                 (drawn (3 * Z.to_nat (NumAnts (colony world_main))) (rand world_main)))
       ∧ square (length (Cities (colony world_main))) p.
Proof.
  apply (iterations_draws PowSpecial 3 world_main).
  - apply world_main_wf.
  - by vm_compute.
  - by vm_compute.
  - by vm_compute.
Defined.
